(** * Live conversation session and video request flow

    A shallow embedding of [src/components/LiveConversation.tsx]: the
    React component [LiveConversation] (state hooks, refs, the handlers
    [addLog], [stopConversation], [startConversation] and the callbacks
    handed to the live channel) and the request section of
    [generateVideo] in the [VeoStudio] component of the same file.

    Modelling conventions.
    - JavaScript numbers that hold times (AudioContext.currentTime,
      AudioBuffer.duration, the playback cursor) are exact rationals [Q];
      rounding of doubles is not modelled.
    - Browser objects (media streams, audio contexts, processor nodes,
      buffer source nodes, animation frame requests, live sessions) are
      handles of type [nat] drawn from one allocation counter; what the
      browser knows about them is kept in the same record as the
      component's state and refs.
    - Every value a handler obtains from outside (clock readings, the
      outcome of getUserMedia, of decoding, of an SDK call) is an argument
      of the handler.
    - An async handler stops at each [await] and goes on later; other
      handlers may run in between.  Each handler that awaits is therefore
      given in pieces, one up to the await and one from the settled promise
      on, and each piece is an event of its own.  The definition that
      carries the source's name ([startConversation], [onmessage],
      [stopConversation]) is the whole call with nothing running in
      between, which is one of the ways it can go. *)

From stdpp Require Import gmap strings list fin_maps pretty.
From Stdlib Require Import QArith Qminmax Lqa.
Close Scope Q_scope.

(** ** JavaScript values *)

(** A thrown value; [err.message] may be absent. *)
Record JsError := { message : option string }.

(** [m || fallback] for a possibly absent string: the empty string is falsy. *)
Definition or_else (m : option string) (fallback : string) : string :=
  match m with
  | Some x => if String.eqb x "" then fallback else x
  | None => fallback
  end.

(** Truthiness of an optional string, as tested by [if (base64Audio)]. *)
Definition truthy (m : option string) : bool :=
  match m with
  | Some x => negb (String.eqb x "")
  | None => false
  end.

(** [l.slice(start)]: a negative [start] counts from the end. *)
Definition slice_from {A} (start : Z) (l : list A) : list A :=
  let len := Z.of_nat (length l) in
  let k := if (start <? 0)%Z then Z.max (len + start) 0 else Z.min start len in
  drop (Z.to_nat k) l.

(** [hay.includes(needle)] *)
Fixpoint includes (needle hay : string) : bool :=
  String.prefix needle hay ||
  match hay with
  | EmptyString => false
  | String _ rest => includes needle rest
  end.

Module LiveConversation.

(** ** Data *)

(** An AudioBuffer: [duration = length / sampleRate]. *)
Record AudioBuffer := { frames : N; sampleRate : positive }.

Definition buffer_duration (b : AudioBuffer) : Q :=
  Z.of_N (frames b) # sampleRate b.

(** An AudioBufferSourceNode that has been started: [start(startAt)] was
    called at clock time [calledAt] on a buffer of the given duration;
    [stoppedAt] is the time of the first [stop()] if there was one. *)
Record SourceNode := {
  startAt : Q; calledAt : Q; duration : Q; stoppedAt : option Q
}.

(** The server message, reduced to the two fields the handler reads:
    [serverContent?.modelTurn?.parts?.[0]?.inlineData?.data] and
    [serverContent?.interrupted]. *)
Record LiveServerMessage := { inlineData : option string; interrupted : bool }.

(** Calls leaving the component that the claims count. *)
Inductive Effect :=
  | SetError (e : option string)
  | ConsoleError
  | GetUserMedia
  | LiveConnect
  | StartSource (when : Q)
  | SendRealtimeInput (session : nat).

#[global] Instance Q_eq_dec : EqDecision Q.
Proof. solve_decision. Defined.

#[global] Instance Effect_eq_dec : EqDecision Effect.
Proof. solve_decision. Defined.

(** The component: React state, refs, and the browser resources they
    refer to. *)
Record State := {
  (* useState *)
  isConnected : bool;
  isSpeaking : bool;
  error : option string;
  logs : list string;
  (* useRef *)
  audioContextRef : option nat;
  mediaStreamRef : option nat;
  scriptProcessorRef : option nat;
  sessionRef : option nat;
  nextStartTimeRef : Q;
  sourcesRef : gset nat;
  analyserRef : option nat;
  animationFrameRef : nat;
  (* browser *)
  liveStreams : gset nat;          (* streams whose tracks are live *)
  runningContexts : gset nat;      (* audio contexts not closed *)
  connectedProcessors : gset nat;  (* script processors wired to a graph *)
  pendingFrames : gset nat;        (* animation frames requested, not run *)
  openChannels : gset nat;         (* live channels opened, not closed *)
  nodes : gmap nat SourceNode;     (* buffer sources started so far *)
  nextHandle : nat;                (* next fresh handle *)
  trace : list Effect              (* calls made, oldest first *)
}.

(** The component as mounted: hooks at their initial values. *)
Definition initial : State :=
  {| isConnected := false; isSpeaking := false; error := None; logs := [];
     audioContextRef := None; mediaStreamRef := None;
     scriptProcessorRef := None; sessionRef := None;
     nextStartTimeRef := 0%Q; sourcesRef := ∅; analyserRef := None;
     animationFrameRef := 0;
     liveStreams := ∅; runningContexts := ∅; connectedProcessors := ∅;
     pendingFrames := ∅; openChannels := ∅; nodes := ∅; nextHandle := 1;
     trace := [] |}.

(** Field updates. *)
Definition set_isConnected (v : bool) (s : State) : State :=
  {| isConnected := v; isSpeaking := isSpeaking s; error := error s;
     logs := logs s; audioContextRef := audioContextRef s;
     mediaStreamRef := mediaStreamRef s;
     scriptProcessorRef := scriptProcessorRef s; sessionRef := sessionRef s;
     nextStartTimeRef := nextStartTimeRef s; sourcesRef := sourcesRef s;
     analyserRef := analyserRef s; animationFrameRef := animationFrameRef s;
     liveStreams := liveStreams s; runningContexts := runningContexts s;
     connectedProcessors := connectedProcessors s;
     pendingFrames := pendingFrames s; openChannels := openChannels s;
     nodes := nodes s; nextHandle := nextHandle s; trace := trace s |}.

Definition set_isSpeaking (v : bool) (s : State) : State :=
  {| isConnected := isConnected s; isSpeaking := v; error := error s;
     logs := logs s; audioContextRef := audioContextRef s;
     mediaStreamRef := mediaStreamRef s;
     scriptProcessorRef := scriptProcessorRef s; sessionRef := sessionRef s;
     nextStartTimeRef := nextStartTimeRef s; sourcesRef := sourcesRef s;
     analyserRef := analyserRef s; animationFrameRef := animationFrameRef s;
     liveStreams := liveStreams s; runningContexts := runningContexts s;
     connectedProcessors := connectedProcessors s;
     pendingFrames := pendingFrames s; openChannels := openChannels s;
     nodes := nodes s; nextHandle := nextHandle s; trace := trace s |}.

Definition set_error (v : option string) (s : State) : State :=
  {| isConnected := isConnected s; isSpeaking := isSpeaking s; error := v;
     logs := logs s; audioContextRef := audioContextRef s;
     mediaStreamRef := mediaStreamRef s;
     scriptProcessorRef := scriptProcessorRef s; sessionRef := sessionRef s;
     nextStartTimeRef := nextStartTimeRef s; sourcesRef := sourcesRef s;
     analyserRef := analyserRef s; animationFrameRef := animationFrameRef s;
     liveStreams := liveStreams s; runningContexts := runningContexts s;
     connectedProcessors := connectedProcessors s;
     pendingFrames := pendingFrames s; openChannels := openChannels s;
     nodes := nodes s; nextHandle := nextHandle s; trace := trace s |}.

Definition set_logs (v : list string) (s : State) : State :=
  {| isConnected := isConnected s; isSpeaking := isSpeaking s;
     error := error s; logs := v; audioContextRef := audioContextRef s;
     mediaStreamRef := mediaStreamRef s;
     scriptProcessorRef := scriptProcessorRef s; sessionRef := sessionRef s;
     nextStartTimeRef := nextStartTimeRef s; sourcesRef := sourcesRef s;
     analyserRef := analyserRef s; animationFrameRef := animationFrameRef s;
     liveStreams := liveStreams s; runningContexts := runningContexts s;
     connectedProcessors := connectedProcessors s;
     pendingFrames := pendingFrames s; openChannels := openChannels s;
     nodes := nodes s; nextHandle := nextHandle s; trace := trace s |}.

Definition set_audioContextRef (v : option nat) (s : State) : State :=
  {| isConnected := isConnected s; isSpeaking := isSpeaking s;
     error := error s; logs := logs s; audioContextRef := v;
     mediaStreamRef := mediaStreamRef s;
     scriptProcessorRef := scriptProcessorRef s; sessionRef := sessionRef s;
     nextStartTimeRef := nextStartTimeRef s; sourcesRef := sourcesRef s;
     analyserRef := analyserRef s; animationFrameRef := animationFrameRef s;
     liveStreams := liveStreams s; runningContexts := runningContexts s;
     connectedProcessors := connectedProcessors s;
     pendingFrames := pendingFrames s; openChannels := openChannels s;
     nodes := nodes s; nextHandle := nextHandle s; trace := trace s |}.

Definition set_mediaStreamRef (v : option nat) (s : State) : State :=
  {| isConnected := isConnected s; isSpeaking := isSpeaking s;
     error := error s; logs := logs s; audioContextRef := audioContextRef s;
     mediaStreamRef := v; scriptProcessorRef := scriptProcessorRef s;
     sessionRef := sessionRef s; nextStartTimeRef := nextStartTimeRef s;
     sourcesRef := sourcesRef s; analyserRef := analyserRef s;
     animationFrameRef := animationFrameRef s; liveStreams := liveStreams s;
     runningContexts := runningContexts s;
     connectedProcessors := connectedProcessors s;
     pendingFrames := pendingFrames s; openChannels := openChannels s;
     nodes := nodes s; nextHandle := nextHandle s; trace := trace s |}.

Definition set_scriptProcessorRef (v : option nat) (s : State) : State :=
  {| isConnected := isConnected s; isSpeaking := isSpeaking s;
     error := error s; logs := logs s; audioContextRef := audioContextRef s;
     mediaStreamRef := mediaStreamRef s; scriptProcessorRef := v;
     sessionRef := sessionRef s; nextStartTimeRef := nextStartTimeRef s;
     sourcesRef := sourcesRef s; analyserRef := analyserRef s;
     animationFrameRef := animationFrameRef s; liveStreams := liveStreams s;
     runningContexts := runningContexts s;
     connectedProcessors := connectedProcessors s;
     pendingFrames := pendingFrames s; openChannels := openChannels s;
     nodes := nodes s; nextHandle := nextHandle s; trace := trace s |}.

Definition set_sessionRef (v : option nat) (s : State) : State :=
  {| isConnected := isConnected s; isSpeaking := isSpeaking s;
     error := error s; logs := logs s; audioContextRef := audioContextRef s;
     mediaStreamRef := mediaStreamRef s;
     scriptProcessorRef := scriptProcessorRef s; sessionRef := v;
     nextStartTimeRef := nextStartTimeRef s; sourcesRef := sourcesRef s;
     analyserRef := analyserRef s; animationFrameRef := animationFrameRef s;
     liveStreams := liveStreams s; runningContexts := runningContexts s;
     connectedProcessors := connectedProcessors s;
     pendingFrames := pendingFrames s; openChannels := openChannels s;
     nodes := nodes s; nextHandle := nextHandle s; trace := trace s |}.

Definition set_nextStartTimeRef (v : Q) (s : State) : State :=
  {| isConnected := isConnected s; isSpeaking := isSpeaking s;
     error := error s; logs := logs s; audioContextRef := audioContextRef s;
     mediaStreamRef := mediaStreamRef s;
     scriptProcessorRef := scriptProcessorRef s; sessionRef := sessionRef s;
     nextStartTimeRef := v; sourcesRef := sourcesRef s;
     analyserRef := analyserRef s; animationFrameRef := animationFrameRef s;
     liveStreams := liveStreams s; runningContexts := runningContexts s;
     connectedProcessors := connectedProcessors s;
     pendingFrames := pendingFrames s; openChannels := openChannels s;
     nodes := nodes s; nextHandle := nextHandle s; trace := trace s |}.

Definition set_sourcesRef (v : gset nat) (s : State) : State :=
  {| isConnected := isConnected s; isSpeaking := isSpeaking s;
     error := error s; logs := logs s; audioContextRef := audioContextRef s;
     mediaStreamRef := mediaStreamRef s;
     scriptProcessorRef := scriptProcessorRef s; sessionRef := sessionRef s;
     nextStartTimeRef := nextStartTimeRef s; sourcesRef := v;
     analyserRef := analyserRef s; animationFrameRef := animationFrameRef s;
     liveStreams := liveStreams s; runningContexts := runningContexts s;
     connectedProcessors := connectedProcessors s;
     pendingFrames := pendingFrames s; openChannels := openChannels s;
     nodes := nodes s; nextHandle := nextHandle s; trace := trace s |}.

Definition set_analyserRef (v : option nat) (s : State) : State :=
  {| isConnected := isConnected s; isSpeaking := isSpeaking s;
     error := error s; logs := logs s; audioContextRef := audioContextRef s;
     mediaStreamRef := mediaStreamRef s;
     scriptProcessorRef := scriptProcessorRef s; sessionRef := sessionRef s;
     nextStartTimeRef := nextStartTimeRef s; sourcesRef := sourcesRef s;
     analyserRef := v; animationFrameRef := animationFrameRef s;
     liveStreams := liveStreams s; runningContexts := runningContexts s;
     connectedProcessors := connectedProcessors s;
     pendingFrames := pendingFrames s; openChannels := openChannels s;
     nodes := nodes s; nextHandle := nextHandle s; trace := trace s |}.

Definition set_animationFrameRef (v : nat) (s : State) : State :=
  {| isConnected := isConnected s; isSpeaking := isSpeaking s;
     error := error s; logs := logs s; audioContextRef := audioContextRef s;
     mediaStreamRef := mediaStreamRef s;
     scriptProcessorRef := scriptProcessorRef s; sessionRef := sessionRef s;
     nextStartTimeRef := nextStartTimeRef s; sourcesRef := sourcesRef s;
     analyserRef := analyserRef s; animationFrameRef := v;
     liveStreams := liveStreams s; runningContexts := runningContexts s;
     connectedProcessors := connectedProcessors s;
     pendingFrames := pendingFrames s; openChannels := openChannels s;
     nodes := nodes s; nextHandle := nextHandle s; trace := trace s |}.

Definition set_liveStreams (v : gset nat) (s : State) : State :=
  {| isConnected := isConnected s; isSpeaking := isSpeaking s;
     error := error s; logs := logs s; audioContextRef := audioContextRef s;
     mediaStreamRef := mediaStreamRef s;
     scriptProcessorRef := scriptProcessorRef s; sessionRef := sessionRef s;
     nextStartTimeRef := nextStartTimeRef s; sourcesRef := sourcesRef s;
     analyserRef := analyserRef s; animationFrameRef := animationFrameRef s;
     liveStreams := v; runningContexts := runningContexts s;
     connectedProcessors := connectedProcessors s;
     pendingFrames := pendingFrames s; openChannels := openChannels s;
     nodes := nodes s; nextHandle := nextHandle s; trace := trace s |}.

Definition set_runningContexts (v : gset nat) (s : State) : State :=
  {| isConnected := isConnected s; isSpeaking := isSpeaking s;
     error := error s; logs := logs s; audioContextRef := audioContextRef s;
     mediaStreamRef := mediaStreamRef s;
     scriptProcessorRef := scriptProcessorRef s; sessionRef := sessionRef s;
     nextStartTimeRef := nextStartTimeRef s; sourcesRef := sourcesRef s;
     analyserRef := analyserRef s; animationFrameRef := animationFrameRef s;
     liveStreams := liveStreams s; runningContexts := v;
     connectedProcessors := connectedProcessors s;
     pendingFrames := pendingFrames s; openChannels := openChannels s;
     nodes := nodes s; nextHandle := nextHandle s; trace := trace s |}.

Definition set_connectedProcessors (v : gset nat) (s : State) : State :=
  {| isConnected := isConnected s; isSpeaking := isSpeaking s;
     error := error s; logs := logs s; audioContextRef := audioContextRef s;
     mediaStreamRef := mediaStreamRef s;
     scriptProcessorRef := scriptProcessorRef s; sessionRef := sessionRef s;
     nextStartTimeRef := nextStartTimeRef s; sourcesRef := sourcesRef s;
     analyserRef := analyserRef s; animationFrameRef := animationFrameRef s;
     liveStreams := liveStreams s; runningContexts := runningContexts s;
     connectedProcessors := v; pendingFrames := pendingFrames s;
     openChannels := openChannels s; nodes := nodes s;
     nextHandle := nextHandle s; trace := trace s |}.

Definition set_pendingFrames (v : gset nat) (s : State) : State :=
  {| isConnected := isConnected s; isSpeaking := isSpeaking s;
     error := error s; logs := logs s; audioContextRef := audioContextRef s;
     mediaStreamRef := mediaStreamRef s;
     scriptProcessorRef := scriptProcessorRef s; sessionRef := sessionRef s;
     nextStartTimeRef := nextStartTimeRef s; sourcesRef := sourcesRef s;
     analyserRef := analyserRef s; animationFrameRef := animationFrameRef s;
     liveStreams := liveStreams s; runningContexts := runningContexts s;
     connectedProcessors := connectedProcessors s; pendingFrames := v;
     openChannels := openChannels s; nodes := nodes s;
     nextHandle := nextHandle s; trace := trace s |}.

Definition set_openChannels (v : gset nat) (s : State) : State :=
  {| isConnected := isConnected s; isSpeaking := isSpeaking s;
     error := error s; logs := logs s; audioContextRef := audioContextRef s;
     mediaStreamRef := mediaStreamRef s;
     scriptProcessorRef := scriptProcessorRef s; sessionRef := sessionRef s;
     nextStartTimeRef := nextStartTimeRef s; sourcesRef := sourcesRef s;
     analyserRef := analyserRef s; animationFrameRef := animationFrameRef s;
     liveStreams := liveStreams s; runningContexts := runningContexts s;
     connectedProcessors := connectedProcessors s;
     pendingFrames := pendingFrames s; openChannels := v; nodes := nodes s;
     nextHandle := nextHandle s; trace := trace s |}.

Definition set_nodes (v : gmap nat SourceNode) (s : State) : State :=
  {| isConnected := isConnected s; isSpeaking := isSpeaking s;
     error := error s; logs := logs s; audioContextRef := audioContextRef s;
     mediaStreamRef := mediaStreamRef s;
     scriptProcessorRef := scriptProcessorRef s; sessionRef := sessionRef s;
     nextStartTimeRef := nextStartTimeRef s; sourcesRef := sourcesRef s;
     analyserRef := analyserRef s; animationFrameRef := animationFrameRef s;
     liveStreams := liveStreams s; runningContexts := runningContexts s;
     connectedProcessors := connectedProcessors s;
     pendingFrames := pendingFrames s; openChannels := openChannels s;
     nodes := v; nextHandle := nextHandle s; trace := trace s |}.

Definition set_nextHandle (v : nat) (s : State) : State :=
  {| isConnected := isConnected s; isSpeaking := isSpeaking s;
     error := error s; logs := logs s; audioContextRef := audioContextRef s;
     mediaStreamRef := mediaStreamRef s;
     scriptProcessorRef := scriptProcessorRef s; sessionRef := sessionRef s;
     nextStartTimeRef := nextStartTimeRef s; sourcesRef := sourcesRef s;
     analyserRef := analyserRef s; animationFrameRef := animationFrameRef s;
     liveStreams := liveStreams s; runningContexts := runningContexts s;
     connectedProcessors := connectedProcessors s;
     pendingFrames := pendingFrames s; openChannels := openChannels s;
     nodes := nodes s; nextHandle := v; trace := trace s |}.

Definition set_trace (v : list Effect) (s : State) : State :=
  {| isConnected := isConnected s; isSpeaking := isSpeaking s;
     error := error s; logs := logs s; audioContextRef := audioContextRef s;
     mediaStreamRef := mediaStreamRef s;
     scriptProcessorRef := scriptProcessorRef s; sessionRef := sessionRef s;
     nextStartTimeRef := nextStartTimeRef s; sourcesRef := sourcesRef s;
     analyserRef := analyserRef s; animationFrameRef := animationFrameRef s;
     liveStreams := liveStreams s; runningContexts := runningContexts s;
     connectedProcessors := connectedProcessors s;
     pendingFrames := pendingFrames s; openChannels := openChannels s;
     nodes := nodes s; nextHandle := nextHandle s; trace := v |}.

(** ** Small effects *)

Definition emit (e : Effect) (s : State) : State :=
  set_trace (trace s ++ [e]) s.

Definition setError (e : option string) (s : State) : State :=
  emit (SetError e) (set_error e s).

Definition console_error (s : State) : State := emit ConsoleError s.

(** [setLogs(prev => [...prev.slice(-4), msg])] *)
Definition addLog (msg : string) (s : State) : State :=
  set_logs (slice_from (-4) (logs s) ++ [msg]) s.

(** A fresh browser object. *)
Definition alloc (s : State) : nat * State :=
  (nextHandle s, set_nextHandle (S (nextHandle s)) s).

(** ** Visualizer loop *)

(** The inner [draw] of [drawVisualizer]; painting the canvas changes
    nothing the component reads back and is left out. *)
Definition draw (s : State) : State :=
  match analyserRef s with
  | None => s
  | Some _ =>
      let (frame, s) := alloc s in
      set_animationFrameRef frame
        (set_pendingFrames ({[frame]} ∪ pendingFrames s) s)
  end.

(** [canvas] tells whether [canvasRef.current] and its 2d context exist. *)
Definition drawVisualizer (canvas : bool) (s : State) : State :=
  if canvas && bool_decide (is_Some (analyserRef s)) then draw s else s.

(** The browser runs the callback of a requested frame. *)
Definition onframe (frame : nat) (s : State) : State :=
  if bool_decide (frame ∈ pendingFrames s)
  then draw (set_pendingFrames (pendingFrames s ∖ {[frame]}) s)
  else s.

(** ** Buffer source nodes *)

(** [source.stop()] at clock time [now]: the first stop is the one that
    counts, later ones do nothing. *)
Definition stop_node (now : Q) (n : SourceNode) : SourceNode :=
  match stoppedAt n with
  | Some _ => n
  | None => {| startAt := startAt n; calledAt := calledAt n;
               duration := duration n; stoppedAt := Some now |}
  end.

(** [sources.forEach(s => s.stop())] *)
Definition stop_sources (now : Q) (ids : list nat)
    (m : gmap nat SourceNode) : gmap nat SourceNode :=
  foldr (λ id acc, alter (stop_node now) id acc) m ids.

(** When the node begins to sound: at the time given to [start], or at
    once when that time had already passed when [start] was called. *)
Definition begins (n : SourceNode) : Q := Qmax (startAt n) (calledAt n).

(** A node of a running context produces sound at time [t] when [t]
    lies within the buffer's duration from its beginning and before its
    stop, if it was stopped.  (A node of a closed context produces none;
    the nodes do not record their context, so where a statement says that
    a node is audible it also says that the output context is running.) *)
Definition audible (n : SourceNode) (t : Q) : Prop :=
  (begins n <= t)%Q ∧ (t < begins n + duration n)%Q ∧
  match stoppedAt n with Some st => (t < st)%Q | None => True end.

(** The node has finished by time [t]. *)
Definition finished (n : SourceNode) (t : Q) : Prop :=
  (begins n + duration n <= t)%Q ∨
  match stoppedAt n with Some st => (st <= t)%Q | None => False end.

(** ** stopConversation *)

(** [audioContext.close()] inside try/catch: closing a context that is
    not running rejects, and the catch logs to the console. *)
Definition close_context (ctx : nat) (s : State) : State :=
  if bool_decide (ctx ∈ runningContexts s)
  then set_runningContexts (runningContexts s ∖ {[ctx]}) s
  else console_error s.

(** Lines 71-74: cancel the pending animation frame, if any. *)
Definition cancel_frame (s : State) : State :=
  if negb (animationFrameRef s =? 0) then
    set_animationFrameRef 0
      (set_pendingFrames (pendingFrames s ∖ {[animationFrameRef s]}) s)
  else s.

(** Lines 78-80: the session handle is dropped; the source does not
    call [close()] on it. *)
Definition drop_session (s : State) : State :=
  match sessionRef s with
  | Some _ => set_sessionRef None s
  | None => s
  end.

(** Lines 83-86: stop every track of the microphone stream. *)
Definition stop_microphone (s : State) : State :=
  match mediaStreamRef s with
  | Some stream =>
      set_mediaStreamRef None (set_liveStreams (liveStreams s ∖ {[stream]}) s)
  | None => s
  end.

(** Lines 89-92: disconnect the capture processor. *)
Definition disconnect_processor (s : State) : State :=
  match scriptProcessorRef s with
  | Some proc =>
      set_scriptProcessorRef None
        (set_connectedProcessors (connectedProcessors s ∖ {[proc]}) s)
  | None => s
  end.

(** Lines 95-98: stop every outstanding source (a throwing [stop] is
    swallowed) and clear the set.  [now] is the clock time at which the
    stops take effect. *)
Definition stop_playing (now : Q) (s : State) : State :=
  set_sourcesRef ∅
    (set_nodes (stop_sources now (elements (sourcesRef s)) (nodes s)) s).

(** Lines 100-103: close the output audio context. *)
Definition close_output (s : State) : State :=
  match audioContextRef s with
  | Some ctx => set_audioContextRef None (close_context ctx s)
  | None => s
  end.

(** The whole call, its one [await] (line 101) settling before any
    other handler runs. *)
Definition stopConversation (now : Q) (s : State) : State :=
  let s := cancel_frame s in
  let s := set_analyserRef None s in
  let s := drop_session s in
  let s := stop_microphone s in
  let s := disconnect_processor s in
  let s := stop_playing now s in
  let s := close_output s in
  let s := set_isConnected false s in
  let s := set_isSpeaking false s in
  addLog "Conversation ended" s.

(** Lines 70-101, up to the await: [close()] has been called on the
    output context and the function waits for it.  Without an output
    context there is nothing to await and lines 105-107 run at once. *)
Definition stop_begin (now : Q) (s : State) : State :=
  let s := cancel_frame s in
  let s := set_analyserRef None s in
  let s := drop_session s in
  let s := stop_microphone s in
  let s := disconnect_processor s in
  let s := stop_playing now s in
  match audioContextRef s with
  | Some ctx => set_runningContexts (runningContexts s ∖ {[ctx]}) s
  | None =>
      let s := set_isConnected false s in
      let s := set_isSpeaking false s in
      addLog "Conversation ended" s
  end.

(** Whether [stopConversation] called in [s] awaits, and if it does,
    whether its [close()] rejects. *)
Definition close_outcome (s : State) : option bool :=
  match audioContextRef s with
  | Some ctx => Some (negb (bool_decide (ctx ∈ runningContexts s)))
  | None => None
  end.

(** Lines 101-107, from the settled [close()] on. *)
Definition stop_end (rejected : bool) (s : State) : State :=
  let s := if rejected then console_error s else s in
  let s := set_audioContextRef None s in
  let s := set_isConnected false s in
  let s := set_isSpeaking false s in
  addLog "Conversation ended" s.

(** ** startConversation *)

(** What [startConversation] obtains from outside. *)
Record StartInputs := {
  userMedia : JsError + unit;     (* getUserMedia rejects or resolves *)
  ctxTime : Q;                    (* audioCtx.currentTime at creation *)
  canvasReady : bool;             (* canvas and its 2d context exist *)
  sdkThrows : option JsError;     (* new GoogleGenAI(...) throws *)
  stopTime : Q                    (* clock time of a teardown in the catch *)
}.

(** The [catch (err)] block.  Its last statement calls
    [stopConversation] without awaiting it; [teardown] is that call as far
    as it gets before the next handler runs: [stop_begin], or the whole
    [stopConversation]. *)
Definition start_catch_with (teardown : Q → State → State)
    (err : JsError) (now : Q) (s : State) : State :=
  let s := console_error s in
  let s := setError (Some (or_else (message err) "Failed to start conversation")) s in
  teardown now s.

Definition start_catch : JsError → Q → State → State :=
  start_catch_with stopConversation.

(** Lines 111-114, up to the awaited [getUserMedia]. *)
Definition start_request (s : State) : State :=
  let s := setError None s in
  let s := addLog "Requesting microphone..." s in
  emit GetUserMedia s.

(** Lines 114-231, from the moment [getUserMedia] settles. *)
Definition start_resume_with (teardown : Q → State → State)
    (i : StartInputs) (s : State) : State :=
  match userMedia i with
  | inl err => start_catch_with teardown err (stopTime i) s
  | inr _ =>
      let (stream, s) := alloc s in
      let s := set_liveStreams ({[stream]} ∪ liveStreams s) s in
      let s := set_mediaStreamRef (Some stream) s in
      let s := addLog "Initializing AudioContext..." s in
      let (audioCtx, s) := alloc s in
      let s := set_runningContexts ({[audioCtx]} ∪ runningContexts s) s in
      let s := set_audioContextRef (Some audioCtx) s in
      let s := set_nextStartTimeRef (ctxTime i) s in
      let (inputAudioCtx, s) := alloc s in
      let s := set_runningContexts ({[inputAudioCtx]} ∪ runningContexts s) s in
      let (scriptProcessor, s) := alloc s in
      let s := set_scriptProcessorRef (Some scriptProcessor) s in
      let (analyser, s) := alloc s in
      let s := set_analyserRef (Some analyser) s in
      let s := drawVisualizer (canvasReady i) s in
      let s := addLog "Connecting to Gemini Live..." s in
      match sdkThrows i with
      | Some err => start_catch_with teardown err (stopTime i) s
      | None =>
          (* ai.live.connect: the channel exists from here on; its
             session object is what sessionPromise resolves to *)
          let (session, s) := alloc s in
          let s := set_openChannels ({[session]} ∪ openChannels s) s in
          emit LiveConnect s
      end
  end.

Definition start_resume : StartInputs → State → State :=
  start_resume_with stopConversation.

(** The whole call: [getUserMedia] settles, and the teardown of a catch
    block runs through, before any other handler runs. *)
Definition startConversation (i : StartInputs) (s : State) : State :=
  start_resume i (start_request s).

(** ** Channel callbacks *)

(** [onopen]; [proc] is the script processor captured by the closure. *)
Definition onopen (proc : nat) (s : State) : State :=
  let s := addLog "Connected!" s in
  let s := set_isConnected true s in
  set_connectedProcessors ({[proc]} ∪ connectedProcessors s) s.

(** [onaudioprocess]: [session] is what [sessionPromise] settles to
    ([None] when it rejects), [sendFails] whether the send throws. *)
Definition onaudioprocess (session : option nat) (sendFails : bool)
    (s : State) : State :=
  match session with
  | None => console_error s
  | Some h =>
      let s := set_sessionRef (Some h) s in
      let s := emit (SendRealtimeInput h) s in
      if sendFails then console_error s else s
  end.

(** Lines 189-203: create the source node, [start] it at the cursor,
    advance the cursor, remember the node.  [now] is the clock time at
    which this runs. *)
Definition schedule (buf : AudioBuffer) (now : Q) (s : State) : State :=
  let (sourceNode, s) := alloc s in
  let s := emit (StartSource (nextStartTimeRef s)) s in
  let s := set_nodes
             (<[sourceNode := {| startAt := nextStartTimeRef s;
                                 calledAt := now;
                                 duration := buffer_duration buf;
                                 stoppedAt := None |}]> (nodes s)) s in
  let s := set_nextStartTimeRef
             (nextStartTimeRef s + buffer_duration buf)%Q s in
  set_sourcesRef ({[sourceNode]} ∪ sourcesRef s) s.

(** Lines 207-213. *)
Definition interrupt (now : Q) (s : State) : State :=
  let s := addLog "Interrupted" s in
  let s := set_nodes
             (stop_sources now (elements (sourcesRef s)) (nodes s)) s in
  let s := set_sourcesRef ∅ s in
  let s := set_nextStartTimeRef now s in
  set_isSpeaking false s.

(** The listener for a source node's ['ended'] event. *)
Definition onended (sourceNode : nat) (s : State) : State :=
  let s := set_sourcesRef (sourcesRef s ∖ {[sourceNode]}) s in
  if size (sourcesRef s) =? 0 then set_isSpeaking false s else s.

(** How an async handler finishes: its promise resolves, or it rejects
    because something threw. *)
Inductive Outcome := Returned | Threw.

Section Callbacks.

(** [decodeAudioData(decode(base64Audio), audioCtx, 24000, 1)]: both
    functions live in [utils/audioUtils], which is not among the sources at
    hand.  The composition is taken as given: the decoded buffer, or
    [None] when it throws. *)
Variable decodeAudioData : string → option AudioBuffer.

(** Lines 172-187: the part of [onmessage] up to the awaited decode,
    together with what the decode will settle to.  [arrival] is
    [audioCtx.currentTime] as read on line 179. *)
Definition receive_audio (data : string) (arrival : Q) (s : State)
    : option AudioBuffer * State :=
  let s := set_isSpeaking true s in
  let s := set_nextStartTimeRef (Qmax (nextStartTimeRef s) arrival) s in
  (decodeAudioData data, s).

(** [onmessage], the whole call: the decode settles before any other
    handler runs.  [resumed] is [audioCtx.currentTime] once it has
    settled, the time at which lines 189-213 run. *)
Definition onmessage (m : LiveServerMessage) (arrival resumed : Q)
    (s : State) : Outcome * State :=
  let '(o, s) :=
    if truthy (inlineData m) then
      match receive_audio (default "" (inlineData m)) arrival s with
      | (Some buf, s) => (Returned, schedule buf resumed s)
      | (None, s) => (Threw, s)
      end
    else (Returned, s) in
  match o with
  | Threw => (Threw, s)
  | Returned => (Returned, if interrupted m then interrupt resumed s else s)
  end.

(** [onmessage] up to its await.  A message with an audio part waits for
    the decode on line 182; one without does not await and the handler
    runs to its end. *)
Definition onmessage_begin (m : LiveServerMessage) (now : Q) (s : State)
    : State :=
  if truthy (inlineData m)
  then (receive_audio (default "" (inlineData m)) now s).2
  else (onmessage m now now s).2.

(** [onmessage] from the settled decode on (lines 182-213), for a message
    with an audio part.  The node is started at what the cursor is now. *)
Definition onmessage_end (m : LiveServerMessage) (resumed : Q) (s : State)
    : Outcome * State :=
  if truthy (inlineData m) then
    match decodeAudioData (default "" (inlineData m)) with
    | Some buf =>
        let s := schedule buf resumed s in
        (Returned, if interrupted m then interrupt resumed s else s)
    | None => (Threw, s)
    end
  else (Returned, s).

Definition onclose (now : Q) (s : State) : State :=
  stopConversation now (addLog "Disconnected by server" s).

Definition onerror (now : Q) (s : State) : State :=
  let s := console_error s in
  let s := setError (Some "Connection error") s in
  stopConversation now s.

(** ** Event loop *)

(** What the browser's event loop runs, one piece at a time.  The first
    nine events run a handler as a whole; the others are the pieces of
    the handlers that await, so that a list of events can interleave
    them with anything else. *)
Inductive Event :=
  | EvStart (i : StartInputs)
  | EvOpen (proc : nat)
  | EvAudioProcess (session : option nat) (sendFails : bool)
  | EvMessage (m : LiveServerMessage) (arrival resumed : Q)
  | EvEnded (sourceNode : nat)
  | EvFrame (frame : nat)
  | EvClose (session : nat) (now : Q)
  | EvError (now : Q)
  | EvStop (now : Q)
  (* startConversation: up to the awaited getUserMedia; from there on *)
  | EvRequest
  | EvResume (i : StartInputs)
  (* onmessage: up to the awaited decode; from there on *)
  | EvArrive (m : LiveServerMessage) (arrival : Q)
  | EvDecoded (m : LiveServerMessage) (resumed : Q)
  (* onclose, onerror and the stop button, up to the awaited close() of
     the teardown they call; the teardown from there on *)
  | EvClosing (session : nat) (now : Q)
  | EvFailing (now : Q)
  | EvStopping (now : Q)
  | EvStopped (rejected : bool).

Definition step (s : State) (e : Event) : State :=
  match e with
  | EvStart i => startConversation i s
  | EvOpen proc => onopen proc s
  | EvAudioProcess session sendFails => onaudioprocess session sendFails s
  | EvMessage m arrival resumed => (onmessage m arrival resumed s).2
  | EvEnded n => onended n s
  | EvFrame f => onframe f s
  | EvClose session now =>
      (* the server has closed the channel; then the callback runs *)
      onclose now (set_openChannels (openChannels s ∖ {[session]}) s)
  | EvError now => onerror now s
  | EvStop now => stopConversation now s
  | EvRequest => start_request s
  | EvResume i => start_resume_with stop_begin i s
  | EvArrive m arrival => onmessage_begin m arrival s
  | EvDecoded m resumed => (onmessage_end m resumed s).2
  | EvClosing session now =>
      stop_begin now
        (addLog "Disconnected by server"
           (set_openChannels (openChannels s ∖ {[session]}) s))
  | EvFailing now =>
      stop_begin now (setError (Some "Connection error") (console_error s))
  | EvStopping now => stop_begin now s
  | EvStopped rejected => stop_end rejected s
  end.

Definition run (s : State) (es : list Event) : State := foldl step s es.

End Callbacks.

End LiveConversation.

(** ** The request section of generateVideo *)

Module VeoStudio.

(** What lines 396-437 obtain from outside. *)
Record RequestInputs := {
  (* the first generateVideos call: rejects, or yields an operation *)
  firstRequest : JsError + nat;
  (* window.aistudio?.openSelectKey: absent, or present with the outcome
     of calling it ([None]: resolves, [Some e]: rejects with [e]) *)
  openSelectKey : option (option JsError);
  (* the second generateVideos call, if it is made *)
  secondRequest : JsError + nat
}.

Inductive Call := GenerateVideos | ConsoleLog | OpenSelectKey.

#[global] Instance Call_eq_dec : EqDecision Call.
Proof. solve_decision. Defined.

(** [err.message && (err.message.includes('Requested entity was not
    found') || err.message.includes('403'))] *)
Definition stale_key (err : JsError) : bool :=
  match message err with
  | Some msg =>
      negb (String.eqb msg "") &&
      (includes "Requested entity was not found" msg || includes "403" msg)
  | None => false
  end.

(** The calls made, oldest first, and what the section ends with: an
    operation, or the error it throws to the enclosing try. *)
Definition requestVideo (i : RequestInputs) : list Call * (JsError + nat) :=
  match firstRequest i with
  | inr operation => ([GenerateVideos], inr operation)
  | inl err =>
      if stale_key err then
        match openSelectKey i with
        | Some None =>
            ([GenerateVideos; ConsoleLog; OpenSelectKey; GenerateVideos],
             secondRequest i)
        | Some (Some cancelled) =>
            ([GenerateVideos; ConsoleLog; OpenSelectKey], inl cancelled)
        | None => ([GenerateVideos; ConsoleLog], inl err)
        end
      else ([GenerateVideos], inl err)
  end.

(** The enclosing [catch]: [setError(err.message || "An unexpected error
    occurred.")].  [None] when the section yields an operation and the
    flow goes on to polling. *)
Definition surfaced (r : JsError + nat) : option string :=
  match r with
  | inl err => Some (or_else (message err) "An unexpected error occurred.")
  | inr _ => None
  end.

(** Number of generateVideos calls beyond the first. *)
Definition retries (calls : list Call) : nat :=
  pred (length (filter (λ c, c = GenerateVideos) calls)).

Definition selections (calls : list Call) : nat :=
  length (filter (λ c, c = OpenSelectKey) calls).

End VeoStudio.

(** ** The VeoStudio component *)

Module Studio.

Import VeoStudio.

(** *** Data *)

(** The selected image file; [mimeType] is [selectedFile.type]. *)
Record File := { mimeType : string }.

(** ['16:9' | '9:16'] *)
Inductive AspectRatio := Landscape | Portrait.

(** The component's state hooks. *)
Record State := {
  prompt : string;
  aspectRatio : AspectRatio;
  selectedFile : option File;
  previewUrl : option string;
  isGenerating : bool;
  generatedVideoUrl : option string;
  statusMessage : string;
  error : option string
}.

(** The component as mounted. *)
Definition initial : State :=
  {| prompt := "Cinematic motion, high quality"; aspectRatio := Landscape;
     selectedFile := None; previewUrl := None; isGenerating := false;
     generatedVideoUrl := None; statusMessage := ""; error := None |}.

Definition set_prompt (v : string) (s : State) : State :=
  {| prompt := v; aspectRatio := aspectRatio s;
     selectedFile := selectedFile s; previewUrl := previewUrl s;
     isGenerating := isGenerating s;
     generatedVideoUrl := generatedVideoUrl s;
     statusMessage := statusMessage s; error := error s |}.

Definition set_aspectRatio (v : AspectRatio) (s : State) : State :=
  {| prompt := prompt s; aspectRatio := v; selectedFile := selectedFile s;
     previewUrl := previewUrl s; isGenerating := isGenerating s;
     generatedVideoUrl := generatedVideoUrl s;
     statusMessage := statusMessage s; error := error s |}.

Definition set_selectedFile (v : option File) (s : State) : State :=
  {| prompt := prompt s; aspectRatio := aspectRatio s; selectedFile := v;
     previewUrl := previewUrl s; isGenerating := isGenerating s;
     generatedVideoUrl := generatedVideoUrl s;
     statusMessage := statusMessage s; error := error s |}.

Definition set_previewUrl (v : option string) (s : State) : State :=
  {| prompt := prompt s; aspectRatio := aspectRatio s;
     selectedFile := selectedFile s; previewUrl := v;
     isGenerating := isGenerating s;
     generatedVideoUrl := generatedVideoUrl s;
     statusMessage := statusMessage s; error := error s |}.

Definition set_isGenerating (v : bool) (s : State) : State :=
  {| prompt := prompt s; aspectRatio := aspectRatio s;
     selectedFile := selectedFile s; previewUrl := previewUrl s;
     isGenerating := v; generatedVideoUrl := generatedVideoUrl s;
     statusMessage := statusMessage s; error := error s |}.

Definition set_generatedVideoUrl (v : option string) (s : State) : State :=
  {| prompt := prompt s; aspectRatio := aspectRatio s;
     selectedFile := selectedFile s; previewUrl := previewUrl s;
     isGenerating := isGenerating s; generatedVideoUrl := v;
     statusMessage := statusMessage s; error := error s |}.

Definition set_statusMessage (v : string) (s : State) : State :=
  {| prompt := prompt s; aspectRatio := aspectRatio s;
     selectedFile := selectedFile s; previewUrl := previewUrl s;
     isGenerating := isGenerating s;
     generatedVideoUrl := generatedVideoUrl s; statusMessage := v;
     error := error s |}.

Definition set_error (v : option string) (s : State) : State :=
  {| prompt := prompt s; aspectRatio := aspectRatio s;
     selectedFile := selectedFile s; previewUrl := previewUrl s;
     isGenerating := isGenerating s;
     generatedVideoUrl := generatedVideoUrl s;
     statusMessage := statusMessage s; error := v |}.

(** *** handleFileChange *)

(** [files] is [e.target.files] ([None] when it is null), [objectUrl]
    what [URL.createObjectURL(file)] returns. *)
Definition handleFileChange (files : option (list File)) (objectUrl : string)
    (s : State) : State :=
  match files with
  | Some (file :: _) =>
      let s := set_selectedFile (Some file) s in
      let s := set_previewUrl (Some objectUrl) s in
      let s := set_generatedVideoUrl None s in
      set_error None s
  | _ => s
  end.

(** *** checkApiKey *)

Record KeyInputs := {
  (* window.aistudio has both hasSelectedApiKey and openSelectKey *)
  aistudio : bool;
  (* hasSelectedApiKey(): rejects, or tells whether a key is selected *)
  hasSelectedApiKey : JsError + bool;
  (* openSelectKey() as called here: [None] resolves, [Some e] rejects *)
  selectKey : option JsError
}.

Inductive KeyCall := HasSelectedApiKey | SelectKey | KeyConsoleError.

(** The calls made and what the function settles to: a rejection of
    [hasSelectedApiKey] is not caught. *)
Definition checkApiKey (k : KeyInputs) : list KeyCall * (JsError + bool) :=
  if aistudio k then
    match hasSelectedApiKey k with
    | inl err => ([HasSelectedApiKey], inl err)
    | inr hasKey =>
        if negb hasKey then
          match selectKey k with
          | None => ([HasSelectedApiKey; SelectKey], inr true)
          | Some _ =>
              ([HasSelectedApiKey; SelectKey; KeyConsoleError], inr false)
          end
        else ([HasSelectedApiKey], inr hasKey)
    end
  else ([], inr true).

(** *** Pieces of generateVideo *)

(** [s.split(sep)] for a one-character separator. *)
Fixpoint split (sep : Ascii.ascii) (s : string) : list string :=
  match s with
  | EmptyString => [EmptyString]
  | String c rest =>
      if Ascii.eqb c sep then EmptyString :: split sep rest
      else match split sep rest with
           | head :: tail => String c head :: tail
           | [] => [String c EmptyString]
           end
  end.

(** The comma, character 44. *)
Definition comma : Ascii.ascii := Ascii.ascii_of_nat 44.

(** Line 385: [res.split(',')[1]], [None] for undefined. *)
Definition base64_of_data_url (res : string) : option string :=
  split comma res !! 1.

(** A long-running operation as the SDK reports it: [done], [error]
    (with its optional message) and
    [response?.generatedVideos?.[0]?.video?.uri]. *)
Record Operation := {
  done : bool;
  operationError : option (option string);
  videoUri : option string
}.

(** Lines 442-446, the polling loop.  [answers] are the results of the
    successive [getVideosOperation] calls, as far as they have come in.
    The result is the number of such calls made and how the loop ended:
    with a finished operation, with a thrown error, or not yet
    ([None]). *)
Fixpoint poll (operation : Operation) (answers : list (JsError + Operation))
    : nat * option (JsError + Operation) :=
  if done operation then (0, Some (inr operation))
  else
    match answers with
    | [] => (0, None)
    | inl err :: _ => (1, Some (inl err))
    | inr next :: rest =>
        let (n, r) := poll next rest in (S n, r)
    end.

(** An answer of [getVideosOperation] that keeps the loop going. *)
Definition still_rendering (answer : JsError + Operation) : Prop :=
  ∃ operation, answer = inr operation ∧ done operation = false.

(** Lines 461-464.  [apiKey] is [process.env.API_KEY]. *)
Definition videoUrlWithKey (videoUri : string) (apiKey : option string)
    : string :=
  let separator := if includes "?" videoUri then "&" else "?" in
  let apiKeyParam :=
    if truthy apiKey then "key=" +:+ default "" apiKey else "" in
  if negb (String.eqb apiKeyParam "")
  then videoUri +:+ separator +:+ apiKeyParam
  else videoUri.

(** [new Error(msg)] *)
Definition Error (msg : string) : JsError := {| message := Some msg |}.

(** *** generateVideo *)

(** What [generateVideo] obtains from outside. *)
Record Inputs := {
  keys : KeyInputs;
  (* FileReader: rejects, or [reader.result] as a data URL *)
  fileRead : JsError + string;
  request : RequestInputs;
  (* the operation a successful request returns, by its handle *)
  operationOf : nat → Operation;
  answers : list (JsError + Operation);
  apiKey : option string;
  (* fetch: rejects, or a response with [ok] and [status] *)
  download : JsError + (bool * nat);
  (* videoRes.blob() and URL.createObjectURL: rejects, or the local URL *)
  blob : JsError + string
}.

Inductive Step :=
  | KeyStep (c : KeyCall)
  | ReadFile
  | RequestStep (c : Call)
  | GetVideosOperation
  | Fetch (url : string)
  | ReadBlob
  | ConsoleError.

(** How far the try block has come. *)
Inductive Progress :=
  | Thrown (err : JsError)
  | Completed (localVideoUrl : string)
  | Pending.

(** Lines 448-475: what follows the polling loop.  The result lists
    the calls made, the status messages set, and how it ended. *)
Definition deliver (i : Inputs) (operation : Operation)
    : list Step * list string * Progress :=
  match operationError operation with
  | Some msg =>
      ([], [], Thrown (Error (or_else msg "Video generation failed.")))
  | None =>
      if truthy (videoUri operation) then
        let url := videoUrlWithKey (default "" (videoUri operation))
                     (apiKey i) in
        match download i with
        | inl err => ([Fetch url], ["Downloading video..."], Thrown err)
        | inr (ok, status) =>
            if ok then
              match blob i with
              | inl err =>
                  ([Fetch url; ReadBlob], ["Downloading video..."],
                   Thrown err)
              | inr localVideoUrl =>
                  ([Fetch url; ReadBlob],
                   ["Downloading video..."; "Complete!"],
                   Completed localVideoUrl)
              end
            else
              ([Fetch url], ["Downloading video..."],
               Thrown (Error ("Failed to download video file ("
                              +:+ pretty status +:+ ").")))
        end
      else ([], [], Thrown (Error "No video URI returned."))
  end.

(** Lines 373-475, the try block.  While the polling loop has not ended
    the block is [Pending], waiting in the loop's [setTimeout]. *)
Definition attempt (i : Inputs) : list Step * list string * Progress :=
  let (keyCalls, hasKey) := checkApiKey (keys i) in
  let steps := KeyStep <$> keyCalls in
  match hasKey with
  | inl err => (steps, [], Thrown err)
  | inr false =>
      (steps, [],
       Thrown (Error "API Key selection is required for Veo generation."))
  | inr true =>
      let statuses := ["Initializing Veo session..."] in
      let steps := steps ++ [ReadFile] in
      match fileRead i with
      | inl err => (steps, statuses, Thrown err)
      | inr res =>
          let statuses := statuses ++ ["Sending request to Gemini..."] in
          let (calls, requested) := requestVideo (request i) in
          let steps := steps ++ (RequestStep <$> calls) in
          match requested with
          | inl err => (steps, statuses, Thrown err)
          | inr handle =>
              let statuses :=
                statuses ++ ["Dreaming... This may take a moment."] in
              let (polls, polled) :=
                poll (operationOf i handle) (answers i) in
              let steps := steps ++ replicate polls GetVideosOperation in
              let statuses :=
                statuses
                ++ replicate polls "Still dreaming... generating pixels..." in
              match polled with
              | None => (steps, statuses, Pending)
              | Some (inl err) => (steps, statuses, Thrown err)
              | Some (inr operation) =>
                  let '(fetched, shown, progress) := deliver i operation in
                  (steps ++ fetched, statuses ++ shown, progress)
              end
          end
      end
  end.

(** [generateVideo].  The result lists the calls made, tells whether
    the function has returned ([false] while it is still polling), and
    gives the state. *)
Definition generateVideo (i : Inputs) (s : State)
    : list Step * bool * State :=
  match selectedFile s with
  | None => ([], true, set_error (Some "Please select an image first.") s)
  | Some _ =>
      let s := set_isGenerating true s in
      let s := set_statusMessage "Checking API Key..." s in
      let s := set_error None s in
      let s := set_generatedVideoUrl None s in
      let '(steps, statuses, progress) := attempt i in
      let s := set_statusMessage (default (statusMessage s) (last statuses))
                 s in
      match progress with
      | Pending => (steps, false, s)
      | Completed localVideoUrl =>
          (steps, true,
           set_isGenerating false
             (set_generatedVideoUrl (Some localVideoUrl) s))
      | Thrown err =>
          (steps ++ [ConsoleError], true,
           set_isGenerating false
             (set_error
                (Some (or_else (message err) "An unexpected error occurred."))
                s))
      end
  end.

(** *** A concrete run: an image is selected, the key is in place, the
    second poll finds the video ready *)

Definition photo : File := {| mimeType := "image/png" |}.

Definition ready : State := handleFileChange (Some [photo]) "blob:preview" initial.

Definition rendering : Operation :=
  {| done := false; operationError := None; videoUri := None |}.

Definition rendered : Operation :=
  {| done := true; operationError := None;
     videoUri := Some "https://host/video.mp4" |}.

Definition smooth : Inputs :=
  {| keys := {| aistudio := true; hasSelectedApiKey := inr true;
                selectKey := None |};
     fileRead := inr "data:image/png;base64,AAAA";
     request := {| firstRequest := inr 1; openSelectKey := Some None;
                   secondRequest := inr 2 |};
     operationOf := λ _, rendering;
     answers := [inr rendering; inr rendered];
     apiKey := Some "K";
     download := inr (true, 200);
     blob := inr "blob:video" |}.

(** The user has no key selected and closes the key dialog. *)
Definition keyless : Inputs :=
  {| keys := {| aistudio := true; hasSelectedApiKey := inr false;
                selectKey := Some {| message := Some "cancelled" |} |};
     fileRead := fileRead smooth; request := request smooth;
     operationOf := operationOf smooth; answers := answers smooth;
     apiKey := apiKey smooth; download := download smooth;
     blob := blob smooth |}.

End Studio.

Import LiveConversation.

(** ** Views of a state used by the statements *)

(** The start times passed to [sourceNode.start], oldest first. *)
Definition starts (s : State) : list Q :=
  omap (λ e, match e with StartSource t => Some t | _ => None end) (trace s).

(** ** A concrete session: three chunks of 1.0 s, 0.5 s and 2.0 s *)

Definition demo_decode (data : string) : option AudioBuffer :=
  if String.eqb data "1.0s" then Some {| frames := 24000; sampleRate := 24000 |}
  else if String.eqb data "0.5s" then Some {| frames := 12000; sampleRate := 24000 |}
  else if String.eqb data "2.0s" then Some {| frames := 48000; sampleRate := 24000 |}
  else None.

Definition granted : StartInputs :=
  {| userMedia := inr (); ctxTime := 0%Q; canvasReady := true;
     sdkThrows := None; stopTime := 0%Q |}.

Definition chunk (data : string) : LiveServerMessage :=
  {| inlineData := Some data; interrupted := false |}.

Definition three_chunks : list Event :=
  [ EvStart granted; EvOpen 4;
    EvMessage (chunk "1.0s") (1 # 10) (1 # 10);
    EvMessage (chunk "0.5s") (2 # 10) (2 # 10);
    EvMessage (chunk "2.0s") 5%Q 5%Q ].

(** Number of chunks handed to [sourceNode.start]. *)
Definition scheduled (s : State) : nat := length (starts s).

Section Payloads.

Variable decode : string → option AudioBuffer.

(** A message with an audio payload. *)
Definition has_payload (e : Event) : Prop :=
  match e with
  | EvMessage m _ _ => truthy (inlineData m) = true
  | _ => False
  end.

(** A message whose audio payload the decoder rejects. *)
Definition corrupted (e : Event) : bool :=
  match e with
  | EvMessage m _ _ =>
      truthy (inlineData m) &&
      bool_decide (decode (default "" (inlineData m)) = None)
  | _ => false
  end.

(** The audio part of the message, if any, goes through. *)
Definition decodes (m : LiveServerMessage) : Prop :=
  truthy (inlineData m) = true →
  is_Some (decode (default "" (inlineData m))).

Definition no_decode_failure (e : Event) : Prop :=
  match e with
  | EvMessage m _ _ => decodes m
  | _ => True
  end.

(** The audio part of the message is there and the decoder rejects it. *)
Definition undecodable (m : LiveServerMessage) : Prop :=
  truthy (inlineData m) = true ∧ decode (default "" (inlineData m)) = None.


(** An event that neither sets up a new output context nor gets to the
    interruption branch: anything but a start that goes on after
    [getUserMedia], and but a message piece with the interruption flag
    that gets past the decode. *)
Definition keeps_cursor (e : Event) : Prop :=
  match e with
  | EvStart _ | EvResume _ => False
  | EvMessage m _ _ => interrupted m = true → undecodable m
  | EvArrive m _ => interrupted m = true → truthy (inlineData m) = true
  | EvDecoded m _ =>
      interrupted m = true → truthy (inlineData m) = true → undecodable m
  | _ => True
  end.

(** An event that is neither a start nor a piece of a message handler. *)
Definition leaves_cursor (e : Event) : Prop :=
  match e with
  | EvStart _ | EvResume _ | EvMessage _ _ _ | EvArrive _ _
  | EvDecoded _ _ => False
  | _ => True
  end.

(** The chunk that [e] schedules, if it schedules one, is handed to
    [start] no later than the start time it is given. *)
Definition on_time (s : State) (e : Event) : Prop :=
  match e with
  | EvMessage m arrival resumed =>
      truthy (inlineData m) = true →
      (resumed <= Qmax (nextStartTimeRef s) arrival)%Q
  | EvDecoded m resumed =>
      truthy (inlineData m) = true → (resumed <= nextStartTimeRef s)%Q
  | _ => True
  end.

Fixpoint punctual (s : State) (es : list Event) : Prop :=
  match es with
  | [] => True
  | e :: rest => on_time s e ∧ punctual (step decode s e) rest
  end.

(** The handler left something in the on-screen log or made one of the
    recorded calls (console.error among them). *)
Definition wrote_log (before after : State) : Prop :=
  logs after ≠ logs before ∨ trace after ≠ trace before.

(** *** Events of one connected session, with the clock

    [(e, t')] is the event [e] whose handler, or piece of a handler,
    finishes at output clock time [t']; [t] is the time the previous one
    finished.  The clock does not run backwards, and the browser fires
    ['ended'] only for a node that has finished playing.  A session has
    no start and no teardown in it; the pieces of message handlers may
    come in any order, and the second half of an earlier teardown may
    still arrive. *)
Definition in_session (s : State) (t : Q) (e : Event) (t' : Q) : Prop :=
  (t <= t')%Q ∧
  match e with
  | EvMessage m arrival resumed =>
      (t <= arrival)%Q ∧ (arrival <= resumed)%Q ∧ (resumed <= t')%Q
  | EvArrive m arrival => (t <= arrival)%Q ∧ (arrival <= t')%Q
  | EvDecoded m resumed => (t <= resumed)%Q ∧ (resumed <= t')%Q
  | EvEnded n => ∃ node, nodes s !! n = Some node ∧ finished node t'
  | EvOpen _ | EvAudioProcess _ _ | EvFrame _ | EvStopped _ => True
  | EvStart _ | EvRequest | EvResume _ | EvClose _ _ | EvError _
  | EvStop _ | EvClosing _ _ | EvFailing _ | EvStopping _ => False
  end.

Fixpoint session (s : State) (t : Q) (es : list (Event * Q)) : Prop :=
  match es with
  | [] => True
  | (e, t') :: rest => in_session s t e t' ∧ session (step decode s e) t' rest
  end.

(** The clock at the end of a session trace that began at [t]. *)
Definition end_time (t : Q) (es : list (Event * Q)) : Q :=
  default t (last (es.*2)).

End Payloads.

(** Of the nodes with a handle from [h] on (those created since the
    allocation counter stood at [h]): every one that is not outstanding
    has finished by [t], and no stop lies in the future. *)
Definition settled (h : nat) (s : State) (t : Q) : Prop :=
  ∀ n node, h ≤ n → nodes s !! n = Some node →
    (n ∉ sourcesRef s → finished node t) ∧
    (∀ st, stoppedAt node = Some st → (st <= t)%Q).

(** An event that runs a handler as a whole. *)
Definition whole (e : Event) : Prop :=
  match e with
  | EvRequest | EvResume _ | EvArrive _ _ | EvDecoded _ _
  | EvClosing _ _ | EvFailing _ | EvStopping _ | EvStopped _ => False
  | _ => True
  end.

(** *** A concrete interruption: the first two chunks are scheduled, the
    interruption arrives at 0.5 while the first one is playing. *)


Definition connected : State := run demo_decode initial (take 2 three_chunks).

Definition two_chunks : list (Event * Q) :=
  [ (EvMessage (chunk "1.0s") (1 # 10) (1 # 10), (1 # 10)%Q);
    (EvMessage (chunk "0.5s") (2 # 10) (2 # 10), (2 # 10)%Q) ].

(** What tells that the session is up: the connected flag and the
    handles held in refs. *)
Definition session_handles (s : State)
    : bool * option nat * option nat * option nat * option nat :=
  (isConnected s, audioContextRef s, mediaStreamRef s,
   scriptProcessorRef s, sessionRef s).

(** The speaking flag against the set of outstanding nodes. *)
Definition flag_sound (s : State) : Prop :=
  isSpeaking s = false → sourcesRef s = ∅.

Definition flag_exact (s : State) : Prop :=
  isSpeaking s = false ↔ sourcesRef s = ∅.

Definition garbage : Event := EvMessage (chunk "garbage") (3 # 10) (3 # 10).

(** *** Teardown *)

(** [after] holds no handle, and what [before] held through its refs is
    released: the frame request cancelled, the microphone tracks
    stopped, the capture processor disconnected, every outstanding node
    stopped, the output context closed. *)
Definition released (before after : State) : Prop :=
  animationFrameRef after = 0 ∧ analyserRef after = None ∧
  (animationFrameRef before ≠ 0 →
   animationFrameRef before ∉ pendingFrames after) ∧
  sessionRef after = None ∧
  mediaStreamRef after = None ∧
  (∀ stream, mediaStreamRef before = Some stream →
             stream ∉ liveStreams after) ∧
  scriptProcessorRef after = None ∧
  (∀ proc, scriptProcessorRef before = Some proc →
           proc ∉ connectedProcessors after) ∧
  sourcesRef after = ∅ ∧
  (∀ n node, n ∈ sourcesRef before → nodes after !! n = Some node →
             is_Some (stoppedAt node)) ∧
  audioContextRef after = None ∧
  (∀ ctx, audioContextRef before = Some ctx → ctx ∉ runningContexts after) ∧
  isConnected after = false ∧ isSpeaking after = false.

(** The messages shown to the user through [setError], oldest first. *)
Definition surfaced_errors (s : State) : list string :=
  omap (λ e, match e with SetError (Some msg) => Some msg | _ => None end)
       (trace s).

(** Number of [ai.live.connect] calls. *)
Definition connects (s : State) : nat :=
  length (filter (λ e, e = LiveConnect) (trace s)).

(** The user refuses the microphone. *)
Definition denied : StartInputs :=
  {| userMedia := inl {| message := Some "Permission denied" |};
     ctxTime := 0%Q; canvasReady := true; sdkThrows := None;
     stopTime := 0%Q |}.

(** A state without its log, and without what an error report leaves
    behind (the error shown and the recorded calls). *)
Definition without_logs (s : State) : State := set_logs [] s.

Definition without_report (s : State) : State :=
  set_trace [] (set_error None s).

(** The calls recorded after those of [before]. *)
Definition new_calls (before after : State) : list Effect :=
  drop (length (trace before)) (trace after).

(** *** Video requests *)

Import VeoStudio.

Definition forbidden : JsError := {| message := Some "403 Forbidden" |}.

(** The first request is refused, the key can be re-selected and the
    second request yields operation 7. *)
Definition key_reselected : RequestInputs :=
  {| firstRequest := inl forbidden; openSelectKey := Some None;
     secondRequest := inr 7 |}.

(** The first request is refused and the user cancels the key dialog. *)
Definition key_cancelled : RequestInputs :=
  {| firstRequest := inl forbidden;
     openSelectKey := Some (Some {| message := Some "cancelled" |});
     secondRequest := inr 7 |}.

(** A session that is up: microphone granted, channel 7 open, one
    capture frame sent through it. *)
Definition talking : State :=
  run demo_decode initial
    [EvStart granted; EvOpen 4; EvAudioProcess (Some 7) false].

(** An event other than the channel's [onopen]. *)
Definition not_open (e : Event) : Prop :=
  match e with EvOpen _ => False | _ => True end.

(** The state [start_resume] has built when it reaches line 139
    ([new GoogleGenAI]), from the state [s] in which [getUserMedia]
    resolved: microphone taken, both audio contexts, the processor and the
    analyser created, the visualizer started. *)
Definition armed (i : StartInputs) (s : State) : State :=
  let h := nextHandle s in
  {| isConnected := isConnected s; isSpeaking := isSpeaking s;
     error := error s;
     logs := logs (addLog "Connecting to Gemini Live..."
                     (addLog "Initializing AudioContext..." s));
     audioContextRef := Some (S h); mediaStreamRef := Some h;
     scriptProcessorRef := Some (S (S (S h))); sessionRef := sessionRef s;
     nextStartTimeRef := ctxTime i; sourcesRef := sourcesRef s;
     analyserRef := Some (S (S (S (S h))));
     animationFrameRef :=
       if canvasReady i then S (S (S (S (S h)))) else animationFrameRef s;
     liveStreams := {[h]} ∪ liveStreams s;
     runningContexts := {[S (S h)]} ∪ ({[S h]} ∪ runningContexts s);
     connectedProcessors := connectedProcessors s;
     pendingFrames :=
       if canvasReady i then {[S (S (S (S (S h))))]} ∪ pendingFrames s
       else pendingFrames s;
     openChannels := openChannels s;
     nodes := nodes s;
     nextHandle :=
       if canvasReady i then S (S (S (S (S (S h))))) else S (S (S (S (S h))));
     trace := trace s |}.

(** [s'] comes from [s] by a handler that starts no node: no node is
    added or lost, no start is recorded, nothing joins the outstanding
    set, and handles are only ever handed out upwards. *)
Definition starts_nothing (s s' : State) : Prop :=
  nextHandle s ≤ nextHandle s' ∧ dom (nodes s') = dom (nodes s) ∧
  starts s' = starts s ∧ sourcesRef s' ⊆ sourcesRef s.

(** Every node carries a handle already handed out, there is one node per
    recorded start, and the outstanding handles are handles of nodes. *)
Definition tallied (s : State) : Prop :=
  (∀ n, n ∈ dom (nodes s) → n < nextHandle s) ∧
  size (nodes s) = scheduled s ∧
  sourcesRef s ⊆ dom (nodes s).

(** Everything a node with a handle from [h] on will ever sound lies
    before the cursor or before the clock reading [t]. *)
Definition hushed (h : nat) (s : State) (t : Q) : Prop :=
  ∀ n node u, h ≤ n → nodes s !! n = Some node → audible node u →
              (u < Qmax (nextStartTimeRef s) t)%Q.

(** No two nodes with handles from [h] on sound at the same time. *)
Definition solo (h : nat) (s : State) : Prop :=
  ∀ n1 n2 node1 node2 u,
    h ≤ n1 → h ≤ n2 → n1 ≠ n2 →
    nodes s !! n1 = Some node1 → nodes s !! n2 = Some node2 →
    ¬ (audible node1 u ∧ audible node2 u).

(** The audio context [c] is running and no ref leads to it any more. *)
Definition stranded (c : nat) (s : State) : Prop :=
  c ∈ runningContexts s ∧ c < nextHandle s ∧ audioContextRef s ≠ Some c.

(** A frame callback. *)
Definition is_frame (e : Event) : Prop :=
  match e with EvFrame _ => True | _ => False end.

(** The SDK constructor throws once the audio graph is set up. *)
Definition sdk_broken : StartInputs :=
  {| userMedia := inr (); ctxTime := 0%Q; canvasReady := true;
     sdkThrows := Some {| message := Some "An API Key must be set" |};
     stopTime := 0%Q |}.

(** The microphone stream [c] is live and [mediaStreamRef] does not lead
    to it. *)
Definition stranded_stream (c : nat) (s : State) : Prop :=
  c ∈ liveStreams s ∧ c < nextHandle s ∧ mediaStreamRef s ≠ Some c.

(** An event that is neither a start nor a teardown, nor a piece of
    one. *)
Definition no_teardown (e : Event) : Prop :=
  match e with
  | EvStart _ | EvClose _ _ | EvError _ | EvStop _
  | EvRequest | EvResume _ | EvClosing _ _ | EvFailing _ | EvStopping _
  | EvStopped _ => False
  | _ => True
  end.

(** The event runs a teardown, or a teardown up to its await, at clock
    time [now]. *)
Definition tears_down (e : Event) (now : Q) : Prop :=
  match e with
  | EvStop t | EvError t | EvClose _ t
  | EvStopping t | EvFailing t | EvClosing _ t => t = now
  | _ => False
  end.

(** The output context of the session is there and running. *)
Definition playing_out (s : State) : Prop :=
  ∃ ctx, audioContextRef s = Some ctx ∧ ctx ∈ runningContexts s.

(** *** Handlers that run into each other *)

(** The second piece of a teardown called in [s], if it has one. *)
Definition stopped (s : State) : list Event :=
  match close_outcome s with
  | Some rejected => [EvStopped rejected]
  | None => []
  end.

(** The pieces the handler of a whole event falls into when it is run in
    [s]; an event that is a piece already is its own one piece. *)
Definition pieces (s : State) (e : Event) : list Event :=
  match e with
  | EvStart i =>
      [EvRequest; EvResume i] ++
      match userMedia i, sdkThrows i with
      | inl _, _ => stopped s
      | inr _, Some _ => [EvStopped false]
      | inr _, None => []
      end
  | EvMessage m arrival resumed =>
      if truthy (inlineData m) then [EvArrive m arrival; EvDecoded m resumed]
      else [EvArrive m resumed]
  | EvClose session now => EvClosing session now :: stopped s
  | EvError now => EvFailing now :: stopped s
  | EvStop now => EvStopping now :: stopped s
  | _ => [e]
  end.

(** The teardown is called at 0.5 and waits for [close()]; a chunk
    arrives and is scheduled at 0.6; then the teardown goes on. *)
Definition message_during_teardown : list Event :=
  [ EvStopping (1 # 2); EvMessage (chunk "1.0s") (6 # 10) (6 # 10);
    EvStopped false ].

(** Two chunks arrive at 0.1 and 0.2, and only then the two decodes
    settle, at 0.3. *)
Definition overlapping_decodes : list Event :=
  [ EvArrive (chunk "1.0s") (1 # 10); EvArrive (chunk "0.5s") (2 # 10);
    EvDecoded (chunk "1.0s") (3 # 10); EvDecoded (chunk "0.5s") (3 # 10) ].


(** The first chunk plays from 0.1 to 1.1.  The second arrives at 1.0;
    while it is being decoded the first one ends and its ['ended'] event
    is handled; the decode settles at 1.2. *)
Definition ended_during_decode : list (Event * Q) :=
  [ (EvMessage (chunk "1.0s") (1 # 10) (1 # 10), (1 # 10)%Q);
    (EvArrive (chunk "0.5s") 1%Q, 1%Q);
    (EvEnded 8, (11 # 10)%Q);
    (EvDecoded (chunk "0.5s") (12 # 10), (12 # 10)%Q) ].

(** * Properties *)

(** ** The log window *)

Lemma slice_from_last4 {A} (l : list A) :
  slice_from (-4) l = drop (length l - 4) l.
Proof.
  unfold slice_from. replace (-4 <? 0)%Z with true by reflexivity.
  f_equal. lia.
Qed.

(** C10. Whatever the log list was, after [addLog msg] it is the last four
    entries of the old list (all of them when there were fewer), in their
    old order, followed by [msg]; so it has at most five entries and [msg]
    is the last one. *)
Theorem addLog_window (msg : string) (s : State) :
  logs (addLog msg s) = drop (length (logs s) - 4) (logs s) ++ [msg] ∧
  drop (length (logs s) - 4) (logs s) `suffix_of` logs s ∧
  length (drop (length (logs s) - 4) (logs s)) = min 4 (length (logs s)) ∧
  length (logs (addLog msg s)) ≤ 5 ∧
  last (logs (addLog msg s)) = Some msg.
Proof.
  assert (E : logs (addLog msg s)
              = drop (length (logs s) - 4) (logs s) ++ [msg]).
  { unfold addLog. simpl. by rewrite slice_from_last4. }
  rewrite E. split; [done|]. split; [apply suffix_drop|].
  split; [rewrite length_drop; lia|].
  split; [rewrite length_app, length_drop; simpl; lia|].
  apply last_snoc.
Qed.

(** ** Scheduling of inbound chunks *)

Lemma truthy_Some (data : string) : data ≠ "" → truthy (Some data) = true.
Proof.
  intros Hne. unfold truthy. destruct (String.eqb_spec data ""); [done|].
  reflexivity.
Qed.

Lemma truthy_inv (o : option string) :
  truthy o = true → ∃ data, o = Some data ∧ data ≠ "".
Proof.
  destruct o as [data|]; [|done]. simpl.
  destruct (String.eqb_spec data ""); [done|]. eauto.
Qed.

Lemma onmessage_decoded decode m arrival resumed s data buf :
  inlineData m = Some data → data ≠ "" → decode data = Some buf →
  onmessage decode m arrival resumed s
  = (Returned,
     let scheduled :=
       schedule buf resumed (receive_audio decode data arrival s).2 in
     if interrupted m then interrupt resumed scheduled else scheduled).
Proof.
  intros Hm Hne Hd. unfold onmessage, receive_audio.
  rewrite Hm, (truthy_Some _ Hne). simpl. by rewrite Hd.
Qed.

Lemma onmessage_end_decoded decode m resumed s data buf :
  inlineData m = Some data → data ≠ "" → decode data = Some buf →
  onmessage_end decode m resumed s
  = (Returned,
     let scheduled := schedule buf resumed s in
     if interrupted m then interrupt resumed scheduled else scheduled).
Proof.
  intros Hm Hne Hd. unfold onmessage_end.
  rewrite Hm, (truthy_Some _ Hne). simpl. by rewrite Hd.
Qed.

Lemma onmessage_corrupted decode m arrival resumed s data :
  inlineData m = Some data → data ≠ "" → decode data = None →
  onmessage decode m arrival resumed s
  = (Threw, set_nextStartTimeRef (Qmax (nextStartTimeRef s) arrival)
              (set_isSpeaking true s)).
Proof.
  intros Hm Hne Hd. unfold onmessage, receive_audio.
  rewrite Hm, (truthy_Some _ Hne). simpl. by rewrite Hd.
Qed.

(** The whole call of [onmessage] is its two pieces with nothing in
    between. *)
Lemma onmessage_split decode m arrival resumed s :
  truthy (inlineData m) = true →
  onmessage decode m arrival resumed s
  = onmessage_end decode m resumed (onmessage_begin decode m arrival s).
Proof.
  intros Ht. unfold onmessage, onmessage_end, onmessage_begin, receive_audio.
  rewrite Ht. cbn [fst snd]. by destruct (decode _).
Qed.

(** Unfold the field updates and read the fields back. *)
Ltac fields :=
  cbv [set_isConnected set_isSpeaking set_error set_logs set_audioContextRef
       set_mediaStreamRef set_scriptProcessorRef set_sessionRef
       set_nextStartTimeRef set_sourcesRef set_analyserRef
       set_animationFrameRef set_liveStreams set_runningContexts
       set_connectedProcessors set_pendingFrames set_openChannels set_nodes
       set_nextHandle set_trace isConnected isSpeaking error logs
       audioContextRef mediaStreamRef scriptProcessorRef sessionRef
       nextStartTimeRef sourcesRef analyserRef animationFrameRef liveStreams
       runningContexts connectedProcessors pendingFrames openChannels nodes
       nextHandle trace emit console_error setError alloc] in *.

(** ** What stopConversation computes *)

(** The result of the teardown, field by field. *)
Lemma cancel_frame_fields (s : State) :
  cancel_frame s =
  set_animationFrameRef 0
    (set_pendingFrames
       (if animationFrameRef s =? 0 then pendingFrames s
        else pendingFrames s ∖ {[animationFrameRef s]}) s).
Proof.
  destruct s as [co sp er lg ac ms pr se cu so an fr ls rc cp pf oc nd nh tr].
  unfold cancel_frame. simpl.
  by destruct (Nat.eqb_spec fr 0) as [->|_].
Qed.

Lemma drop_session_fields (s : State) : drop_session s = set_sessionRef None s.
Proof. destruct s. unfold drop_session. simpl. by case_match. Qed.

Lemma stop_microphone_fields (s : State) :
  stop_microphone s =
  set_mediaStreamRef None
    (set_liveStreams
       (match mediaStreamRef s with
        | Some stream => liveStreams s ∖ {[stream]}
        | None => liveStreams s
        end) s).
Proof. destruct s. unfold stop_microphone. simpl. by case_match. Qed.

Lemma disconnect_processor_fields (s : State) :
  disconnect_processor s =
  set_scriptProcessorRef None
    (set_connectedProcessors
       (match scriptProcessorRef s with
        | Some proc => connectedProcessors s ∖ {[proc]}
        | None => connectedProcessors s
        end) s).
Proof. destruct s. unfold disconnect_processor. simpl. by case_match. Qed.

Lemma close_output_fields (s : State) :
  close_output s =
  set_audioContextRef None
    (set_runningContexts
       (match audioContextRef s with
        | Some ctx => runningContexts s ∖ {[ctx]}
        | None => runningContexts s
        end)
       (set_trace
          (match audioContextRef s with
           | Some ctx =>
               if bool_decide (ctx ∈ runningContexts s) then trace s
               else trace s ++ [ConsoleError]
           | None => trace s
           end) s)).
Proof.
  destruct s as [co sp er lg ac ms pr se cu so an fr ls rc cp pf oc nd nh tr].
  unfold close_output, close_context, console_error, emit. simpl.
  destruct ac as [ctx|]; [|done]. case_bool_decide; [done|].
  fields. by rewrite (difference_disjoint_L rc)
    by (by apply disjoint_singleton_r).
Qed.

Lemma stopConversation_fields (now : Q) (s : State) :
  stopConversation now s =
  {| isConnected := false; isSpeaking := false; error := error s;
     logs := slice_from (-4) (logs s) ++ ["Conversation ended"];
     audioContextRef := None; mediaStreamRef := None;
     scriptProcessorRef := None; sessionRef := None;
     nextStartTimeRef := nextStartTimeRef s; sourcesRef := ∅;
     analyserRef := None; animationFrameRef := 0;
     liveStreams :=
       match mediaStreamRef s with
       | Some stream => liveStreams s ∖ {[stream]}
       | None => liveStreams s
       end;
     runningContexts :=
       match audioContextRef s with
       | Some ctx => runningContexts s ∖ {[ctx]}
       | None => runningContexts s
       end;
     connectedProcessors :=
       match scriptProcessorRef s with
       | Some proc => connectedProcessors s ∖ {[proc]}
       | None => connectedProcessors s
       end;
     pendingFrames :=
       if animationFrameRef s =? 0 then pendingFrames s
       else pendingFrames s ∖ {[animationFrameRef s]};
     openChannels := openChannels s;
     nodes := stop_sources now (elements (sourcesRef s)) (nodes s);
     nextHandle := nextHandle s;
     trace :=
       match audioContextRef s with
       | Some ctx =>
           if bool_decide (ctx ∈ runningContexts s) then trace s
           else trace s ++ [ConsoleError]
       | None => trace s
       end |}.
Proof.
  unfold stopConversation.
  rewrite cancel_frame_fields, drop_session_fields, stop_microphone_fields,
    disconnect_processor_fields, close_output_fields.
  by destruct s.
Qed.

Lemma stop_begin_fields (now : Q) (s : State) :
  stop_begin now s =
  {| isConnected :=
       match audioContextRef s with Some _ => isConnected s | None => false end;
     isSpeaking :=
       match audioContextRef s with Some _ => isSpeaking s | None => false end;
     error := error s;
     logs :=
       match audioContextRef s with
       | Some _ => logs s
       | None => slice_from (-4) (logs s) ++ ["Conversation ended"]
       end;
     audioContextRef := audioContextRef s; mediaStreamRef := None;
     scriptProcessorRef := None; sessionRef := None;
     nextStartTimeRef := nextStartTimeRef s; sourcesRef := ∅;
     analyserRef := None; animationFrameRef := 0;
     liveStreams :=
       match mediaStreamRef s with
       | Some stream => liveStreams s ∖ {[stream]}
       | None => liveStreams s
       end;
     runningContexts :=
       match audioContextRef s with
       | Some ctx => runningContexts s ∖ {[ctx]}
       | None => runningContexts s
       end;
     connectedProcessors :=
       match scriptProcessorRef s with
       | Some proc => connectedProcessors s ∖ {[proc]}
       | None => connectedProcessors s
       end;
     pendingFrames :=
       if animationFrameRef s =? 0 then pendingFrames s
       else pendingFrames s ∖ {[animationFrameRef s]};
     openChannels := openChannels s;
     nodes := stop_sources now (elements (sourcesRef s)) (nodes s);
     nextHandle := nextHandle s;
     trace := trace s |}.
Proof.
  unfold stop_begin.
  rewrite cancel_frame_fields, drop_session_fields, stop_microphone_fields,
    disconnect_processor_fields.
  destruct s as [co sp er lg ac ms pr se cu so an fr ls rc cp pf oc nd nh tr].
  by destruct ac.
Qed.

Lemma stop_end_fields (rejected : bool) (s : State) :
  stop_end rejected s =
  {| isConnected := false; isSpeaking := false; error := error s;
     logs := slice_from (-4) (logs s) ++ ["Conversation ended"];
     audioContextRef := None; mediaStreamRef := mediaStreamRef s;
     scriptProcessorRef := scriptProcessorRef s; sessionRef := sessionRef s;
     nextStartTimeRef := nextStartTimeRef s; sourcesRef := sourcesRef s;
     analyserRef := analyserRef s; animationFrameRef := animationFrameRef s;
     liveStreams := liveStreams s; runningContexts := runningContexts s;
     connectedProcessors := connectedProcessors s;
     pendingFrames := pendingFrames s; openChannels := openChannels s;
     nodes := nodes s; nextHandle := nextHandle s;
     trace := if rejected then trace s ++ [ConsoleError] else trace s |}.
Proof. destruct s. by destruct rejected. Qed.

(** The whole call of [stopConversation] is its two pieces with nothing
    in between, or the first piece alone when it does not await. *)
Lemma stopConversation_split (now : Q) (s : State) :
  stopConversation now s =
  match close_outcome s with
  | Some rejected => stop_end rejected (stop_begin now s)
  | None => stop_begin now s
  end.
Proof.
  unfold close_outcome.
  rewrite stopConversation_fields.
  destruct (audioContextRef s) as [ctx|] eqn:Hctx.
  - rewrite stop_end_fields, stop_begin_fields, Hctx. simpl.
    by case_bool_decide.
  - by rewrite stop_begin_fields, Hctx.
Qed.

(** ** What startConversation computes *)

Lemma start_resume_with_denied teardown i err s :
  userMedia i = inl err →
  start_resume_with teardown i s
  = start_catch_with teardown err (stopTime i) s.
Proof. intros Hgum. unfold start_resume_with. by rewrite Hgum. Qed.

Lemma start_resume_with_armed teardown i u s :
  userMedia i = inr u →
  start_resume_with teardown i s =
  match sdkThrows i with
  | Some err => start_catch_with teardown err (stopTime i) (armed i s)
  | None =>
      emit LiveConnect
        (set_openChannels ({[nextHandle (armed i s)]} ∪ openChannels s)
           (set_nextHandle (S (nextHandle (armed i s))) (armed i s)))
  end.
Proof.
  intros Hgum. unfold start_resume_with. rewrite Hgum.
  destruct s as [co sp er lg ac ms pr se cu so an fr ls rc cp pf oc nd nh tr].
  unfold armed, drawVisualizer, draw.
  destruct (canvasReady i), (sdkThrows i); reflexivity.
Qed.

Lemma start_resume_denied i err s :
  userMedia i = inl err → start_resume i s = start_catch err (stopTime i) s.
Proof. apply start_resume_with_denied. Qed.

Lemma start_resume_armed i u s :
  userMedia i = inr u →
  start_resume i s =
  match sdkThrows i with
  | Some err => start_catch err (stopTime i) (armed i s)
  | None =>
      emit LiveConnect
        (set_openChannels ({[nextHandle (armed i s)]} ∪ openChannels s)
           (set_nextHandle (S (nextHandle (armed i s))) (armed i s)))
  end.
Proof. apply start_resume_with_armed. Qed.

(** ** Whole handlers and their pieces *)

Lemma run_stopped decode now s x :
  close_outcome x = close_outcome s →
  run decode (stop_begin now x) (stopped s) = stopConversation now x.
Proof.
  intros Hc. unfold stopped. rewrite (stopConversation_split now x), Hc.
  by destruct (close_outcome s).
Qed.

(** A handler run as a whole is its pieces run one after the other with
    nothing in between. *)
Lemma whole_is_its_pieces decode s e :
  run decode s (pieces s e) = step decode s e.
Proof.
  destruct e as [i|proc|session sendFails|m a r|n|f|session now|now|now
                | |i|m a|m r|session now|now|now|rejected];
    try reflexivity.
  - cbn [pieces step]. unfold startConversation, start_resume.
    set (x := start_request s).
    change (run decode s ([EvRequest; EvResume i] ++ ?l))
      with (run decode (start_resume_with stop_begin i x) l).
    destruct (userMedia i) as [err|u] eqn:Hgum.
    + rewrite !(start_resume_with_denied _ i err) by done.
      unfold start_catch_with. by apply run_stopped.
    + rewrite !(start_resume_with_armed _ i u) by done.
      destruct (sdkThrows i) as [err|]; [|done].
      unfold start_catch_with. cbn [run foldl step].
      rewrite stopConversation_split.
      replace (close_outcome _) with (Some false); [done|].
      unfold close_outcome, armed. simpl.
      rewrite bool_decide_true; [done|].
      apply elem_of_union. right. apply elem_of_union. left.
      by apply elem_of_singleton.
  - cbn [pieces step].
    destruct (truthy (inlineData m)) eqn:Ht; cbn [run foldl step].
    + by rewrite onmessage_split.
    + unfold onmessage_begin, onmessage. by rewrite Ht.
  - cbn [pieces step]. unfold onclose.
    change (run decode s (EvClosing session now :: ?l))
      with (run decode
              (stop_begin now
                 (addLog "Disconnected by server"
                    (set_openChannels (openChannels s ∖ {[session]}) s))) l).
    by apply run_stopped.
  - cbn [pieces step]. unfold onerror.
    change (run decode s (EvFailing now :: ?l))
      with (run decode
              (stop_begin now
                 (setError (Some "Connection error") (console_error s))) l).
    by apply run_stopped.
  - cbn [pieces step].
    change (run decode s (EvStopping now :: ?l))
      with (run decode (stop_begin now s) l).
    by apply run_stopped.
Qed.


(** ** The playback cursor *)

Lemma buffer_duration_nonneg (buf : AudioBuffer) : (0 <= buffer_duration buf)%Q.
Proof. unfold buffer_duration, Qle. simpl. lia. Qed.

Lemma Qle_add_nonneg (a d : Q) : (0 <= d)%Q → (a <= a + d)%Q.
Proof.
  intros Hd. apply Qle_trans with (a + 0)%Q.
  - rewrite Qplus_0_r. apply Qle_refl.
  - by apply Qplus_le_r.
Qed.

Lemma onmessage_cursor decode m arrival resumed s :
  (interrupted m = true → undecodable decode m) →
  (nextStartTimeRef s
   <= nextStartTimeRef (onmessage decode m arrival resumed s).2)%Q.
Proof.
  intros Hi. unfold onmessage, receive_audio.
  destruct (truthy (inlineData m)) eqn:Ht.
  - destruct (decode _) as [buf|] eqn:Hd; simpl.
    + destruct (interrupted m).
      * destruct Hi as [_ Hnone]; [done|]. congruence.
      * apply Qle_trans with (Qmax (nextStartTimeRef s) arrival);
          [apply Q.le_max_l | apply Qle_add_nonneg, buffer_duration_nonneg].
    + apply Q.le_max_l.
  - simpl. destruct (interrupted m); [|apply Qle_refl].
    destruct Hi as [Htrue _]; [done|]. congruence.
Qed.

Lemma onmessage_begin_cursor decode m arrival s :
  (interrupted m = true → truthy (inlineData m) = true) →
  (nextStartTimeRef s
   <= nextStartTimeRef (onmessage_begin decode m arrival s))%Q.
Proof.
  intros Hi. unfold onmessage_begin, onmessage, receive_audio.
  destruct (truthy (inlineData m)); simpl; [apply Q.le_max_l|].
  destruct (interrupted m); [by specialize (Hi eq_refl)|apply Qle_refl].
Qed.

Lemma onmessage_end_cursor decode m resumed s :
  (interrupted m = true → truthy (inlineData m) = true →
   undecodable decode m) →
  (nextStartTimeRef s
   <= nextStartTimeRef (onmessage_end decode m resumed s).2)%Q.
Proof.
  intros Hi. unfold onmessage_end.
  destruct (truthy (inlineData m)); [|apply Qle_refl].
  destruct (decode _) as [buf|] eqn:Hd; simpl; [|apply Qle_refl].
  destruct (interrupted m).
  - destruct Hi as [_ Hnone]; [done..|]. congruence.
  - apply Qle_add_nonneg, buffer_duration_nonneg.
Qed.

Lemma step_cursor decode s e :
  keeps_cursor decode e →
  (nextStartTimeRef s <= nextStartTimeRef (step decode s e))%Q.
Proof.
  destruct e as [i|proc|session sendFails|m a r|n|f|session now|now|now
                | |i|m a|m r|session now|now|now|rejected];
    cbn [step keeps_cursor]; intros He; try done.
  - apply Qle_refl.
  - unfold onaudioprocess. destruct session, sendFails; apply Qle_refl.
  - by apply onmessage_cursor.
  - unfold onended. simpl. case_match; apply Qle_refl.
  - unfold onframe, draw. case_bool_decide; [|apply Qle_refl].
    simpl. case_match; apply Qle_refl.
  - unfold onclose. rewrite stopConversation_fields. apply Qle_refl.
  - unfold onerror. rewrite stopConversation_fields. apply Qle_refl.
  - rewrite stopConversation_fields. apply Qle_refl.
  - apply Qle_refl.
  - by apply onmessage_begin_cursor.
  - by apply onmessage_end_cursor.
  - rewrite stop_begin_fields. apply Qle_refl.
  - rewrite stop_begin_fields. apply Qle_refl.
  - rewrite stop_begin_fields. apply Qle_refl.
  - rewrite stop_end_fields. apply Qle_refl.
Qed.

Lemma step_leaves_cursor decode s e :
  leaves_cursor e → nextStartTimeRef (step decode s e) = nextStartTimeRef s.
Proof.
  destruct e as [i|proc|session sendFails|m a r|n|f|session now|now|now
                | |i|m a|m r|session now|now|now|rejected];
    cbn [step leaves_cursor]; intros He; try done.
  - unfold onaudioprocess. by destruct session, sendFails.
  - unfold onended. simpl. by case_match.
  - unfold onframe, draw. case_bool_decide; [|done]. simpl. by case_match.
  - unfold onclose. by rewrite stopConversation_fields.
  - unfold onerror. by rewrite stopConversation_fields.
  - by rewrite stopConversation_fields.
  - by rewrite stop_begin_fields.
  - by rewrite stop_begin_fields.
  - by rewrite stop_begin_fields.
  - by rewrite stop_end_fields.
Qed.

Lemma run_leaves_cursor decode es s :
  Forall leaves_cursor es →
  nextStartTimeRef (run decode s es) = nextStartTimeRef s.
Proof.
  intros Hes. revert s.
  induction Hes as [|e es He _ IH]; intros s; [done|].
  simpl. by rewrite IH, step_leaves_cursor.
Qed.

Lemma run_cursor decode es s :
  Forall (keeps_cursor decode) es →
  (nextStartTimeRef s <= nextStartTimeRef (run decode s es))%Q.
Proof.
  intros Hes. revert s.
  induction Hes as [|e es He _ IH]; intros s; [apply Qle_refl|].
  simpl. eapply Qle_trans; [by apply (step_cursor decode s e)|apply IH].
Qed.


(** ** The start time of a chunk *)

(** C1, as the code has it.  The node of a chunk is started when the
    chunk's decode has settled, at whatever the cursor is then, and the
    cursor is moved on by the buffer's duration.  On arrival the cursor
    was raised to [max(cursor, clock)].  So when the decode settles before
    any other handler runs, or with only handlers in between that are no
    start and no message handler, the start time is [max(cursor, clock at
    arrival)]; when other message handlers run in between, none of them
    getting to the interruption branch, it is at least that.  In the
    session of three chunks of 1.0 s, 0.5 s and 2.0 s arriving at 0.1, 0.2
    and 5.0 with the cursor at 0, each decoded before the next arrives,
    the start times are 0.1, 1.1 and 5.0. *)
Theorem chunk_start_rule :
  (∀ (decode : string → option AudioBuffer) m arrival resumed s data buf,
     inlineData m = Some data → data ≠ "" → decode data = Some buf →
     let start := Qmax (nextStartTimeRef s) arrival in
     let scheduled :=
       schedule buf resumed (receive_audio decode data arrival s).2 in
     onmessage decode m arrival resumed s
     = (Returned,
        if interrupted m then interrupt resumed scheduled else scheduled) ∧
     starts scheduled = starts s ++ [start] ∧
     nodes scheduled !! nextHandle s
     = Some {| startAt := start; calledAt := resumed;
               duration := buffer_duration buf; stoppedAt := None |} ∧
     nextStartTimeRef scheduled = (start + buffer_duration buf)%Q) ∧
  (∀ (decode : string → option AudioBuffer) m resumed s data buf,
     inlineData m = Some data → data ≠ "" → decode data = Some buf →
     let scheduled := schedule buf resumed s in
     onmessage_end decode m resumed s
     = (Returned,
        if interrupted m then interrupt resumed scheduled else scheduled) ∧
     starts scheduled = starts s ++ [nextStartTimeRef s] ∧
     nodes scheduled !! nextHandle s
     = Some {| startAt := nextStartTimeRef s; calledAt := resumed;
               duration := buffer_duration buf; stoppedAt := None |} ∧
     nextStartTimeRef scheduled
     = (nextStartTimeRef s + buffer_duration buf)%Q) ∧
  (∀ (decode : string → option AudioBuffer) m arrival s between,
     truthy (inlineData m) = true →
     (Forall leaves_cursor between →
      nextStartTimeRef
        (run decode (onmessage_begin decode m arrival s) between)
      = Qmax (nextStartTimeRef s) arrival) ∧
     (Forall (keeps_cursor decode) between →
      (Qmax (nextStartTimeRef s) arrival
       <= nextStartTimeRef
            (run decode (onmessage_begin decode m arrival s) between))%Q)) ∧
  nextStartTimeRef (run demo_decode initial (take 2 three_chunks)) = 0%Q ∧
  Forall2 Qeq (starts (run demo_decode initial three_chunks))
              [1 # 10; 11 # 10; 5 # 1]%Q.
Proof.
  split; [|split; [|split]].
  - intros decode m arrival resumed s data buf Hm Hne Hd start scheduled.
    split; [by apply onmessage_decoded|].
    subst scheduled start. unfold schedule, receive_audio. simpl.
    split; [|split; [|done]].
    + unfold starts. simpl. by rewrite omap_app.
    + by rewrite lookup_insert_eq.
  - intros decode m resumed s data buf Hm Hne Hd scheduled.
    split; [by apply (onmessage_end_decoded decode m resumed s data)|].
    subst scheduled. unfold schedule. simpl.
    split; [|split; [|done]].
    + unfold starts. simpl. by rewrite omap_app.
    + by rewrite lookup_insert_eq.
  - intros decode m arrival s between Ht.
    assert (nextStartTimeRef (onmessage_begin decode m arrival s)
            = Qmax (nextStartTimeRef s) arrival) as Hc
      by (unfold onmessage_begin; by rewrite Ht).
    split; intros Hbetween.
    + by rewrite run_leaves_cursor.
    + rewrite <- Hc. by apply run_cursor.
  - split; [reflexivity|].
    vm_compute. repeat constructor.
Qed.

Lemma chunk_start_rule_witness :
  let s := run demo_decode initial (take 2 three_chunks) in
  let buf := {| frames := 24000; sampleRate := 24000 |} in
  let scheduled :=
    schedule buf (1 # 10) (receive_audio demo_decode "1.0s" (1 # 10) s).2 in
  starts scheduled = starts s ++ [Qmax (nextStartTimeRef s) (1 # 10)] ∧
  nextStartTimeRef scheduled
  = (Qmax (nextStartTimeRef s) (1 # 10) + buffer_duration buf)%Q.
Proof.
  intros s buf scheduled.
  destruct (proj1 chunk_start_rule demo_decode (chunk "1.0s")
              (1 # 10)%Q (1 # 10)%Q s "1.0s" buf)
    as (_ & Hstarts & _ & Hcursor); [reflexivity | discriminate | reflexivity |].
  split; [exact Hstarts | exact Hcursor].
Defined.

(** C1 as stated fails when a second chunk arrives while the first is
    still being decoded.  With the cursor at 0, chunks arrive at 0.1 and
    0.2 and both decodes settle at 0.3: the first chunk is started at
    0.2, the cursor value the second arrival left, and not at
    [max(0, 0.1)]; the second follows at 1.2. *)
Lemma chunk_start_moved_by_later_arrival :
  let s := run demo_decode connected overlapping_decodes in
  nextStartTimeRef connected = 0%Q ∧
  Forall2 Qeq (starts s) [2 # 10; 12 # 10]%Q ∧
  ¬ (Qmax (nextStartTimeRef connected) (1 # 10) == 2 # 10)%Q.
Proof.
  split; [reflexivity|]. split.
  - vm_compute. repeat constructor.
  - vm_compute. discriminate.
Qed.

(** ** The cursor never goes back, but for interruptions *)




(** ** Stopping nodes *)

Lemma stop_node_twice now n : stop_node now (stop_node now n) = stop_node now n.
Proof. unfold stop_node. by destruct (stoppedAt n) eqn:E; simpl; rewrite ?E. Qed.

Lemma stop_sources_lookup now ids (m : gmap nat SourceNode) n :
  stop_sources now ids m !! n
  = if decide (n ∈ ids) then stop_node now <$> m !! n else m !! n.
Proof.
  induction ids as [|id ids IH]; cbn [stop_sources foldr].
  - by rewrite decide_False by apply not_elem_of_nil.
  - fold (stop_sources now ids m). rewrite lookup_alter.
    destruct (decide (id = n)) as [->|Hne].
    + rewrite decide_True by left. rewrite IH.
      case_decide; [|done].
      destruct (m !! n); simpl; [|done]. by rewrite stop_node_twice.
    + rewrite IH. destruct (decide (n ∈ ids)) as [Hin|Hnin].
      * by rewrite decide_True by by right.
      * rewrite decide_False; [done|].
        intros [->|?]%elem_of_cons; done.
Qed.

Lemma stop_node_stopped now n :
  ∃ st, stoppedAt (stop_node now n) = Some st ∧
        (st = now ∨ stoppedAt n = Some st).
Proof.
  unfold stop_node. destruct (stoppedAt n) as [st|] eqn:E.
  - exists st. by rewrite E; auto.
  - exists now. auto.
Qed.

Lemma finished_later n t t' : (t <= t')%Q → finished n t → finished n t'.
Proof.
  intros Ht [H|H]; [left; by eapply Qle_trans|right].
  destruct (stoppedAt n); [by eapply Qle_trans|done].
Qed.

Lemma finished_silent n t t' : finished n t → (t <= t')%Q → ¬ audible n t'.
Proof.
  intros [H|H] Ht (_ & Hend & Hstop).
  - apply (Qlt_irrefl t'). eapply Qlt_le_trans; [done|]. by eapply Qle_trans.
  - destruct (stoppedAt n) as [st|]; [|done].
    apply (Qlt_irrefl t'). eapply Qlt_le_trans; [done|]. by eapply Qle_trans.
Qed.

(** ** One node per scheduled chunk *)

Lemma dom_stop_sources now ids (m : gmap nat SourceNode) :
  dom (stop_sources now ids m) = dom m.
Proof.
  induction ids as [|id ids IH]; [done|].
  cbn [stop_sources foldr]. fold (stop_sources now ids m).
  by rewrite dom_alter_L.
Qed.

Lemma starts_app_other (tr : list Effect) (e : Effect) :
  match e with StartSource _ => False | _ => True end →
  omap (λ e, match e with StartSource t => Some t | _ => None end)
       (tr ++ [e])
  = omap (λ e, match e with StartSource t => Some t | _ => None end) tr.
Proof. intros He. rewrite omap_app. destruct e; try done; apply app_nil_r. Qed.

Lemma starts_nothing_refl s : starts_nothing s s.
Proof. by repeat split. Qed.

Lemma starts_nothing_trans s1 s2 s3 :
  starts_nothing s1 s2 → starts_nothing s2 s3 → starts_nothing s1 s3.
Proof.
  intros (H1 & H2 & H3 & H4) (K1 & K2 & K3 & K4).
  split; [lia|]. split; [congruence|]. split; [congruence|].
  by transitivity (sourcesRef s2).
Qed.

Lemma stopConversation_starts_nothing now s :
  starts_nothing s (stopConversation now s).
Proof.
  rewrite stopConversation_fields. unfold starts_nothing, starts. simpl.
  split; [done|]. split; [apply dom_stop_sources|]. split.
  - destruct (audioContextRef s) as [ctx|]; [|done].
    case_bool_decide; [done|]. by apply starts_app_other.
  - apply empty_subseteq.
Qed.

Lemma start_request_starts_nothing s : starts_nothing s (start_request s).
Proof.
  unfold starts_nothing, start_request, starts. simpl.
  split; [done|]. split; [done|]. split; [|done].
  by rewrite !starts_app_other.
Qed.

Lemma stop_begin_starts_nothing now s : starts_nothing s (stop_begin now s).
Proof.
  rewrite stop_begin_fields. unfold starts_nothing, starts. simpl.
  split; [done|]. split; [apply dom_stop_sources|]. split; [done|].
  apply empty_subseteq.
Qed.

Lemma stop_end_starts_nothing rejected s :
  starts_nothing s (stop_end rejected s).
Proof.
  rewrite stop_end_fields. unfold starts_nothing, starts. simpl.
  split; [done|]. split; [done|]. split; [|done].
  destruct rejected; [|done]. by apply starts_app_other.
Qed.

Lemma report_starts_nothing msg s :
  starts_nothing s (setError msg (console_error s)).
Proof.
  unfold starts_nothing, starts. simpl.
  split; [done|]. split; [done|]. split; [|done].
  by rewrite !starts_app_other.
Qed.

Lemma start_catch_with_starts_nothing teardown err now s :
  (∀ now x, starts_nothing x (teardown now x)) →
  starts_nothing s (start_catch_with teardown err now s).
Proof.
  intros Htd. unfold start_catch_with.
  eapply starts_nothing_trans; [apply report_starts_nothing|apply Htd].
Qed.

Lemma start_catch_starts_nothing err now s :
  starts_nothing s (start_catch err now s).
Proof.
  apply start_catch_with_starts_nothing.
  intros. apply stopConversation_starts_nothing.
Qed.

Lemma armed_starts_nothing i s : starts_nothing s (armed i s).
Proof.
  unfold starts_nothing, armed, starts. simpl.
  split; [destruct (canvasReady i); lia|done].
Qed.

Lemma start_resume_with_starts_nothing teardown i s :
  (∀ now x, starts_nothing x (teardown now x)) →
  starts_nothing s (start_resume_with teardown i s).
Proof.
  intros Htd. destruct (userMedia i) as [err|u] eqn:Hgum.
  - rewrite (start_resume_with_denied teardown i err) by done.
    by apply start_catch_with_starts_nothing.
  - rewrite (start_resume_with_armed teardown i u) by done.
    eapply starts_nothing_trans; [apply armed_starts_nothing|].
    destruct (sdkThrows i); [by apply start_catch_with_starts_nothing|].
    unfold starts_nothing, starts. simpl.
    split; [lia|]. split; [done|]. split; [|done].
    by apply starts_app_other.
Qed.

Lemma startConversation_starts_nothing i s :
  starts_nothing s (startConversation i s).
Proof.
  unfold startConversation.
  eapply starts_nothing_trans; [apply start_request_starts_nothing|].
  apply start_resume_with_starts_nothing.
  intros. apply stopConversation_starts_nothing.
Qed.

Lemma interrupt_starts_nothing now s : starts_nothing s (interrupt now s).
Proof.
  unfold starts_nothing, interrupt, starts. simpl.
  split; [done|]. split; [apply dom_stop_sources|].
  split; [done|apply empty_subseteq].
Qed.

Lemma tallied_starts_nothing s s' :
  starts_nothing s s' → tallied s → tallied s'.
Proof.
  intros (Hh & Hd & Hst & Hso) (Hfresh & Hsize & Hsub).
  unfold tallied, scheduled. rewrite Hst, <- size_dom, Hd, size_dom.
  split; [|split; [done|]].
  - intros n Hn. specialize (Hfresh n Hn). lia.
  - by transitivity (sourcesRef s).
Qed.

Lemma tallied_schedule buf now s : tallied s → tallied (schedule buf now s).
Proof.
  intros (Hfresh & Hsize & Hsub).
  assert (nodes s !! nextHandle s = None) as Hnew.
  { apply not_elem_of_dom. intros Hin. specialize (Hfresh _ Hin). lia. }
  unfold tallied, schedule, scheduled, starts in *. simpl.
  rewrite dom_insert_L. split; [|split].
  - intros n [->%elem_of_singleton|Hn]%elem_of_union; [lia|].
    specialize (Hfresh n Hn). lia.
  - rewrite map_size_insert_None by done.
    rewrite omap_app, length_app. simpl. lia.
  - by apply union_mono_l.
Qed.

Lemma tallied_onmessage_end decode m resumed s :
  tallied s → tallied (onmessage_end decode m resumed s).2.
Proof.
  intros Hs. unfold onmessage_end.
  destruct (truthy (inlineData m)); [|done].
  destruct (decode _) as [buf|]; cbn [fst snd]; [|done].
  destruct (interrupted m); [|by apply tallied_schedule].
  eapply tallied_starts_nothing; [apply interrupt_starts_nothing|].
  by apply tallied_schedule.
Qed.

Lemma tallied_onmessage decode m arrival resumed s :
  tallied s → tallied (onmessage decode m arrival resumed s).2.
Proof.
  intros Hs. unfold onmessage, receive_audio.
  set (s1 := set_nextStartTimeRef _ _).
  assert (tallied s1) as H1 by done.
  destruct (truthy (inlineData m)); [destruct (decode _) as [buf|]|];
    cbn [fst snd]; try done.
  - destruct (interrupted m); [|by apply tallied_schedule].
    eapply tallied_starts_nothing; [apply interrupt_starts_nothing|].
    by apply tallied_schedule.
  - destruct (interrupted m); [|done].
    eapply tallied_starts_nothing; [apply interrupt_starts_nothing|done].
Qed.

Lemma tallied_step decode s e : tallied s → tallied (step decode s e).
Proof.
  intros Hs.
  destruct e as [i|proc|session sendFails|m a r|n|f|session now|now|now
                | |i|m a|m r|session now|now|now|rejected];
    cbn [step].
  - eapply tallied_starts_nothing; [apply startConversation_starts_nothing|done].
  - done.
  - unfold onaudioprocess. destruct session as [h|]; [destruct sendFails|].
    all: eapply tallied_starts_nothing; [|exact Hs].
    all: unfold starts_nothing, starts; simpl.
    all: (split; [done|]; split; [done|]; split; [|done]).
    all: by rewrite ?starts_app_other.
  - by apply tallied_onmessage.
  - eapply tallied_starts_nothing; [|exact Hs].
    unfold onended. simpl.
    assert (sourcesRef s ∖ {[n]} ⊆ sourcesRef s)
      by apply subseteq_difference_l, reflexivity.
    by case_match.
  - eapply tallied_starts_nothing; [|exact Hs].
    unfold onframe, draw. case_bool_decide; [|apply starts_nothing_refl].
    simpl. case_match; [|done].
    unfold starts_nothing. simpl. split; [lia|done].
  - unfold onclose.
    eapply tallied_starts_nothing;
      [apply stopConversation_starts_nothing|done].
  - unfold onerror.
    eapply tallied_starts_nothing;
      [apply (start_catch_starts_nothing
                {| message := Some "Connection error" |} now s)|done].
  - eapply tallied_starts_nothing;
      [apply stopConversation_starts_nothing|done].
  - eapply tallied_starts_nothing; [apply start_request_starts_nothing|done].
  - eapply tallied_starts_nothing; [|exact Hs].
    apply start_resume_with_starts_nothing.
    intros. apply stop_begin_starts_nothing.
  - unfold onmessage_begin.
    destruct (truthy (inlineData m)); [done|by apply tallied_onmessage].
  - by apply tallied_onmessage_end.
  - eapply tallied_starts_nothing; [apply stop_begin_starts_nothing|done].
  - eapply tallied_starts_nothing; [apply stop_begin_starts_nothing|].
    eapply tallied_starts_nothing; [apply report_starts_nothing|done].
  - eapply tallied_starts_nothing; [apply stop_begin_starts_nothing|done].
  - eapply tallied_starts_nothing; [apply stop_end_starts_nothing|done].
Qed.

Lemma tallied_initial : tallied initial.
Proof.
  split; [|split]; [intros n Hn|done|done].
  change (nodes initial) with (∅ : gmap nat SourceNode) in Hn.
  rewrite dom_empty_L in Hn. by apply not_elem_of_empty in Hn.
Qed.

Lemma tallied_run decode es s : tallied s → tallied (run decode s es).
Proof.
  revert s. induction es as [|e es IH]; intros s Hs; [done|].
  apply IH. by apply tallied_step.
Qed.

(** X3. In every state the mounted component can reach, the browser
    holds exactly one source node per chunk that was handed to [start]
    (a new node never takes the handle of an older one), and every
    handle in the outstanding set is the handle of such a node; so the
    set never has more members than chunks were scheduled. *)
Theorem one_node_per_chunk (decode : string → option AudioBuffer)
    (es : list Event) :
  let s := run decode initial es in
  size (nodes s) = scheduled s ∧
  sourcesRef s ⊆ dom (nodes s) ∧
  size (sourcesRef s) ≤ scheduled s.
Proof.
  destruct (tallied_run decode es initial tallied_initial)
    as (_ & Hsize & Hsub).
  simpl. split; [done|]. split; [done|].
  rewrite <- Hsize, <- size_dom. by apply subseteq_size.
Qed.


(** ** Invariant of a session *)

Lemma settled_same h s s' t :
  nodes s' = nodes s → sourcesRef s' = sourcesRef s →
  settled h s t → settled h s' t.
Proof. unfold settled. intros -> ->. done. Qed.

Lemma settled_later h s t t' : (t <= t')%Q → settled h s t → settled h s t'.
Proof.
  intros Ht Hs n node Hh Hn. destruct (Hs n node Hh Hn) as [Hfin Hst]. split.
  - intros Hout. by eapply finished_later; eauto.
  - intros st E. eapply Qle_trans; eauto.
Qed.

Lemma settled_schedule h buf now s t :
  settled h s t → settled h (schedule buf now s) t.
Proof.
  intros Hs n node Hh. unfold schedule. simpl.
  destruct (decide (nextHandle s = n)) as [<-|Hne].
  - rewrite lookup_insert_eq. intros [= <-]. split; [|done].
    intros []. apply elem_of_union. left. by apply elem_of_singleton.
  - rewrite lookup_insert_ne by done. intros Hn.
    destruct (Hs n node Hh Hn) as [Hfin Hst]. split; [|done].
    intros Hout. apply Hfin. intros Hin. apply Hout.
    apply elem_of_union. by right.
Qed.

Lemma settled_interrupt h now s t :
  (t <= now)%Q → settled h s t → settled h (interrupt now s) now.
Proof.
  intros Ht Hs n node Hh. unfold interrupt. simpl.
  rewrite stop_sources_lookup.
  destruct (decide (n ∈ elements (sourcesRef s))) as [Hin|Hout].
  - destruct (nodes s !! n) as [old|] eqn:Hn; simpl; [|done].
    intros [= <-]. destruct (Hs n old Hh Hn) as [_ Hst].
    destruct (stop_node_stopped now old) as (st & E & [->|Hold]).
    + rewrite E. split; [intros _; right; rewrite E; apply Qle_refl|].
      intros ? [= <-]. apply Qle_refl.
    + assert (st <= now)%Q by (eapply Qle_trans; eauto).
      rewrite E. split; [intros _; right; by rewrite E|].
      by intros ? [= <-].
  - intros Hn. destruct (Hs n node Hh Hn) as [Hfin Hst]. split.
    + intros _. eapply finished_later; [done|]. apply Hfin.
      intros Hin. apply Hout. by apply elem_of_elements.
    + intros st E. eapply Qle_trans; eauto.
Qed.

Lemma settled_onended h s t n node :
  nodes s !! n = Some node → finished node t →
  settled h s t → settled h (onended n s) t.
Proof.
  intros Hn Hfin Hs.
  apply (settled_same h (set_sourcesRef (sourcesRef s ∖ {[n]}) s)).
  { unfold onended. by case_match. }
  { unfold onended. by case_match. }
  intros n' node' Hh. simpl. intros Hn'.
  destruct (Hs n' node' Hh Hn') as [Hfin' Hst].
  split; [|done]. intros Hout.
  destruct (decide (n' = n)) as [->|Hne]; [congruence|].
  apply Hfin'. intros Hin. apply Hout. apply elem_of_difference.
  split; [done|]. by intros ->%elem_of_singleton.
Qed.

Lemma settled_onmessage_end h decode m resumed s t :
  (t <= resumed)%Q → settled h s t →
  settled h (onmessage_end decode m resumed s).2 resumed.
Proof.
  intros Ht Hs. unfold onmessage_end.
  destruct (truthy (inlineData m)); [|by apply (settled_later h s t)].
  destruct (decode _) as [buf|]; cbn [fst snd];
    [|by apply (settled_later h s t)].
  destruct (interrupted m).
  - by apply (settled_interrupt h resumed _ t), settled_schedule.
  - by apply (settled_later h _ t), settled_schedule.
Qed.

Lemma settled_onmessage h decode m arrival resumed s t :
  (t <= resumed)%Q → settled h s t →
  settled h (onmessage decode m arrival resumed s).2 resumed.
Proof.
  intros Ht Hs. unfold onmessage, receive_audio.
  set (s1 := set_nextStartTimeRef _ _).
  assert (settled h s1 t) as H1 by (by apply (settled_same h s)).
  destruct (truthy (inlineData m)).
  - destruct (decode _) as [buf|]; simpl.
    + destruct (interrupted m).
      * by apply (settled_interrupt h resumed _ t), settled_schedule.
      * by apply (settled_later h _ t), settled_schedule.
    + by apply (settled_later h _ t).
  - simpl. destruct (interrupted m).
    + by apply (settled_interrupt h resumed _ t).
    + by apply (settled_later h _ t).
Qed.

Lemma settled_step h decode s t e t' :
  in_session s t e t' → settled h s t → settled h (step decode s e) t'.
Proof.
  intros [Ht He] Hs.
  destruct e as [i|proc|session sendFails|m a r|n|f|session now|now|now
                | |i|m a|m r|session now|now|now|rejected];
    cbn [step]; try done.
  - by apply (settled_same h s), (settled_later h s t).
  - apply (settled_same h s); [| |by apply (settled_later h s t)];
      unfold onaudioprocess; by destruct session, sendFails.
  - destruct He as (Ha & Har & Hr).
    apply (settled_later h _ r); [done|].
    apply (settled_onmessage h decode m a r s t); [|done].
    eapply Qle_trans; eauto.
  - destruct He as (node & Hn & Hfin).
    apply (settled_onended h _ _ _ node); [done..|].
    by apply (settled_later h s t).
  - apply (settled_same h s); [| |by apply (settled_later h s t)];
      unfold onframe, draw; case_bool_decide; try done;
      simpl; by case_match.
  - destruct He as (Ha & Ha').
    unfold onmessage_begin. destruct (truthy (inlineData m)).
    + by apply (settled_same h s), (settled_later h s t).
    + apply (settled_later h _ a); [done|].
      by apply (settled_onmessage h decode m a a s t).
  - destruct He as (Hr & Hr').
    apply (settled_later h _ r); [done|].
    by apply (settled_onmessage_end h decode m r s t).
  - rewrite stop_end_fields.
    by apply (settled_same h s), (settled_later h s t).
Qed.

Lemma end_time_cons t e t' es : end_time t ((e, t') :: es) = end_time t' es.
Proof.
  unfold end_time. rewrite fmap_cons, last_cons. by destruct (last _).
Qed.

Lemma settled_session h decode es s t :
  session decode s t es → settled h s t →
  settled h (run decode s (es.*1)) (end_time t es).
Proof.
  revert s t. induction es as [|[e t'] es IH]; intros s t; [done|].
  intros [He Hrest] Hs. rewrite end_time_cons. simpl.
  apply IH; [done|]. by eapply settled_step.
Qed.

(** At the moment the allocation counter stands at [h] no node has a
    handle from [h] on. *)
Lemma settled_start s t : tallied s → settled (nextHandle s) s t.
Proof.
  intros (Hfresh & _) n node Hh Hn.
  assert (n < nextHandle s); [|lia].
  apply Hfresh. apply elem_of_dom. eauto.
Qed.


(** What a session that started in a reachable state has settled. *)
Lemma session_settled decode history t0 es :
  let s0 := run decode initial history in
  session decode s0 t0 es →
  settled (nextHandle s0) (run decode s0 (es.*1)) (end_time t0 es) ∧
  tallied (run decode s0 (es.*1)).
Proof.
  intros s0 Hes.
  assert (tallied s0) as H0 by apply tallied_run, tallied_initial.
  split; [|by apply tallied_run].
  by apply settled_session, settled_start.
Qed.

(** ** Interruption *)




(** ** A payload that does not decode *)

Lemma interrupt_scheduled now s : scheduled (interrupt now s) = scheduled s.
Proof. done. Qed.

Lemma interrupt_handles now s :
  session_handles (interrupt now s) = session_handles s.
Proof. done. Qed.

Lemma onmessage_payload decode m arrival resumed s :
  truthy (inlineData m) = true →
  scheduled (onmessage decode m arrival resumed s).2
  + (if corrupted decode (EvMessage m arrival resumed) then 1 else 0)
  = S (scheduled s) ∧
  session_handles (onmessage decode m arrival resumed s).2
  = session_handles s.
Proof.
  intros Ht. destruct (truthy_inv _ Ht) as (data & Hm & Hne).
  unfold corrupted. rewrite Ht, Hm. simpl.
  destruct (decode data) as [buf|] eqn:Hd.
  - rewrite (onmessage_decoded decode m arrival resumed s data buf) by done.
    rewrite bool_decide_false by done. cbn [snd].
    assert (scheduled (schedule buf resumed
                         (receive_audio decode data arrival s).2)
            = S (scheduled s)) as Hn.
    { unfold scheduled, schedule, receive_audio, starts. simpl.
      rewrite omap_app, length_app. simpl. lia. }
    destruct (interrupted m);
      [rewrite interrupt_scheduled, interrupt_handles|]; by rewrite Hn.
  - rewrite (onmessage_corrupted decode m arrival resumed s data) by done.
    rewrite bool_decide_true by done. split; [|done].
    unfold scheduled, starts. simpl. lia.
Qed.

Lemma run_payloads decode es s :
  Forall has_payload es →
  scheduled (run decode s es)
  + length (filter (λ e, corrupted decode e) es)
  = scheduled s + length es ∧
  session_handles (run decode s es) = session_handles s.
Proof.
  intros Hes. revert s.
  induction Hes as [|e es He _ IH]; intros s; [simpl; split; [lia|done]|].
  destruct e as [| | |m a r| | | | | | | | | | | | |]; try done. simpl in He.
  destruct (onmessage_payload decode m a r s He) as [Hn Hh].
  cbn [run foldl step]. fold (run decode (onmessage decode m a r s).2 es).
  destruct (IH (onmessage decode m a r s).2) as [IHn IHh].
  split; [|congruence].
  rewrite filter_cons.
  destruct (corrupted decode (EvMessage m a r)) eqn:Hc.
  - rewrite decide_True by done. simpl. lia.
  - rewrite decide_False by (by intros []). simpl. lia.
Qed.

(** C5, as the code has it.  A payload that fails to decode makes the
    handler reject after it has raised the speaking flag and moved the
    cursor to [max(cursor, clock)]: no node is created, nothing is
    written to the log and no console call is made.  Later messages are
    handled as usual: of [N] payload messages with exactly one that fails
    to decode, [N - 1] are scheduled, and the connected flag and the
    session's handles are as before. *)
Theorem corrupted_chunk_dropped (decode : string → option AudioBuffer) :
  (∀ s m arrival resumed data,
     inlineData m = Some data → data ≠ "" → decode data = None →
     onmessage decode m arrival resumed s
     = (Threw, set_nextStartTimeRef (Qmax (nextStartTimeRef s) arrival)
                 (set_isSpeaking true s)) ∧
     ¬ wrote_log s (onmessage decode m arrival resumed s).2) ∧
  (∀ s es,
     Forall has_payload es →
     length (filter (λ e, corrupted decode e) es) = 1 →
     scheduled (run decode s es) = scheduled s + (length es - 1) ∧
     session_handles (run decode s es) = session_handles s).
Proof.
  split.
  - intros s m arrival resumed data Hm Hne Hd.
    rewrite (onmessage_corrupted decode m arrival resumed s data) by done.
    split; [done|]. by intros [H|H].
  - intros s es Hes Hone.
    destruct (run_payloads decode es s Hes) as [Hn Hh].
    split; [|done]. rewrite Hone in Hn.
    destruct es; [done|]. simpl in *. lia.
Qed.

Lemma corrupted_chunk_dropped_witness :
  let es := [EvMessage (chunk "1.0s") (1 # 10) (1 # 10); garbage;
             EvMessage (chunk "2.0s") 5%Q 5%Q] in
  scheduled (run demo_decode connected es)
  = scheduled connected + (length es - 1) ∧
  session_handles (run demo_decode connected es) = session_handles connected.
Proof.
  intros es.
  apply (proj2 (corrupted_chunk_dropped demo_decode) connected es).
  - repeat constructor.
  - vm_compute. reflexivity.
Defined.

(** C5 as stated fails where it says the dropped chunk is logged: after
    the payload ["garbage"], which the decoder rejects, the handler has
    rejected and neither the log nor the list of calls has changed. *)
Lemma corrupted_chunk_not_logged :
  let r := onmessage demo_decode (chunk "garbage") (3 # 10) (3 # 10)
             connected in
  demo_decode "garbage" = None ∧ r.1 = Threw ∧ ¬ wrote_log connected r.2.
Proof.
  intros r. subst r.
  rewrite (onmessage_corrupted demo_decode _ _ _ _ "garbage")
    by (reflexivity || discriminate).
  split; [reflexivity|]. split; [reflexivity|].
  intros [H|H]; apply H; vm_compute; reflexivity.
Qed.

(** ** The speaking flag and the outstanding set *)

Lemma stopConversation_playback now s :
  isSpeaking (stopConversation now s) = false ∧
  sourcesRef (stopConversation now s) = ∅.
Proof. by rewrite stopConversation_fields. Qed.

Lemma draw_playback s :
  isSpeaking (draw s) = isSpeaking s ∧ sourcesRef (draw s) = sourcesRef s.
Proof. unfold draw. by case_match. Qed.

Lemma drawVisualizer_playback canvas s :
  isSpeaking (drawVisualizer canvas s) = isSpeaking s ∧
  sourcesRef (drawVisualizer canvas s) = sourcesRef s.
Proof. unfold drawVisualizer. case_match; [apply draw_playback|done]. Qed.

Lemma startConversation_playback i s :
  (isSpeaking (startConversation i s) = isSpeaking s ∧
   sourcesRef (startConversation i s) = sourcesRef s) ∨
  (isSpeaking (startConversation i s) = false ∧
   sourcesRef (startConversation i s) = ∅).
Proof.
  unfold startConversation.
  destruct (userMedia i) as [err|u] eqn:Hgum.
  - right. rewrite (start_resume_denied i err) by done.
    apply stopConversation_playback.
  - rewrite (start_resume_armed i u) by done.
    destruct (sdkThrows i); [right; apply stopConversation_playback|].
    by left.
Qed.

Lemma onended_removes n s : n ∉ sourcesRef (onended n s).
Proof.
  unfold onended. case_match; simpl; intros [_ Hn]%elem_of_difference;
    apply Hn; by apply elem_of_singleton.
Qed.

Lemma onended_flag n s :
  sourcesRef (onended n s) = ∅ → isSpeaking (onended n s) = false.
Proof.
  unfold onended. simpl.
  destruct (Nat.eqb_spec (size (sourcesRef s ∖ {[n]})) 0) as [_|Hne];
    [done|].
  simpl. intros Hempty. destruct Hne. by rewrite Hempty, size_empty.
Qed.

Lemma flag_sound_onended n s : flag_sound s → flag_sound (onended n s).
Proof.
  unfold flag_sound, onended. simpl. intros Hs.
  destruct (Nat.eqb_spec (size (sourcesRef s ∖ {[n]})) 0) as [H0|_]; simpl.
  - intros _. by apply leibniz_equiv, size_empty_inv.
  - intros Hf. rewrite (Hs Hf). apply difference_disjoint_L.
    apply disjoint_empty_l.
Qed.

Lemma flag_exact_onended n s : flag_exact s → flag_exact (onended n s).
Proof.
  intros Hs. split; [apply flag_sound_onended; by intros ?%Hs|].
  apply onended_flag.
Qed.

Lemma schedule_adds buf now s :
  nextHandle s ∈ sourcesRef (schedule buf now s).
Proof.
  unfold schedule. simpl. apply elem_of_union. left.
  by apply elem_of_singleton.
Qed.

Lemma flag_sound_onmessage decode m arrival resumed s :
  flag_sound s → flag_sound (onmessage decode m arrival resumed s).2.
Proof.
  unfold flag_sound, onmessage, receive_audio. intros Hs.
  destruct (truthy (inlineData m)).
  - destruct (decode _) as [buf|]; simpl; [|done].
    by destruct (interrupted m).
  - simpl. by destruct (interrupted m).
Qed.

Lemma flag_exact_onmessage decode m arrival resumed s :
  decodes decode m →
  flag_exact s → flag_exact (onmessage decode m arrival resumed s).2.
Proof.
  unfold decodes, flag_exact, onmessage, receive_audio. intros Hd Hs.
  destruct (truthy (inlineData m)).
  - destruct Hd as [buf ->]; [done|]. simpl.
    destruct (interrupted m); [done|]. split; [done|].
    intros Hempty. pose proof (schedule_adds buf resumed
      (set_nextStartTimeRef (Qmax (nextStartTimeRef s) arrival)
         (set_isSpeaking true s))) as Hin.
    rewrite Hempty in Hin. by apply not_elem_of_empty in Hin.
  - simpl. by destruct (interrupted m).
Qed.

(** What each handler run as a whole does to the flag and the set, apart
    from messages and ['ended']: nothing, or both are reset. *)
Lemma step_playback decode s e :
  whole e →
  match e with EvMessage _ _ _ | EvEnded _ => False | _ => True end →
  (isSpeaking (step decode s e) = isSpeaking s ∧
   sourcesRef (step decode s e) = sourcesRef s) ∨
  (isSpeaking (step decode s e) = false ∧ sourcesRef (step decode s e) = ∅).
Proof.
  destruct e as [i|proc|session sendFails|m a r|n|f|session now|now|now
                | |i|m a|m r|session now|now|now|rejected];
    cbn [step whole]; intros Hw He; try done.
  - apply startConversation_playback.
  - by left.
  - left. unfold onaudioprocess. by destruct session, sendFails.
  - left. unfold onframe. case_bool_decide; [|done].
    destruct (draw_playback
                (set_pendingFrames (pendingFrames s ∖ {[f]}) s)) as [-> ->].
    done.
  - right. apply stopConversation_playback.
  - right. apply stopConversation_playback.
  - right. apply stopConversation_playback.
Qed.

Lemma flag_sound_step decode s e :
  whole e → flag_sound s → flag_sound (step decode s e).
Proof.
  intros Hw Hs.
  destruct e as [i|proc|session sendFails|m a r|n|f|session now|now|now
                | |i|m a|m r|session now|now|now|rejected];
    cbn [whole] in Hw; try done;
    try (match goal with
         | |- _ (step _ _ ?e) =>
             destruct (step_playback decode s e I I) as [[Hf Hr]|[Hf Hr]]
         end;
         unfold flag_sound in *; rewrite ?Hf, ?Hr; done).
  - by apply flag_sound_onmessage.
  - by apply flag_sound_onended.
Qed.

Lemma flag_exact_step decode s e :
  whole e → no_decode_failure decode e →
  flag_exact s → flag_exact (step decode s e).
Proof.
  intros Hw He Hs.
  destruct e as [i|proc|session sendFails|m a r|n|f|session now|now|now
                | |i|m a|m r|session now|now|now|rejected];
    cbn [whole] in Hw; try done;
    try (match goal with
         | |- _ (step _ _ ?e) =>
             destruct (step_playback decode s e I I) as [[Hf Hr]|[Hf Hr]]
         end;
         unfold flag_exact in *; rewrite ?Hf, ?Hr; done).
  - by apply flag_exact_onmessage.
  - by apply flag_exact_onended.
Qed.

Lemma flag_sound_run decode es s :
  Forall whole es → flag_sound s → flag_sound (run decode s es).
Proof.
  intros Hes. revert s. induction Hes as [|e es He _ IH]; intros s Hs;
    [done|].
  apply IH. by apply flag_sound_step.
Qed.

Lemma flag_exact_run decode es s :
  Forall whole es → Forall (no_decode_failure decode) es →
  flag_exact s → flag_exact (run decode s es).
Proof.
  intros Hes. revert s. induction Hes as [|e es He _ IH]; intros s Hd Hs;
    [done|].
  apply Forall_cons in Hd as [Hd1 Hd2].
  apply IH; [done|]. by apply flag_exact_step.
Qed.

(** C7, as the code has it.  A chunk that is scheduled is in the
    outstanding set afterwards, and its ['ended'] event takes it out; an
    ['ended'] event that leaves the set empty clears the speaking flag.
    As long as every handler has run as a whole, none of them while
    another was waiting for a decode or for the output context to close,
    a cleared flag means an empty set, and the converse holds too if no
    payload has failed to decode.  In a session, the first or a later
    one, with handlers running into each other or not: once the set is
    empty no node started in the session is audible any more. *)
Theorem speaking_flag_follows_sources (decode : string → option AudioBuffer) :
  (∀ s m arrival resumed data buf,
     inlineData m = Some data → data ≠ "" → decode data = Some buf →
     interrupted m = false →
     nextHandle s ∈ sourcesRef (onmessage decode m arrival resumed s).2 ∧
     nextHandle s ∈ sourcesRef (onmessage_end decode m resumed s).2) ∧
  (∀ s n,
     (n ∉ sourcesRef (onended n s)) ∧
     (sourcesRef (onended n s) = ∅ → isSpeaking (onended n s) = false)) ∧
  (∀ es, Forall whole es → flag_sound (run decode initial es)) ∧
  (∀ es, Forall whole es → Forall (no_decode_failure decode) es →
         flag_exact (run decode initial es)) ∧
  (∀ history t0 es,
     let s0 := run decode initial history in
     session decode s0 t0 es →
     sourcesRef (run decode s0 (es.*1)) = ∅ →
     ∀ n node t, nextHandle s0 ≤ n →
                 nodes (run decode s0 (es.*1)) !! n = Some node →
                 (end_time t0 es <= t)%Q → ¬ audible node t).
Proof.
  split; [|split; [|split; [|split]]].
  - intros s m arrival resumed data buf Hm Hne Hd Hi.
    rewrite (onmessage_decoded decode m arrival resumed s data buf) by done.
    rewrite (onmessage_end_decoded decode m resumed s data buf) by done.
    rewrite Hi. split.
    + apply (schedule_adds buf resumed (receive_audio decode data arrival s).2).
    + apply schedule_adds.
  - intros s n. split; [apply onended_removes|apply onended_flag].
  - intros es Hes. by apply flag_sound_run.
  - intros es Hes Hd. by apply flag_exact_run.
  - intros history t0 es s0 Hes Hempty n node t Hh Hn Ht. subst s0.
    destruct (session_settled decode history t0 es Hes) as [Hs _].
    destruct (Hs n node Hh Hn) as [Hfin _].
    eapply finished_silent; [|done]. apply Hfin. rewrite Hempty.
    apply not_elem_of_empty.
Qed.

Lemma speaking_flag_follows_sources_witness :
  nextHandle connected
  ∈ sourcesRef (onmessage demo_decode (chunk "1.0s") (1 # 10) (1 # 10)
                  connected).2 ∧
  flag_exact (run demo_decode initial three_chunks) ∧
  ¬ audible {| startAt := 1 # 10; calledAt := 1 # 10;
               duration := 24000 # 24000; stoppedAt := None |} (11 # 10).
Proof.
  split; [|split].
  - refine (proj1 (proj1 (speaking_flag_follows_sources demo_decode)
                     connected (chunk "1.0s") (1 # 10)%Q (1 # 10)%Q "1.0s"
                     {| frames := 24000; sampleRate := 24000 |}
                     eq_refl _ eq_refl eq_refl)).
    discriminate.
  - apply (proj1 (proj2 (proj2 (proj2
             (speaking_flag_follows_sources demo_decode))))).
    + unfold three_chunks. repeat constructor.
    + unfold three_chunks. repeat constructor; intros _; vm_compute; eauto.
  - apply (proj2 (proj2 (proj2 (proj2
             (speaking_flag_follows_sources demo_decode))))
             (take 2 three_chunks) 0%Q
             [(EvMessage (chunk "1.0s") (1 # 10) (1 # 10), (1 # 10)%Q);
              (EvEnded 8, (11 # 10)%Q)] ) with (n := 8).
    + split; [vm_compute; repeat split; discriminate|].
      split; [|exact I]. split; [vm_compute; discriminate|].
      eexists. split; [vm_compute; reflexivity|].
      left. vm_compute. discriminate.
    + vm_compute. reflexivity.
    + vm_compute. lia.
    + vm_compute. reflexivity.
    + vm_compute. discriminate.
Defined.

(** C7 as stated fails in both directions of its "exactly when".  After a
    payload that does not decode, the flag is on although the set is
    empty.  After the three chunks, at clock time 10 nothing is audible
    (the last chunk ended at 7) although the set still holds all three
    nodes, whose ['ended'] events have not been handled yet.  And when the
    first chunk's ['ended'] event is handled while the second chunk is
    being decoded, the flag goes off and stays off although the second
    chunk is then scheduled: at 1.3 the flag is off, the set holds node 9
    and node 9 is audible, the output context running. *)
Lemma speaking_flag_stuck_on :
  (let s := run demo_decode connected [garbage] in
   isSpeaking s = true ∧ sourcesRef s = ∅ ∧ ¬ flag_exact s) ∧
  (let s := run demo_decode initial three_chunks in
   sourcesRef s ≠ ∅ ∧
   Forall (λ node, ¬ audible node 10%Q) (map_to_list (nodes s)).*2) ∧
  (let s := run demo_decode connected (ended_during_decode.*1) in
   session demo_decode connected 0 ended_during_decode ∧
   isSpeaking s = false ∧ elements (sourcesRef s) = [9] ∧
   audioContextRef s = Some 2 ∧ elements (runningContexts s) = [2; 3] ∧
   nodes s !! 9
   = Some {| startAt := 264000 # 240000; calledAt := 12 # 10;
             duration := 12000 # 24000; stoppedAt := None |} ∧
   audible {| startAt := 264000 # 240000; calledAt := 12 # 10;
              duration := 12000 # 24000; stoppedAt := None |} (13 # 10)).
Proof.
  split; [|split].
  - assert (E : isSpeaking (run demo_decode connected [garbage]) = true ∧
                sourcesRef (run demo_decode connected [garbage]) = ∅)
      by (split; vm_compute; reflexivity).
    destruct E as [Hf Hs]. split; [done|]. split; [done|].
    intros [_ H]. rewrite Hf in H. by specialize (H Hs).
  - split.
    + intros H. assert (elements (sourcesRef
        (run demo_decode initial three_chunks)) = []) as E
        by (rewrite H; apply elements_empty).
      vm_compute in E. discriminate E.
    + vm_compute. repeat constructor; intros (_ & H & _); discriminate H.
  - cbv zeta. split.
    { split; [vm_compute; repeat split; discriminate|].
      split; [vm_compute; repeat split; discriminate|].
      split; [|split; [vm_compute; repeat split; discriminate|exact I]].
      split; [vm_compute; discriminate|].
      eexists. split; [vm_compute; reflexivity|].
      left. vm_compute. discriminate. }
    do 5 (split; [vm_compute; reflexivity|]).
    unfold audible, begins, Qle, Qlt. simpl. lia.
Qed.

(** The same when a message is handled while a teardown waits for
    [close()]: the teardown has emptied the set, the message puts its node
    in, and the teardown's second piece clears the flag over it. *)
Remark flag_cleared_over_a_late_chunk :
  let s := run demo_decode connected message_during_teardown in
  isSpeaking s = false ∧ elements (sourcesRef s) = [8] ∧
  isConnected s = false.
Proof. cbv zeta. repeat split; vm_compute; reflexivity. Qed.

(** ** Teardown *)

Lemma stopConversation_released now s : released s (stopConversation now s).
Proof.
  rewrite stopConversation_fields. unfold released. simpl.
  repeat split; try done.
  - intros Hfr. rewrite (proj2 (Nat.eqb_neq _ 0) Hfr).
    intros [_ H]%elem_of_difference. apply H. by apply elem_of_singleton.
  - intros stream ->. intros [_ H]%elem_of_difference.
    apply H. by apply elem_of_singleton.
  - intros proc ->. intros [_ H]%elem_of_difference.
    apply H. by apply elem_of_singleton.
  - intros n node Hin. rewrite stop_sources_lookup.
    rewrite decide_True by (by apply elem_of_elements).
    destruct (nodes s !! n) as [old|]; simpl; [|done]. intros [= <-].
    destruct (stop_node_stopped now old) as (st & -> & _). eauto.
  - intros ctx ->. intros [_ H]%elem_of_difference.
    apply H. by apply elem_of_singleton.
Qed.

(** A second teardown finds nothing to release: it only appends its log
    line. *)
Lemma stopConversation_twice now now' s :
  stopConversation now' (stopConversation now s)
  = addLog "Conversation ended" (stopConversation now s).
Proof.
  rewrite (stopConversation_fields now' (stopConversation now s)).
  rewrite (stopConversation_fields now s). unfold addLog. simpl.
  by rewrite elements_empty.
Qed.

Lemma set_logs_addLog l msg s : set_logs l (addLog msg s) = set_logs l s.
Proof. reflexivity. Qed.

Lemma released_addLog msg before after :
  released before after → released before (addLog msg after).
Proof. done. Qed.

(** From any state, also one in which a start is still awaiting the
    microphone or has only just issued the connect, [stopConversation]
    returns with every handle null, what was held through the refs
    released and both flags off.  Called once more it changes nothing but
    the log, to which it appends its line again, and a frame callback that
    still fires afterwards does nothing.  ([stopConversation] is a total
    function here because each call that can throw sits in a try/catch;
    the catch around [close()] is the console call of [close_context].) *)
Lemma stopConversation_idempotent (now now' : Q) (s : State) :
  released s (stopConversation now s) ∧
  released s (stopConversation now' (stopConversation now s)) ∧
  set_logs [] (stopConversation now' (stopConversation now s))
  = set_logs [] (stopConversation now s) ∧
  released (stopConversation now s)
           (stopConversation now' (stopConversation now s)) ∧
  (∀ i, released (startConversation i s)
                 (stopConversation now (startConversation i s))) ∧
  released (start_request s) (stopConversation now (start_request s)) ∧
  draw (stopConversation now s) = stopConversation now s.
Proof.
  split; [apply stopConversation_released|].
  split; [rewrite stopConversation_twice;
          apply released_addLog, stopConversation_released|].
  split; [rewrite stopConversation_twice; apply set_logs_addLog|].
  split; [apply stopConversation_released|].
  split; [intros i; apply stopConversation_released|].
  split; [apply stopConversation_released|].
  unfold draw. by rewrite stopConversation_fields.
Qed.

(** What the teardown does not undo: a start that was awaiting the
    microphone when [stopConversation] ran resumes afterwards, takes the
    microphone and issues the connect. *)
Remark start_resumes_after_stop :
  let s := start_resume granted
             (stopConversation 0%Q (start_request initial)) in
  mediaStreamRef s = Some 1 ∧ 1 ∈ liveStreams s ∧ connects s = 1.
Proof.
  split; [reflexivity|]. split; [|reflexivity].
  apply elem_of_elements. vm_compute. left.
Qed.

(** C3, at a session that is up.  [stopConversation] releases what the
    refs held, but of the channel it only forgets the handle: the block
    the source marks "Close session" sets [sessionRef] to null and never
    calls [close()], so channel 7 is still open afterwards, with nothing
    left that refers to it.  No teardown ever changes the set of open
    channels. *)
Theorem stop_leaves_channel_open :
  sessionRef talking = Some 7 ∧ 7 ∈ openChannels talking ∧
  released talking (stopConversation 1%Q talking) ∧
  sessionRef (stopConversation 1%Q talking) = None ∧
  7 ∈ openChannels (stopConversation 1%Q talking) ∧
  (∀ now s, openChannels (stopConversation now s) = openChannels s).
Proof.
  assert (∀ now s, openChannels (stopConversation now s) = openChannels s)
    as Hsame by (intros now s; by rewrite stopConversation_fields).
  assert (7 ∈ openChannels talking) as Hopen
    by (apply elem_of_elements; vm_compute; left).
  split; [reflexivity|]. split; [exact Hopen|].
  split; [apply stopConversation_released|].
  split; [by rewrite stopConversation_fields|].
  split; [by rewrite Hsame|exact Hsame].
Qed.

(** ** Close and error callbacks *)

Lemma stopConversation_trace now s :
  ∃ tail, trace (stopConversation now s) = trace s ++ tail ∧
          (tail = [] ∨ tail = [ConsoleError]).
Proof.
  rewrite stopConversation_fields. simpl.
  destruct (audioContextRef s) as [ctx|].
  - case_bool_decide.
    + exists []. by rewrite app_nil_r; auto.
    + exists [ConsoleError]. auto.
  - exists []. by rewrite app_nil_r; auto.
Qed.

(** C8. [onclose] and [onerror] end in the very teardown of
    [stopConversation]: the state they leave is the one
    [stopConversation] leaves, except that [onclose] has put its line in
    the log first and [onerror] has logged to the console and set the
    user-visible error "Connection error" first.  The error is set before
    any call the teardown makes. *)
Theorem close_and_error_tear_down (now : Q) (s : State) :
  without_logs (onclose now s) = without_logs (stopConversation now s) ∧
  logs (onclose now s)
  = logs (stopConversation now (addLog "Disconnected by server" s)) ∧
  released s (onclose now s) ∧
  without_report (onerror now s) = without_report (stopConversation now s) ∧
  error (onerror now s) = Some "Connection error" ∧
  new_calls s (onerror now s)
  = [ConsoleError; SetError (Some "Connection error")]
    ++ new_calls s (stopConversation now s) ∧
  released s (onerror now s).
Proof.
  pose proof (stopConversation_released now
                (addLog "Disconnected by server" s)) as Hclose.
  pose proof (stopConversation_released now
                (setError (Some "Connection error") (console_error s)))
    as Herror.
  unfold onclose, onerror.
  split; [by rewrite !stopConversation_fields|].
  split; [done|]. split; [exact Hclose|].
  split; [by rewrite !stopConversation_fields|].
  split; [by rewrite stopConversation_fields|].
  split; [|exact Herror].
  unfold new_calls. rewrite !stopConversation_fields. simpl.
  destruct (audioContextRef s) as [ctx|]; [case_bool_decide|];
    rewrite <- ?app_assoc, ?drop_app_length, ?drop_all; done.
Qed.

(** ** Microphone refused *)

Lemma startConversation_denied i err s :
  userMedia i = inl err →
  startConversation i s
  = stopConversation (stopTime i)
      (setError (Some (or_else (message err) "Failed to start conversation"))
         (console_error (start_request s))).
Proof.
  intros Hgum. unfold startConversation, start_resume, start_resume_with, start_catch_with.
  by rewrite Hgum.
Qed.

(** C6. When [getUserMedia] rejects, [startConversation] shows the
    error's message (or its fallback text) to the user, once; it never
    calls [ai.live.connect]; the connected flag is off; no handle is
    held and nothing was acquired: no browser object was created and the
    sets of live streams, running contexts, connected processors and
    pending frames have not grown. *)
Theorem microphone_denied (i : StartInputs) (err : JsError) (s : State) :
  userMedia i = inl err →
  let shown := or_else (message err) "Failed to start conversation" in
  let s' := startConversation i s in
  error s' = Some shown ∧
  surfaced_errors s' = surfaced_errors s ++ [shown] ∧
  connects s' = connects s ∧
  isConnected (start_request s) = isConnected s ∧
  isConnected s' = false ∧
  released s s' ∧
  nextHandle s' = nextHandle s ∧
  liveStreams s' ⊆ liveStreams s ∧
  runningContexts s' ⊆ runningContexts s ∧
  connectedProcessors s' ⊆ connectedProcessors s ∧
  pendingFrames s' ⊆ pendingFrames s.
Proof.
  intros Hgum shown s'. subst s'.
  rewrite (startConversation_denied i err s Hgum). fold shown.
  set (x := setError (Some shown) (console_error (start_request s))).
  pose proof (stopConversation_released (stopTime i) x) as Hrel.
  destruct (stopConversation_trace (stopTime i) x) as (tail & Htr & Htail).
  assert (trace x = trace s ++ [SetError None; GetUserMedia; ConsoleError;
                                SetError (Some shown)]) as Hx.
  { subst x. unfold start_request, setError, console_error, emit, addLog.
    cbn. by rewrite <- !app_assoc. }
  split; [by rewrite stopConversation_fields|].
  split.
  { unfold surfaced_errors. rewrite Htr, Hx, !omap_app.
    destruct Htail as [-> | ->]; simpl; by rewrite app_nil_r. }
  split.
  { unfold connects. rewrite Htr, Hx, !filter_app, !length_app.
    destruct Htail as [-> | ->]; simpl; lia. }
  split; [done|].
  split; [by rewrite stopConversation_fields|].
  split; [exact Hrel|].
  rewrite stopConversation_fields. simpl.
  split; [done|].
  split; [by destruct (mediaStreamRef s); [apply subseteq_difference_l|]|].
  split; [by destruct (audioContextRef s); [apply subseteq_difference_l|]|].
  split;
    [by destruct (scriptProcessorRef s); [apply subseteq_difference_l|]|].
  by destruct (animationFrameRef s =? 0); [|apply subseteq_difference_l].
Qed.

Lemma microphone_denied_witness :
  let s' := startConversation denied initial in
  error s' = Some "Permission denied" ∧
  surfaced_errors s' = ["Permission denied"] ∧
  connects s' = 0 ∧ isConnected s' = false ∧ nextHandle s' = 1.
Proof.
  intros s'.
  destruct (microphone_denied denied {| message := Some "Permission denied" |}
              initial eq_refl)
    as (He & Hs & Hc & _ & Hi & _ & Hn & _).
  repeat split; assumption.
Defined.

(** ** The video request and its retry *)

(** C9, as the code has it.  After a first failure that names a missing
    entity or a 403, with [openSelectKey] present: if the selection
    resolves, the request is made once more and whatever it ends with is
    what the section ends with; if the selection rejects, that error is
    what the section throws and no second request is made.  After any
    other first failure, or without [openSelectKey], the first error is
    thrown and neither a selection nor a second request is made.  In no
    case are there more than two requests. *)
Theorem request_retried_once :
  (∀ i err,
     firstRequest i = inl err → stale_key err = true →
     openSelectKey i = Some None →
     (requestVideo i).1
     = [GenerateVideos; ConsoleLog; OpenSelectKey; GenerateVideos] ∧
     selections (requestVideo i).1 = 1 ∧ retries (requestVideo i).1 = 1 ∧
     (requestVideo i).2 = secondRequest i ∧
     surfaced (requestVideo i).2 = surfaced (secondRequest i)) ∧
  (∀ i err cancelled,
     firstRequest i = inl err → stale_key err = true →
     openSelectKey i = Some (Some cancelled) →
     selections (requestVideo i).1 = 1 ∧ retries (requestVideo i).1 = 0 ∧
     (requestVideo i).2 = inl cancelled) ∧
  (∀ i err,
     firstRequest i = inl err →
     stale_key err = false ∨ openSelectKey i = None →
     selections (requestVideo i).1 = 0 ∧ retries (requestVideo i).1 = 0 ∧
     (requestVideo i).2 = inl err) ∧
  (∀ i, retries (requestVideo i).1 ≤ 1).
Proof.
  split; [|split; [|split]].
  - intros i err Hf Hs Hk. unfold requestVideo. by rewrite Hf, Hs, Hk.
  - intros i err cancelled Hf Hs Hk. unfold requestVideo.
    by rewrite Hf, Hs, Hk.
  - intros i err Hf [Hs|Hk]; unfold requestVideo; rewrite Hf.
    + by rewrite Hs.
    + rewrite Hk. by destruct (stale_key err).
  - intros i. unfold requestVideo.
    destruct (firstRequest i) as [err|op]; [|cbn [fst]; compute; lia].
    destruct (stale_key err); [|cbn [fst]; compute; lia].
    destruct (openSelectKey i) as [[cancelled|]|]; cbn [fst]; compute; lia.
Qed.

Lemma request_retried_once_witness :
  retries (requestVideo key_reselected).1 = 1 ∧
  (requestVideo key_reselected).2 = inr 7.
Proof.
  destruct (proj1 request_retried_once key_reselected forbidden)
    as (_ & _ & Hr & Hres & _); [reflexivity..|].
  split; [exact Hr | exact Hres].
Defined.

(** C9 as stated fails when the selection itself fails: the first
    request was refused with a 403 and [openSelectKey] is there, yet the
    request is not retried; the dialog's error is what the user sees. *)
Lemma request_not_retried_when_selection_fails :
  firstRequest key_cancelled = inl forbidden ∧
  stale_key forbidden = true ∧
  is_Some (openSelectKey key_cancelled) ∧
  retries (requestVideo key_cancelled).1 = 0 ∧
  surfaced (requestVideo key_cancelled).2 = Some "cancelled".
Proof. repeat split; try reflexivity. simpl. eauto. Qed.


(** * Further properties of the component *)

(** ** The log stays short *)

Lemma window_length (l : list string) (x : string) :
  length (slice_from (-4) l ++ [x]) ≤ 5.
Proof.
  rewrite slice_from_last4, length_app, length_drop. simpl. lia.
Qed.

Lemma stopConversation_logs now s : length (logs (stopConversation now s)) ≤ 5.
Proof. rewrite stopConversation_fields. apply window_length. Qed.

Lemma stop_begin_logs now s :
  length (logs s) ≤ 5 → length (logs (stop_begin now s)) ≤ 5.
Proof.
  intros Hs. rewrite stop_begin_fields. simpl.
  destruct (audioContextRef s); [done|apply window_length].
Qed.

Lemma start_resume_with_logs teardown i s :
  (∀ now x, length (logs x) ≤ 5 → length (logs (teardown now x)) ≤ 5) →
  length (logs s) ≤ 5 → length (logs (start_resume_with teardown i s)) ≤ 5.
Proof.
  intros Htd Hs. destruct (userMedia i) as [err|u] eqn:Hgum.
  - rewrite (start_resume_with_denied teardown i err) by done.
    by apply Htd.
  - rewrite (start_resume_with_armed teardown i u) by done.
    destruct (sdkThrows i); [|apply window_length].
    apply Htd. apply window_length.
Qed.

Lemma startConversation_logs i s : length (logs (startConversation i s)) ≤ 5.
Proof.
  apply start_resume_with_logs; [|apply window_length].
  intros. apply stopConversation_logs.
Qed.

Lemma onmessage_logs decode m arrival resumed s :
  length (logs s) ≤ 5 →
  length (logs (onmessage decode m arrival resumed s).2) ≤ 5.
Proof.
  intros Hs. unfold onmessage, receive_audio.
  destruct (truthy (inlineData m)); [destruct (decode _)|]; simpl;
    try done; destruct (interrupted m); try done; apply window_length.
Qed.

Lemma step_logs decode s e :
  length (logs s) ≤ 5 → length (logs (step decode s e)) ≤ 5.
Proof.
  intros Hs.
  destruct e as [i|proc|session sendFails|m a r|n|f|session now|now|now
                | |i|m a|m r|session now|now|now|rejected];
    cbn [step].
  - apply startConversation_logs.
  - apply window_length.
  - unfold onaudioprocess. by destruct session, sendFails.
  - by apply onmessage_logs.
  - unfold onended. simpl. by case_match.
  - unfold onframe, draw. case_bool_decide; [|done]. simpl. by case_match.
  - apply stopConversation_logs.
  - apply stopConversation_logs.
  - apply stopConversation_logs.
  - apply window_length.
  - apply start_resume_with_logs; [|done]. apply stop_begin_logs.
  - unfold onmessage_begin.
    destruct (truthy (inlineData m)); [done|by apply onmessage_logs].
  - unfold onmessage_end.
    destruct (truthy (inlineData m)); [destruct (decode _)|]; simpl;
      try done; destruct (interrupted m); try done; apply window_length.
  - apply stop_begin_logs, window_length.
  - by apply stop_begin_logs.
  - by apply stop_begin_logs.
  - rewrite stop_end_fields. apply window_length.
Qed.

(** X1. Whatever happens to the mounted component, its log never holds
    more than five lines: every handler writes to it through [addLog]
    only. *)
Theorem log_never_longer_than_five (decode : string → option AudioBuffer)
    (es : list Event) :
  length (logs (run decode initial es)) ≤ 5.
Proof.
  assert (∀ s, length (logs s) ≤ 5 → length (logs (run decode s es)) ≤ 5)
    as Hrun.
  { induction es as [|e es IH]; intros s Hs; [done|].
    apply IH. by apply step_logs. }
  apply Hrun. simpl. lia.
Qed.

(** ** Only onopen connects *)

Lemma start_resume_with_not_open teardown i s :
  (∀ now x, isConnected x = false → isConnected (teardown now x) = false) →
  isConnected s = false →
  isConnected (start_resume_with teardown i s) = false.
Proof.
  intros Htd Hs. destruct (userMedia i) as [err|u] eqn:Hgum.
  - rewrite (start_resume_with_denied teardown i err) by done.
    by apply Htd.
  - rewrite (start_resume_with_armed teardown i u) by done.
    destruct (sdkThrows i); [|done]. by apply Htd.
Qed.

Lemma stop_begin_not_open now s :
  isConnected s = false → isConnected (stop_begin now s) = false.
Proof.
  intros Hs. rewrite stop_begin_fields. simpl.
  by destruct (audioContextRef s).
Qed.

Lemma onmessage_not_open decode m arrival resumed s :
  isConnected (onmessage decode m arrival resumed s).2 = isConnected s.
Proof.
  unfold onmessage, receive_audio.
  destruct (truthy (inlineData m)); [destruct (decode _)|]; simpl;
    try done; by destruct (interrupted m).
Qed.

Lemma step_not_open decode s e :
  not_open e → isConnected s = false → isConnected (step decode s e) = false.
Proof.
  intros He Hs.
  destruct e as [i|proc|session sendFails|m a r|n|f|session now|now|now
                | |i|m a|m r|session now|now|now|rejected];
    cbn [step].
  2: done.
  - apply start_resume_with_not_open; [|done].
    intros. by rewrite stopConversation_fields.
  - unfold onaudioprocess. by destruct session, sendFails.
  - by rewrite onmessage_not_open.
  - unfold onended. simpl. by case_match.
  - unfold onframe, draw. case_bool_decide; [|done]. simpl. by case_match.
  - unfold onclose. by rewrite stopConversation_fields.
  - unfold onerror. by rewrite stopConversation_fields.
  - by rewrite stopConversation_fields.
  - done.
  - apply start_resume_with_not_open; [|done]. apply stop_begin_not_open.
  - unfold onmessage_begin.
    destruct (truthy (inlineData m)); [done|by rewrite onmessage_not_open].
  - unfold onmessage_end.
    destruct (truthy (inlineData m)); [destruct (decode _)|]; simpl;
      try done; by destruct (interrupted m).
  - by apply stop_begin_not_open.
  - by apply stop_begin_not_open.
  - by apply stop_begin_not_open.
  - by rewrite stop_end_fields.
Qed.

(** X2. The connected flag is turned on by [onopen] and by nothing else:
    from a state that is not connected, no run of other events (starts,
    messages, ['ended'], frames, capture callbacks, teardowns) makes the
    component show itself as connected. *)
Theorem connected_only_by_onopen (decode : string → option AudioBuffer)
    (s : State) (es : list Event) :
  isConnected s = false → Forall not_open es →
  isConnected (run decode s es) = false.
Proof.
  intros Hs Hes. revert s Hs.
  induction Hes as [|e es He _ IH]; intros s Hs; [done|].
  apply IH. by apply step_not_open.
Qed.

Lemma connected_only_by_onopen_witness :
  isConnected
    (run demo_decode initial
       [EvStart granted; EvMessage (chunk "1.0s") (1 # 10) (1 # 10);
        EvAudioProcess (Some 7) false]) = false.
Proof.
  apply connected_only_by_onopen; [reflexivity|repeat constructor].
Defined.


(** ** Chunks that sound together *)

Lemma audible_stop_node now n u : audible (stop_node now n) u → audible n u.
Proof.
  unfold audible, begins, stop_node. destruct (stoppedAt n) eqn:E; simpl.
  - rewrite ?E. tauto.
  - intros (H1 & H2 & _). rewrite ?E. tauto.
Qed.

Lemma stop_sources_audible now ids (m : gmap nat SourceNode) n node u :
  stop_sources now ids m !! n = Some node → audible node u →
  ∃ old, m !! n = Some old ∧ audible old u.
Proof.
  rewrite stop_sources_lookup. case_decide; [|eauto].
  destruct (m !! n) as [old|]; simpl; [|done]. intros [= <-] Ha.
  exists old. split; [done|]. by eapply audible_stop_node.
Qed.

Lemma hushed_same h s s' t :
  nodes s' = nodes s → nextStartTimeRef s' = nextStartTimeRef s →
  hushed h s t → hushed h s' t.
Proof. unfold hushed. by intros -> ->. Qed.

Lemma solo_same h s s' : nodes s' = nodes s → solo h s → solo h s'.
Proof. unfold solo. by intros ->. Qed.

Lemma hushed_later h s t t' : (t <= t')%Q → hushed h s t → hushed h s t'.
Proof.
  intros Ht Hs n node u Hh Hn Ha. apply Q.max_lt_iff.
  destruct (proj1 (Q.max_lt_iff _ _ _) (Hs n node u Hh Hn Ha)) as [H|H];
    [by left|right]. by eapply Qlt_le_trans.
Qed.

Lemma hushed_receive h s t arrival :
  hushed h s t →
  hushed h (set_nextStartTimeRef (Qmax (nextStartTimeRef s) arrival)
              (set_isSpeaking true s)) t.
Proof.
  intros Hs n node u Hh Hn Ha. simpl. apply Q.max_lt_iff.
  destruct (proj1 (Q.max_lt_iff _ _ _) (Hs n node u Hh Hn Ha)) as [H|H];
    [left|by right]. apply Q.max_lt_iff. by left.
Qed.

(** A chunk handed to [start] in time begins at the cursor, after all
    that the earlier nodes sound, and ends where the cursor is moved to. *)
Lemma schedule_after_all h buf now s t :
  (t <= now)%Q → (now <= nextStartTimeRef s)%Q → hushed h s t → solo h s →
  hushed h (schedule buf now s) now ∧ solo h (schedule buf now s).
Proof.
  intros Ht Hnow Hh Hsolo.
  pose proof (buffer_duration_nonneg buf) as Hd.
  assert (∀ n node u, h ≤ n → nodes s !! n = Some node → audible node u →
                      (u < nextStartTimeRef s)%Q) as Hbefore.
  { intros n node u Hn Hlook Ha.
    destruct (proj1 (Q.max_lt_iff _ _ _) (Hh n node u Hn Hlook Ha)) as [H|H];
      [done|]. lra. }
  assert (Qmax (nextStartTimeRef s) now == nextStartTimeRef s)%Q as Hbegin
    by (by apply Q.max_l).
  split.
  - intros n node u Hn. unfold schedule. simpl.
    destruct (decide (nextHandle s = n)) as [<-|Hne].
    + rewrite lookup_insert_eq. intros [= <-] (_ & Hend & _).
      unfold begins in Hend. simpl in Hend.
      apply Q.max_lt_iff. left. lra.
    + rewrite lookup_insert_ne by done. intros Hlook Ha.
      apply Q.max_lt_iff. left.
      pose proof (Hbefore n node u Hn Hlook Ha). lra.
  - intros n1 n2 node1 node2 u Hh1 Hh2 Hne. unfold schedule. simpl.
    destruct (decide (nextHandle s = n1)) as [<-|H1];
      destruct (decide (nextHandle s = n2)) as [<-|H2]; [done| | |].
    + rewrite lookup_insert_eq, lookup_insert_ne by done.
      intros [= <-] Hn2 [(Hstart & _) Ha2].
      unfold begins in Hstart. simpl in Hstart.
      pose proof (Hbefore n2 node2 u Hh2 Hn2 Ha2). lra.
    + rewrite lookup_insert_ne, lookup_insert_eq by done.
      intros Hn1 [= <-] [Ha1 (Hstart & _)].
      unfold begins in Hstart. simpl in Hstart.
      pose proof (Hbefore n1 node1 u Hh1 Hn1 Ha1). lra.
    + rewrite !lookup_insert_ne by done. by apply Hsolo.
Qed.

Lemma interrupt_quietens h now s t :
  (t <= now)%Q → settled h s t → solo h s →
  hushed h (interrupt now s) now ∧ solo h (interrupt now s).
Proof.
  intros Ht Hs Hsolo.
  pose proof (settled_interrupt h now s t Ht Hs) as Hafter. split.
  - intros n node u Hh Hn Ha. apply Q.max_lt_iff. left.
    change (nextStartTimeRef (interrupt now s)) with now.
    apply Qnot_le_lt. intros Hu.
    destruct (Hafter n node Hh Hn) as [Hfin _].
    eapply finished_silent; [apply Hfin| |]; [|done..].
    apply not_elem_of_empty.
  - intros n1 n2 node1 node2 u Hh1 Hh2 Hne Hn1 Hn2 [Ha1 Ha2].
    unfold interrupt in Hn1, Hn2. simpl in Hn1, Hn2.
    destruct (stop_sources_audible _ _ _ _ _ _ Hn1 Ha1) as (o1 & Ho1 & Hb1).
    destruct (stop_sources_audible _ _ _ _ _ _ Hn2 Ha2) as (o2 & Ho2 & Hb2).
    by apply (Hsolo n1 n2 o1 o2 u).
Qed.

Lemma playing_scheduled h buf m now s t :
  (t <= now)%Q → (now <= nextStartTimeRef s)%Q →
  settled h s t → hushed h s t → solo h s →
  let scheduled := schedule buf now s in
  let s' := if interrupted m then interrupt now scheduled else scheduled in
  hushed h s' now ∧ solo h s'.
Proof.
  intros Ht Hnow Hs Hh Hsolo scheduled s'. subst s' scheduled.
  destruct (schedule_after_all h buf now s t Ht Hnow Hh Hsolo)
    as [Hh' Hsolo'].
  destruct (interrupted m); [|done].
  apply (interrupt_quietens h now _ t); [done| |done].
  by apply settled_schedule.
Qed.

Lemma playing_unheard h m now s t :
  (t <= now)%Q → settled h s t → hushed h s t → solo h s →
  let s' := if interrupted m then interrupt now s else s in
  hushed h s' now ∧ solo h s'.
Proof.
  intros Ht Hs Hh Hsolo s'. subst s'.
  destruct (interrupted m).
  - by apply (interrupt_quietens h now _ t).
  - split; [by apply (hushed_later h _ t)|done].
Qed.

Lemma playing_onmessage h decode m arrival resumed s t :
  (t <= arrival)%Q → (arrival <= resumed)%Q →
  (truthy (inlineData m) = true →
   (resumed <= Qmax (nextStartTimeRef s) arrival)%Q) →
  settled h s t → hushed h s t → solo h s →
  hushed h (onmessage decode m arrival resumed s).2 resumed ∧
  solo h (onmessage decode m arrival resumed s).2.
Proof.
  intros Ha Hr Htime Hs Hh Hsolo.
  assert (t <= resumed)%Q as Ht by lra.
  unfold onmessage, receive_audio.
  set (s1 := set_nextStartTimeRef _ _).
  assert (settled h s1 t) as Hs1 by (by apply (settled_same h s)).
  assert (hushed h s1 t) as Hh1 by exact (hushed_receive h s t arrival Hh).
  assert (solo h s1) as Hsolo1 by (by apply (solo_same h s)).
  destruct (truthy (inlineData m)).
  - destruct (decode _) as [buf|]; cbn [fst snd].
    + apply (playing_scheduled h buf m resumed s1 t); try done.
      by apply Htime.
    + split; [by apply (hushed_later h _ t)|done].
  - cbn [fst snd]. by apply (playing_unheard h m resumed s t).
Qed.

Lemma playing_step h decode s t e t' :
  in_session s t e t' → on_time s e →
  settled h s t → hushed h s t → solo h s →
  hushed h (step decode s e) t' ∧ solo h (step decode s e).
Proof.
  intros [Ht He] Htime Hs Hh Hsolo.
  destruct e as [i|proc|session sendFails|m a r|n|f|session now|now|now
                | |i|m a|m r|session now|now|now|rejected];
    cbn [step]; try done.
  - split; [by apply (hushed_same h s), (hushed_later h s t)|done].
  - split; [apply (hushed_same h s)|apply (solo_same h s)];
      try (by apply (hushed_later h s t)); try done;
      unfold onaudioprocess; by destruct session, sendFails.
  - destruct He as (Ha & Har & Hr).
    destruct (playing_onmessage h decode m a r s t) as [Hh' Hsolo'];
      [done..|].
    split; [by apply (hushed_later h _ r)|done].
  - split; [apply (hushed_same h s)|apply (solo_same h s)];
      try (by apply (hushed_later h s t)); try done;
      unfold onended; by case_match.
  - split; [apply (hushed_same h s)|apply (solo_same h s)];
      try (by apply (hushed_later h s t)); try done;
      unfold onframe, draw; case_bool_decide; try done; simpl;
      by case_match.
  - destruct He as (Ha & Ha').
    unfold onmessage_begin. destruct (truthy (inlineData m)) eqn:Htr.
    + unfold receive_audio. cbn [snd].
      split; [|by apply (solo_same h s)].
      apply (hushed_later h _ t); [done|].
      exact (hushed_receive h s t a Hh).
    + destruct (playing_onmessage h decode m a a s t) as [Hh' Hsolo'];
        [done|lra|by rewrite Htr|done..|].
      split; [by apply (hushed_later h _ a)|done].
  - destruct He as (Hr & Hr'). cbn [on_time] in Htime.
    unfold onmessage_end. destruct (truthy (inlineData m)).
    + destruct (decode _) as [buf|]; cbn [fst snd].
      * destruct (playing_scheduled h buf m r s t) as [Hh' Hsolo'];
          [done|by apply Htime|done..|].
        split; [by apply (hushed_later h _ r)|done].
      * split; [by apply (hushed_later h s t)|done].
    + split; [by apply (hushed_later h s t)|done].
  - rewrite stop_end_fields.
    split; [by apply (hushed_same h s), (hushed_later h s t)|done].
Qed.

Lemma playing_session h decode es s t :
  session decode s t es → punctual decode s (es.*1) →
  settled h s t → hushed h s t → solo h s →
  solo h (run decode s (es.*1)).
Proof.
  revert s t. induction es as [|[e t'] es IH]; intros s t; [done|].
  intros [He Hrest] [Htime Hpunctual] Hs Hh Hsolo. simpl.
  destruct (playing_step h decode s t e t' He Htime Hs Hh Hsolo)
    as [Hh' Hsolo'].
  apply (IH _ t'); [done|done| |done..]. by eapply settled_step.
Qed.

(** X4. In a session of the mounted component, the first or a later one,
    with handlers running into each other or not, and whatever the
    arrival times, the durations, the decode outcomes and the
    interruptions: as long as every chunk is handed to [start] no later
    than the start time it is given, no two chunks of the session are ever
    audible at the same moment.  (Times are exact here; the rounding of
    the cursor's double on line 202 is not modelled.) *)
Theorem chunks_never_overlap (decode : string → option AudioBuffer)
    (history : list Event) (t0 : Q) (es : list (Event * Q)) :
  let s0 := run decode initial history in
  let s := run decode s0 (es.*1) in
  session decode s0 t0 es → punctual decode s0 (es.*1) →
  ∀ n1 n2 node1 node2 u,
    nextHandle s0 ≤ n1 → nextHandle s0 ≤ n2 → n1 ≠ n2 →
    nodes s !! n1 = Some node1 → nodes s !! n2 = Some node2 →
    ¬ (audible node1 u ∧ audible node2 u).
Proof.
  intros s0 s Hes Hpunctual.
  assert (tallied s0) as (Hfresh & _) by apply tallied_run, tallied_initial.
  assert (∀ n node, nextHandle s0 ≤ n → nodes s0 !! n = Some node → False)
    as Hnone.
  { intros n node Hn Hlook. assert (n < nextHandle s0); [|lia].
    apply Hfresh, elem_of_dom. eauto. }
  apply (playing_session (nextHandle s0) decode es s0 t0 Hes Hpunctual).
  - intros n node Hn Hlook. by destruct (Hnone n node).
  - intros n node u Hn Hlook. by destruct (Hnone n node).
  - intros n1 n2 node1 node2 u Hn1 _ _ Hlook. by destruct (Hnone n1 node1).
Qed.

Lemma chunks_never_overlap_witness :
  ¬ (audible {| startAt := 1 # 10; calledAt := 1 # 10;
                duration := 24000 # 24000; stoppedAt := None |} (11 # 10)
     ∧ audible {| startAt := 264000 # 240000; calledAt := 2 # 10;
                  duration := 12000 # 24000; stoppedAt := None |}
               (11 # 10)).
Proof.
  apply (chunks_never_overlap demo_decode (take 2 three_chunks) 0%Q
           two_chunks) with (n1 := 8) (n2 := 9).
  - vm_compute. repeat split; discriminate.
  - vm_compute. repeat split; discriminate.
  - vm_compute. lia.
  - vm_compute. lia.
  - lia.
  - vm_compute. reflexivity.
  - vm_compute. reflexivity.
Defined.

(** X18. In a session that is up, a chunk that arrives when nothing is
    queued is given the clock reading at its arrival as start time, but
    it is handed to [start] only when its decode has settled, so it begins
    that much later and runs past the time the cursor was moved to.  A
    second chunk that arrives and is decoded before that time starts
    exactly there: at that moment both chunks are audible. *)
Theorem late_start_overlaps_next_chunk (decode : string → option AudioBuffer)
    (s : State) (m1 m2 : LiveServerMessage) (a1 r1 a2 r2 : Q)
    (data1 data2 : string) (buf1 buf2 : AudioBuffer) :
  inlineData m1 = Some data1 → data1 ≠ "" → decode data1 = Some buf1 →
  interrupted m1 = false →
  inlineData m2 = Some data2 → data2 ≠ "" → decode data2 = Some buf2 →
  interrupted m2 = false →
  (nextStartTimeRef s <= a1)%Q → (a1 < r1)%Q → (r1 <= a2)%Q →
  (a2 <= r2)%Q → (r2 <= a1 + buffer_duration buf1)%Q →
  (0 < buffer_duration buf2)%Q →
  playing_out s →
  let s' := run decode s [EvMessage m1 a1 r1; EvMessage m2 a2 r2] in
  let u := (a1 + buffer_duration buf1)%Q in
  playing_out s' ∧
  ∃ node1 node2,
    nodes s' !! nextHandle s = Some node1 ∧
    nodes s' !! S (nextHandle s) = Some node2 ∧
    audible node1 u ∧ audible node2 u.
Proof.
  intros Hm1 Hne1 Hd1 Hi1 Hm2 Hne2 Hd2 Hi2 Hc Har1 Hra Har2 Hr2 Hlen Hout
    s' u.
  pose proof (buffer_duration_nonneg buf1) as Hlen1.
  subst s'. cbn [run foldl step].
  rewrite (onmessage_decoded decode m1 a1 r1 s data1 buf1) by done.
  rewrite Hi1. cbn [snd].
  rewrite (onmessage_decoded decode m2 a2 r2 _ data2 buf2) by done.
  rewrite Hi2. cbn [snd].
  split; [exact Hout|].
  exists {| startAt := Qmax (nextStartTimeRef s) a1; calledAt := r1;
            duration := buffer_duration buf1; stoppedAt := None |},
         {| startAt := Qmax (Qmax (nextStartTimeRef s) a1
                             + buffer_duration buf1) a2;
            calledAt := r2;
            duration := buffer_duration buf2; stoppedAt := None |}.
  split; [|split; [|split]].
  - unfold schedule, receive_audio. cbn [fst snd]. fields.
    rewrite lookup_insert_ne by lia. by rewrite lookup_insert_eq.
  - unfold schedule, receive_audio. cbn [fst snd]. fields.
    by rewrite lookup_insert_eq.
  - unfold audible, begins. cbn [startAt calledAt duration stoppedAt].
    subst u.
    pose proof (Q.max_spec (nextStartTimeRef s) a1) as [[L1 E1]|[L1 E1]];
      pose proof (Q.max_spec (Qmax (nextStartTimeRef s) a1) r1)
        as [[L2 E2]|[L2 E2]];
      repeat split; lra.
  - unfold audible, begins. cbn [startAt calledAt duration stoppedAt].
    subst u.
    pose proof (Q.max_spec (nextStartTimeRef s) a1) as [[L1 E1]|[L1 E1]];
      pose proof (Q.max_spec
                    (Qmax (nextStartTimeRef s) a1 + buffer_duration buf1) a2)
        as [[L2 E2]|[L2 E2]];
      pose proof (Q.max_spec
                    (Qmax
                       (Qmax (nextStartTimeRef s) a1 + buffer_duration buf1)
                       a2) r2)
        as [[L3 E3]|[L3 E3]];
      repeat split; lra.
Qed.

Lemma late_start_overlaps_next_chunk_witness :
  playing_out
    (run demo_decode connected
       [EvMessage (chunk "1.0s") (1 # 10) (15 # 100);
        EvMessage (chunk "0.5s") (2 # 10) (2 # 10)]) ∧
  ∃ node1 node2,
    nodes (run demo_decode connected
             [EvMessage (chunk "1.0s") (1 # 10) (15 # 100);
              EvMessage (chunk "0.5s") (2 # 10) (2 # 10)]) !! 8
    = Some node1 ∧
    nodes (run demo_decode connected
             [EvMessage (chunk "1.0s") (1 # 10) (15 # 100);
              EvMessage (chunk "0.5s") (2 # 10) (2 # 10)]) !! 9
    = Some node2 ∧
    audible node1 ((1 # 10) + (24000 # 24000))%Q ∧
    audible node2 ((1 # 10) + (24000 # 24000))%Q.
Proof.
  apply (late_start_overlaps_next_chunk demo_decode connected
           (chunk "1.0s") (chunk "0.5s") (1 # 10) (15 # 100) (2 # 10)
           (2 # 10) "1.0s" "0.5s"
           {| frames := 24000; sampleRate := 24000 |}
           {| frames := 12000; sampleRate := 24000 |});
    try reflexivity; try discriminate;
    try (vm_compute; discriminate).
  exists 2. split; [reflexivity|].
  apply elem_of_elements. vm_compute. left.
Defined.

(** ** A teardown silences the session *)

Lemma step_tears_down decode s e now :
  tears_down e now →
  nodes (step decode s e) = stop_sources now (elements (sourcesRef s)) (nodes s).
Proof.
  destruct e as [i|proc|session sendFails|m a r|n|f|session t|t|t
                | |i|m a|m r|session t|t|t|rejected];
    cbn [step tears_down]; try done; intros <-.
  - unfold onclose. by rewrite stopConversation_fields.
  - unfold onerror. by rewrite stopConversation_fields.
  - by rewrite stopConversation_fields.
  - by rewrite stop_begin_fields.
  - by rewrite stop_begin_fields.
  - by rewrite stop_begin_fields.
Qed.

(** X5. A teardown silences the session it ends.  In a session of the
    mounted component, the first or a later one, with handlers running
    into each other or not: after [stopConversation], however it was
    called (the stop button, [onclose] or [onerror]) and already when it
    has got as far as its await, no node started in the session is
    audible from the clock reading of the teardown on. *)
Theorem teardown_silences (decode : string → option AudioBuffer)
    (history : list Event) (t0 : Q) (es : list (Event * Q))
    (e : Event) (now : Q) :
  let s0 := run decode initial history in
  let s := run decode s0 (es.*1) in
  session decode s0 t0 es → (end_time t0 es <= now)%Q →
  tears_down e now →
  ∀ n node u, nextHandle s0 ≤ n → nodes (step decode s e) !! n = Some node →
              (now <= u)%Q → ¬ audible node u.
Proof.
  intros s0 s Hes Hnow He n node u Hh Hn Hu.
  destruct (session_settled decode history t0 es Hes) as [Hs _].
  fold s0 s in Hs.
  rewrite (step_tears_down decode s e now He) in Hn.
  destruct (settled_interrupt _ now s _ Hnow Hs n node Hh Hn) as [Hfin _].
  eapply finished_silent; [apply Hfin|done]. apply not_elem_of_empty.
Qed.

Lemma teardown_silences_witness :
  ¬ audible {| startAt := 264000 # 240000; calledAt := 2 # 10;
               duration := 12000 # 24000; stoppedAt := Some (1 # 2)%Q |}
            (12 # 10).
Proof.
  apply (teardown_silences demo_decode (take 2 three_chunks) 0%Q two_chunks
           (EvStopping (1 # 2)) (1 # 2)%Q) with (n := 9).
  - vm_compute. repeat split; discriminate.
  - vm_compute. discriminate.
  - reflexivity.
  - vm_compute. lia.
  - vm_compute. reflexivity.
  - vm_compute. discriminate.
Defined.


(** ** The input context is never closed *)

Lemma stranded_stop c now s : stranded c s → stranded c (stopConversation now s).
Proof.
  intros (Hin & Hlt & Href). rewrite stopConversation_fields.
  unfold stranded. simpl. split; [|done].
  destruct (audioContextRef s) as [ctx|]; [|done].
  apply elem_of_difference. split; [done|].
  intros ->%elem_of_singleton. by destruct Href.
Qed.

Lemma stranded_stop_begin c now s :
  stranded c s → stranded c (stop_begin now s).
Proof.
  intros (Hin & Hlt & Href). rewrite stop_begin_fields.
  unfold stranded. simpl. split; [|done].
  destruct (audioContextRef s) as [ctx|]; [|done].
  apply elem_of_difference. split; [done|].
  intros ->%elem_of_singleton. by destruct Href.
Qed.

Lemma stranded_same c s s' :
  runningContexts s' = runningContexts s → nextHandle s ≤ nextHandle s' →
  audioContextRef s' = audioContextRef s →
  stranded c s → stranded c s'.
Proof.
  unfold stranded. intros -> Hh ->. intros (? & ? & ?).
  split; [done|]. split; [lia|done].
Qed.

Lemma stranded_catch_with teardown c err now s :
  (∀ now x, stranded c x → stranded c (teardown now x)) →
  stranded c s → stranded c (start_catch_with teardown err now s).
Proof.
  intros Htd Hs. unfold start_catch_with. apply Htd.
  by apply (stranded_same c s).
Qed.

Lemma stranded_catch c err now s :
  stranded c s → stranded c (start_catch err now s).
Proof. apply stranded_catch_with. intros. by apply stranded_stop. Qed.

Lemma stranded_armed c i s : stranded c s → stranded c (armed i s).
Proof.
  intros (Hin & Hlt & Href). unfold stranded, armed. simpl. split; [|split].
  - apply elem_of_union. right. apply elem_of_union. by right.
  - destruct (canvasReady i); lia.
  - intros [= <-]. lia.
Qed.

Lemma stranded_resume_with teardown c i s :
  (∀ now x, stranded c x → stranded c (teardown now x)) →
  stranded c s → stranded c (start_resume_with teardown i s).
Proof.
  intros Htd Hs. destruct (userMedia i) as [err|u] eqn:Hgum.
  - rewrite (start_resume_with_denied teardown i err) by done.
    by apply stranded_catch_with.
  - rewrite (start_resume_with_armed teardown i u) by done.
    pose proof (stranded_armed c i _ Hs) as Harmed.
    destruct (sdkThrows i).
    + by apply stranded_catch_with.
    + apply (stranded_same c (armed i s)); simpl; [done|lia|done|done].
Qed.

Lemma stranded_request c s : stranded c s → stranded c (start_request s).
Proof.
  intros Hs. apply (stranded_same c s);
    [reflexivity|apply le_n|reflexivity|exact Hs].
Qed.

Lemma stranded_start c i s : stranded c s → stranded c (startConversation i s).
Proof.
  intros Hs. unfold startConversation.
  apply stranded_resume_with; [|by apply stranded_request].
  intros. by apply stranded_stop.
Qed.

Lemma stranded_onmessage decode c m arrival resumed s :
  stranded c s → stranded c (onmessage decode m arrival resumed s).2.
Proof.
  intros Hs. unfold onmessage, receive_audio.
  destruct (truthy (inlineData m)); [destruct (decode _) as [buf|]|];
    cbn [fst snd]; try done.
  - apply (stranded_same c s); [| | |done];
      destruct (interrupted m); simpl; (done || lia).
  - by destruct (interrupted m).
Qed.

Lemma stranded_step decode c s e :
  stranded c s → stranded c (step decode s e).
Proof.
  intros Hs.
  destruct e as [i|proc|session sendFails|m a r|n|f|session now|now|now
                | |i|m a|m r|session now|now|now|rejected];
    cbn [step].
  - by apply stranded_start.
  - done.
  - unfold onaudioprocess. by destruct session, sendFails.
  - by apply stranded_onmessage.
  - unfold onended. simpl. by case_match.
  - unfold onframe, draw. case_bool_decide; [|done]. simpl.
    case_match; [|done]. apply (stranded_same c s); simpl; [done|lia|done..].
  - unfold onclose. by apply stranded_stop.
  - unfold onerror. by apply stranded_stop.
  - by apply stranded_stop.
  - by apply stranded_request.
  - apply stranded_resume_with; [|done]. intros. by apply stranded_stop_begin.
  - unfold onmessage_begin.
    destruct (truthy (inlineData m)); [done|by apply stranded_onmessage].
  - unfold onmessage_end.
    destruct (truthy (inlineData m)); [destruct (decode _) as [buf|]|];
      cbn [fst snd]; try done.
    apply (stranded_same c s); [| | |done];
      destruct (interrupted m); simpl; (done || lia).
  - by apply stranded_stop_begin.
  - by apply stranded_stop_begin.
  - by apply stranded_stop_begin.
  - destruct Hs as (Hin & Hlt & Href). rewrite stop_end_fields.
    by split.
Qed.

(** X6. The second audio context that [startConversation] creates for
    the microphone (line 124) is kept in no ref and closed by no
    handler: once a start has got the microphone, that context is still
    running after any later events, teardowns and further starts
    included. *)
Theorem input_context_never_closed (decode : string → option AudioBuffer)
    (i : StartInputs) (u : unit) (s : State) (es : list Event) :
  userMedia i = inr u →
  S (S (nextHandle s)) ∈ runningContexts (run decode (startConversation i s) es).
Proof.
  intros Hgum.
  assert (∀ c x, stranded c x → stranded c (run decode x es)) as Hrun.
  { intros c. induction es as [|e es IH]; intros x Hx; [done|].
    apply IH. by apply stranded_step. }
  apply (Hrun (S (S (nextHandle s)))).
  unfold startConversation. rewrite (start_resume_armed i u) by done.
  assert (stranded (S (S (nextHandle s))) (armed i (start_request s)))
    as Harmed.
  { unfold stranded, armed. simpl. split; [|split].
    - apply elem_of_union. left. by apply elem_of_singleton.
    - destruct (canvasReady i); lia.
    - intros [= H]. lia. }
  destruct (sdkThrows i).
  - by apply stranded_catch.
  - apply (stranded_same _ (armed i (start_request s))); simpl;
      [done|lia|done|done].
Qed.

Lemma input_context_never_closed_witness :
  3 ∈ runningContexts
        (run demo_decode (startConversation granted initial)
           [EvOpen 4; EvStop 1%Q; EvStart granted; EvError 2%Q]).
Proof.
  apply (input_context_never_closed demo_decode granted () initial).
  reflexivity.
Defined.

(** ** The SDK fails after the audio setup *)

(** X7. When the microphone was granted but the SDK constructor throws,
    the catch shows that error once and makes no connect; the teardown it
    runs gives back what this start had taken through refs (microphone,
    output context, visualizer frame) and leaves no handle behind, but
    the input context of this start stays running. *)
Theorem sdk_failure_after_setup (i : StartInputs) (u : unit) (err : JsError)
    (s : State) :
  userMedia i = inr u → sdkThrows i = Some err →
  let h := nextHandle s in
  let s' := startConversation i s in
  error s' = Some (or_else (message err) "Failed to start conversation") ∧
  surfaced_errors s'
  = surfaced_errors s
    ++ [or_else (message err) "Failed to start conversation"] ∧
  connects s' = connects s ∧
  isConnected s' = false ∧
  mediaStreamRef s' = None ∧ audioContextRef s' = None ∧
  scriptProcessorRef s' = None ∧ analyserRef s' = None ∧
  animationFrameRef s' = 0 ∧
  (h ∉ liveStreams s') ∧ (S h ∉ runningContexts s') ∧
  (canvasReady i = true → S (S (S (S (S h)))) ∉ pendingFrames s') ∧
  S (S h) ∈ runningContexts s'.
Proof.
  intros Hgum Hsdk h s'. subst s'. unfold startConversation.
  rewrite (start_resume_armed i u) by done. rewrite Hsdk.
  unfold start_catch, start_catch_with.
  set (shown := or_else (message err) "Failed to start conversation").
  set (x := setError (Some shown) (console_error (armed i (start_request s)))).
  pose proof (stopConversation_released (stopTime i) x)
    as (Hfr & Han & Hpf & _ & Hms & Hls & Hpr & _ & _ & _ & Hac & Hrc & Hco & _).
  destruct (stopConversation_trace (stopTime i) x) as (tail & Htr & Htail).
  assert (trace x = trace s ++ [SetError None; GetUserMedia; ConsoleError;
                                SetError (Some shown)]) as Hx.
  { subst x. unfold armed, start_request, setError, console_error, emit,
      addLog. cbn. by rewrite <- !app_assoc. }
  split; [by rewrite stopConversation_fields|].
  split.
  { unfold surfaced_errors. rewrite Htr, Hx, !omap_app.
    destruct Htail as [-> | ->]; simpl; by rewrite app_nil_r. }
  split.
  { unfold connects. rewrite Htr, Hx, !filter_app, !length_app.
    destruct Htail as [-> | ->]; simpl; lia. }
  split; [done|]. split; [done|]. split; [done|]. split; [done|].
  split; [done|]. split; [done|].
  split; [by apply Hls|]. split; [by apply Hrc|].
  split.
  { intros Hcanvas.
    assert (animationFrameRef x = S (S (S (S (S h))))) as Hf
      by (subst x; simpl; by rewrite Hcanvas).
    rewrite <- Hf. apply Hpf. by rewrite Hf. }
  rewrite stopConversation_fields. simpl.
  apply elem_of_difference. split.
  - apply elem_of_union. left. by apply elem_of_singleton.
  - intros [= H]%elem_of_singleton. lia.
Qed.

Lemma sdk_failure_after_setup_witness :
  let s' := startConversation sdk_broken initial in
  error s' = Some "An API Key must be set" ∧ connects s' = 0 ∧
  mediaStreamRef s' = None ∧ (1 ∉ liveStreams s') ∧
  3 ∈ runningContexts s'.
Proof.
  intros s'.
  destruct (sdk_failure_after_setup sdk_broken ()
              {| message := Some "An API Key must be set" |} initial
              eq_refl eq_refl)
    as (He & _ & Hc & _ & Hm & _ & _ & _ & _ & Hl & _ & _ & Hr).
  repeat split; assumption.
Defined.

(** ** The visualizer loop after a teardown *)

Lemma onframe_stopped f s :
  analyserRef s = None →
  analyserRef (onframe f s) = None ∧
  animationFrameRef (onframe f s) = animationFrameRef s ∧
  nextHandle (onframe f s) = nextHandle s ∧
  pendingFrames (onframe f s) = pendingFrames s ∖ {[f]}.
Proof.
  intros Han. unfold onframe, draw. case_bool_decide as Hf; simpl.
  - by rewrite Han.
  - repeat split; try done. symmetry. apply difference_disjoint_L.
    by apply disjoint_singleton_r.
Qed.

(** X8. After a teardown the visualizer loop dies out: frame callbacks
    that still fire find no analyser, so each one only leaves the set of
    pending frames and none requests a new frame. *)
Theorem frames_die_out_after_teardown (decode : string → option AudioBuffer)
    (now : Q) (s : State) (es : list Event) :
  Forall is_frame es →
  let stopped := stopConversation now s in
  let s' := run decode stopped es in
  nextHandle s' = nextHandle stopped ∧
  animationFrameRef s' = 0 ∧
  pendingFrames s' ⊆ pendingFrames stopped ∧
  (∀ f, EvFrame f ∈ es → f ∉ pendingFrames s').
Proof.
  intros Hes stopped s'. subst s'.
  assert (analyserRef stopped = None ∧ animationFrameRef stopped = 0)
    as [Han Hfr] by (subst stopped; by rewrite stopConversation_fields).
  clearbody stopped. revert stopped Han Hfr.
  induction Hes as [|e es He _ IH]; intros x Han Hfr.
  - simpl. repeat split; try done. by intros f ?%elem_of_nil.
  - destruct e as [| | | | |f| | | | | | | | | | |]; try done.
    cbn [run foldl step].
    fold (run decode (onframe f x) es).
    destruct (onframe_stopped f x Han) as (Han' & Hfr' & Hh' & Hpf').
    destruct (IH (onframe f x)) as (Hh & Hz & Hsub & Hgone);
      [done|congruence|].
    split; [congruence|]. split; [done|].
    assert (pendingFrames (run decode (onframe f x) es)
            ⊆ pendingFrames x ∖ {[f]}) as Hsub' by (by rewrite <- Hpf').
    split; [etrans; [exact Hsub'|]; by apply subseteq_difference_l|].
    intros g [[= <-]|Hin]%elem_of_cons; [|by apply Hgone].
    intros Hf%Hsub'. apply elem_of_difference in Hf as [_ Hf].
    apply Hf. by apply elem_of_singleton.
Qed.

Lemma frames_die_out_after_teardown_witness :
  pendingFrames
    (run demo_decode (stopConversation 1%Q connected) [EvFrame 6; EvFrame 6])
  ⊆ pendingFrames (stopConversation 1%Q connected).
Proof.
  apply (frames_die_out_after_teardown demo_decode 1%Q connected
           [EvFrame 6; EvFrame 6]).
  repeat constructor.
Defined.

(** ** Starting twice *)

Lemma stranded_stream_stop c now s :
  stranded_stream c s → stranded_stream c (stopConversation now s).
Proof.
  intros (Hin & Hlt & Href). rewrite stopConversation_fields.
  unfold stranded_stream. simpl. split; [|done].
  destruct (mediaStreamRef s) as [stream|]; [|done].
  apply elem_of_difference. split; [done|].
  intros ->%elem_of_singleton. by destruct Href.
Qed.

Lemma stranded_stream_stop_begin c now s :
  stranded_stream c s → stranded_stream c (stop_begin now s).
Proof.
  intros (Hin & Hlt & Href). rewrite stop_begin_fields.
  unfold stranded_stream. simpl. split; [|done].
  destruct (mediaStreamRef s) as [stream|]; [|done].
  apply elem_of_difference. split; [done|].
  intros ->%elem_of_singleton. by destruct Href.
Qed.

Lemma stranded_stream_same c s s' :
  liveStreams s' = liveStreams s → nextHandle s ≤ nextHandle s' →
  mediaStreamRef s' = mediaStreamRef s →
  stranded_stream c s → stranded_stream c s'.
Proof.
  unfold stranded_stream. intros -> Hh ->. intros (? & ? & ?).
  split; [done|]. split; [lia|done].
Qed.

Lemma stranded_stream_catch_with teardown c err now s :
  (∀ now x, stranded_stream c x → stranded_stream c (teardown now x)) →
  stranded_stream c s →
  stranded_stream c (start_catch_with teardown err now s).
Proof.
  intros Htd Hs. unfold start_catch_with. apply Htd.
  by apply (stranded_stream_same c s).
Qed.

Lemma stranded_stream_armed c i s :
  c ∈ liveStreams s → c < nextHandle s → stranded_stream c (armed i s).
Proof.
  intros Hin Hlt. unfold stranded_stream, armed. simpl. split; [|split].
  - apply elem_of_union. by right.
  - destruct (canvasReady i); lia.
  - intros [= <-]. lia.
Qed.

Lemma stranded_stream_resume_with teardown c i s :
  (∀ now x, stranded_stream c x → stranded_stream c (teardown now x)) →
  c ∈ liveStreams s → c < nextHandle s →
  mediaStreamRef s ≠ Some c ∨ (∃ u, userMedia i = inr u) →
  stranded_stream c (start_resume_with teardown i s).
Proof.
  intros Htd Hin Hlt Hcase.
  destruct (userMedia i) as [err|u] eqn:Hgum.
  - destruct Hcase as [Href|[u [=]]].
    rewrite (start_resume_with_denied teardown i err) by done.
    by apply stranded_stream_catch_with.
  - rewrite (start_resume_with_armed teardown i u) by done.
    assert (stranded_stream c (armed i s)) as Harmed
      by (by apply stranded_stream_armed).
    destruct (sdkThrows i); [by apply stranded_stream_catch_with|].
    apply (stranded_stream_same c (armed i s)); simpl;
      [done|lia|done|done].
Qed.

Lemma stranded_stream_start c i s :
  c ∈ liveStreams s → c < nextHandle s →
  mediaStreamRef s ≠ Some c ∨ (∃ u, userMedia i = inr u) →
  stranded_stream c (startConversation i s).
Proof.
  intros Hin Hlt Hcase. unfold startConversation.
  apply stranded_stream_resume_with; try done.
  intros. by apply stranded_stream_stop.
Qed.

Lemma stranded_stream_onmessage decode c m arrival resumed s :
  stranded_stream c s →
  stranded_stream c (onmessage decode m arrival resumed s).2.
Proof.
  intros Hs. unfold onmessage, receive_audio.
  destruct (truthy (inlineData m)); [destruct (decode _) as [buf|]|];
    cbn [fst snd]; try done.
  - apply (stranded_stream_same c s); [| | |done];
      destruct (interrupted m); simpl; (done || lia).
  - by destruct (interrupted m).
Qed.

Lemma stranded_stream_step decode c s e :
  stranded_stream c s → stranded_stream c (step decode s e).
Proof.
  intros Hs. pose proof Hs as (Hin & Hlt & Href).
  destruct e as [i|proc|session sendFails|m a r|n|f|session now|now|now
                | |i|m a|m r|session now|now|now|rejected];
    cbn [step].
  - apply stranded_stream_start; [done|done|by left].
  - done.
  - unfold onaudioprocess. by destruct session, sendFails.
  - by apply stranded_stream_onmessage.
  - unfold onended. simpl. by case_match.
  - unfold onframe, draw. case_bool_decide; [|done]. simpl.
    case_match; [|done].
    apply (stranded_stream_same c s); simpl; [done|lia|done..].
  - unfold onclose. by apply stranded_stream_stop.
  - unfold onerror. by apply stranded_stream_stop.
  - by apply stranded_stream_stop.
  - by apply (stranded_stream_same c s).
  - apply stranded_stream_resume_with; [|done|done|by left].
    intros. by apply stranded_stream_stop_begin.
  - unfold onmessage_begin.
    destruct (truthy (inlineData m));
      [done|by apply stranded_stream_onmessage].
  - unfold onmessage_end.
    destruct (truthy (inlineData m)); [destruct (decode _) as [buf|]|];
      cbn [fst snd]; try done.
    apply (stranded_stream_same c s); [| | |done];
      destruct (interrupted m); simpl; (done || lia).
  - by apply stranded_stream_stop_begin.
  - by apply stranded_stream_stop_begin.
  - by apply stranded_stream_stop_begin.
  - rewrite stop_end_fields. by split.
Qed.

Lemma no_teardown_keeps decode s e :
  no_teardown e →
  liveStreams (step decode s e) = liveStreams s ∧
  mediaStreamRef (step decode s e) = mediaStreamRef s ∧
  nextHandle s ≤ nextHandle (step decode s e).
Proof.
  destruct e as [i|proc|session sendFails|m a r|n|f|session now|now|now
                | |i|m a|m r|session now|now|now|rejected];
    cbn [step]; intros He; try done.
  - unfold onaudioprocess. by destruct session, sendFails.
  - unfold onmessage, receive_audio.
    destruct (truthy (inlineData m)); [destruct (decode _) as [buf|]|];
      cbn [fst snd]; destruct (interrupted m); simpl;
      repeat split; (done || lia).
  - unfold onended. simpl. by case_match.
  - unfold onframe, draw. case_bool_decide; [|done]. simpl.
    case_match; [|done]. simpl. repeat split; (done || lia).
  - unfold onmessage_begin, onmessage, receive_audio.
    destruct (truthy (inlineData m)); cbn [fst snd]; [done|].
    by destruct (interrupted m).
  - unfold onmessage_end.
    destruct (truthy (inlineData m)); [destruct (decode _) as [buf|]|];
      cbn [fst snd]; try done; destruct (interrupted m); simpl;
      repeat split; (done || lia).
Qed.

(** X17. [startConversation] does not look whether a session is already
    being set up (the start button is only replaced once the channel has
    opened).  When a second start gets the microphone while the stream of
    the first is still held, the first stream is dropped from
    [mediaStreamRef] without being stopped, and nothing can stop it any
    more: it stays live through every later event. *)
Theorem second_start_strands_the_microphone
    (decode : string → option AudioBuffer) (i1 i2 : StartInputs)
    (u1 u2 : unit) (s : State) (between after : list Event) :
  userMedia i1 = inr u1 → sdkThrows i1 = None →
  userMedia i2 = inr u2 →
  Forall no_teardown between →
  let first := startConversation i1 s in
  let second := startConversation i2 (run decode first between) in
  mediaStreamRef first = Some (nextHandle s) ∧
  mediaStreamRef second ≠ Some (nextHandle s) ∧
  nextHandle s ∈ liveStreams (run decode second after).
Proof.
  intros Hg1 Hsdk Hg2 Hbetween first second.
  assert (mediaStreamRef first = Some (nextHandle s) ∧
          nextHandle s ∈ liveStreams first ∧
          nextHandle s < nextHandle first) as (Href & Hlive & Hlt).
  { subst first. unfold startConversation.
    rewrite (start_resume_armed i1 u1) by done. rewrite Hsdk.
    unfold armed. simpl. split; [done|]. split.
    - apply elem_of_union. left. by apply elem_of_singleton.
    - destruct (canvasReady i1); lia. }
  assert (nextHandle s ∈ liveStreams (run decode first between) ∧
          nextHandle s < nextHandle (run decode first between))
    as [Hlive' Hlt'].
  { assert (∀ x, nextHandle s ∈ liveStreams x → nextHandle s < nextHandle x →
                 nextHandle s ∈ liveStreams (run decode x between) ∧
                 nextHandle s < nextHandle (run decode x between)) as Hkeep.
    { induction Hbetween as [|e es He _ IH]; intros x Hx Hltx; [done|].
      destruct (no_teardown_keeps decode x e He) as (Hl & _ & Hh).
      apply IH; [by rewrite Hl|lia]. }
    by apply Hkeep. }
  assert (stranded_stream (nextHandle s) second) as Hstranded.
  { subst second. apply stranded_stream_start; [done|done|right; eauto]. }
  split; [done|]. split; [by destruct Hstranded as (_ & _ & ?)|].
  assert (∀ x, stranded_stream (nextHandle s) x →
               stranded_stream (nextHandle s) (run decode x after)) as Hrun.
  { induction after as [|e es IH]; intros x Hx; [done|].
    apply IH. by apply stranded_stream_step. }
  by destruct (Hrun second Hstranded) as (? & _).
Qed.

Lemma second_start_strands_the_microphone_witness :
  1 ∈ liveStreams
        (run demo_decode
           (startConversation granted (startConversation granted initial))
           [EvOpen 4; EvStop 1%Q]).
Proof.
  apply (second_start_strands_the_microphone demo_decode granted granted
           () () initial [] [EvOpen 4; EvStop 1%Q]); try reflexivity.
  constructor.
Defined.

(** * Properties of the video flow *)

(** ** Substrings *)

Lemma append_cons (c : Ascii.ascii) (s t : string) :
  String c s +:+ t = String c (s +:+ t).
Proof. reflexivity. Qed.

Lemma append_nil_r (s : string) : s +:+ "" = s.
Proof.
  induction s as [|c s IH]; [done|]. by rewrite append_cons, IH.
Qed.

Lemma append_assoc (a b c : string) : (a +:+ b) +:+ c = a +:+ b +:+ c.
Proof.
  induction a as [|x a IH]; [done|]. by rewrite !append_cons, IH.
Qed.

Lemma prefix_spec (p s : string) :
  String.prefix p s = true ↔ ∃ rest, s = p +:+ rest.
Proof.
  revert s. induction p as [|a p IH]; intros s.
  - split; [intros _; by exists s|by destruct s].
  - destruct s as [|b s]; simpl.
    + split; [done|]. by intros [rest ?].
    + destruct (Ascii.ascii_dec a b) as [->|Hne].
      * rewrite IH. split; intros [rest H]; exists rest.
        -- by rewrite append_cons, H.
        -- rewrite append_cons in H. by injection H.
      * split; [done|]. intros [rest H]. rewrite append_cons in H.
        by injection H.
Qed.

Lemma includes_nil (needle : string) :
  includes needle "" = String.prefix needle "".
Proof. unfold includes. apply orb_false_r. Qed.

Lemma includes_cons (needle : string) (c : Ascii.ascii) (hay : string) :
  includes needle (String c hay)
  = String.prefix needle (String c hay) || includes needle hay.
Proof. reflexivity. Qed.

Lemma includes_spec (needle hay : string) :
  includes needle hay = true ↔ ∃ pre post, hay = pre +:+ needle +:+ post.
Proof.
  split.
  - induction hay as [|c hay IH].
    + rewrite includes_nil. intros [rest ->]%prefix_spec. by exists "", rest.
    + rewrite includes_cons.
      intros [[rest ->]%prefix_spec|(pre & post & ->)%IH]%orb_true_iff.
      * by exists "", rest.
      * by exists (String c pre), post.
  - intros (pre & post & ->). induction pre as [|c pre IH].
    + assert (String.prefix needle (needle +:+ post) = true) as Hp
        by (apply prefix_spec; eauto).
      change ("" +:+ needle +:+ post) with (needle +:+ post).
      destruct (needle +:+ post) as [|c rest].
      * by rewrite includes_nil.
      * by rewrite includes_cons, Hp.
    + rewrite append_cons, includes_cons, IH. apply orb_true_r.
Qed.

(** X9. The retry of the video request is triggered by the text of the
    error alone: exactly when the error has a message and the message
    contains "Requested entity was not found" or "403" somewhere, so
    also when the digits 403 are part of a longer number or word. *)
Theorem retry_trigger_is_substring (err : JsError) :
  stale_key err = true ↔
  ∃ msg pre post,
    message err = Some msg ∧
    (msg = pre +:+ "Requested entity was not found" +:+ post ∨
     msg = pre +:+ "403" +:+ post).
Proof.
  unfold stale_key. split.
  - destruct (message err) as [msg|]; [|done].
    intros [_ [H|H]%orb_true_iff]%andb_true_iff;
      apply includes_spec in H as (pre & post & ->);
      eexists _, pre, post; eauto.
  - intros (msg & pre & post & -> & H).
    apply andb_true_iff. split.
    + destruct H as [-> | ->]; by destruct pre.
    + apply orb_true_iff.
      destruct H as [-> | ->]; [left|right]; apply includes_spec; eauto.
Qed.

Lemma retry_trigger_is_substring_witness :
  stale_key {| message := Some "quota 14030 exceeded" |} = true.
Proof.
  apply (retry_trigger_is_substring {| message := Some "quota 14030 exceeded" |}).
  exists "quota 14030 exceeded", "quota 1", "0 exceeded". split; [reflexivity|].
  right. reflexivity.
Defined.

Section StudioFlow.

Import Studio.

(** ** checkApiKey *)

(** X10. [checkApiKey] refuses (settles to false) in one case only: the
    key functions exist, no key is selected and the selection dialog
    rejects.  The dialog is opened exactly when the functions exist and no
    key is selected, and once it resolves the answer is true without a
    second look at the key.  Without the key functions nothing is called
    and the answer is true.  A rejection of [hasSelectedApiKey] is passed
    on. *)
Theorem checkApiKey_refusal (k : KeyInputs) :
  ((checkApiKey k).2 = inr false ↔
   aistudio k = true ∧ hasSelectedApiKey k = inr false ∧
   is_Some (selectKey k)) ∧
  (SelectKey ∈ (checkApiKey k).1 ↔
   aistudio k = true ∧ hasSelectedApiKey k = inr false) ∧
  (aistudio k = true ∧ hasSelectedApiKey k = inr false ∧
   selectKey k = None → (checkApiKey k).2 = inr true) ∧
  (aistudio k = false → checkApiKey k = ([], inr true)) ∧
  (∀ err, (checkApiKey k).2 = inl err ↔
          aistudio k = true ∧ hasSelectedApiKey k = inl err).
Proof.
  unfold checkApiKey.
  destruct (aistudio k), (hasSelectedApiKey k) as [e|[|]],
    (selectKey k) as [c|]; cbn [fst snd negb].
  all: split; [split; [done || by eauto | by intros (? & ? & [? ?])]|].
  all: split; [split;
    [intros H; repeat (apply elem_of_cons in H as [H|H];
                       [discriminate H|]); try done;
     by apply elem_of_nil in H
    |try (by intros [? ?]); intros _; repeat constructor]|].
  all: split; [try (by intros (? & ? & ?)); done|].
  all: split; [done|].
  all: intros err; split; [try done; by intros [= ->]
                          |try (by intros [? ?]); by intros [_ [= ->]]].
Qed.

Lemma checkApiKey_refusal_witness :
  (checkApiKey
     {| aistudio := true; hasSelectedApiKey := inr false;
        selectKey := Some {| message := Some "dismissed" |} |}).2 = inr false.
Proof.
  apply (proj1 (checkApiKey_refusal
                  {| aistudio := true; hasSelectedApiKey := inr false;
                     selectKey := Some {| message := Some "dismissed" |} |})).
  split; [reflexivity|]. split; [reflexivity|]. eexists. reflexivity.
Defined.

(** ** The polling loop *)

Lemma poll_pending operation answer rest :
  done operation = false →
  poll operation (answer :: rest)
  = match answer with
    | inl err => (1, Some (inl err))
    | inr next => let (n, r) := poll next rest in (S n, r)
    end.
Proof. intros Hd. simpl. by rewrite Hd. Qed.

Lemma poll_done operation answers :
  done operation = true → poll operation answers = (0, Some (inr operation)).
Proof. intros Hd. destruct answers; simpl; by rewrite Hd. Qed.

Lemma poll_sound answers : ∀ operation n r,
  poll operation answers = (n, r) →
  n ≤ length answers ∧
  match r with
  | Some (inr final) => done final = true
  | Some (inl _) => True
  | None => n = length answers ∧ done operation = false
  end.
Proof.
  induction answers as [|answer rest IH]; intros operation n r.
  - simpl. destruct (done operation) eqn:Hd; intros [= <- <-]; by split.
  - destruct (done operation) eqn:Hd.
    + rewrite poll_done by done. intros [= <- <-]. simpl. split; [lia|done].
    + rewrite poll_pending by done. destruct answer as [err|next].
      * intros [= <- <-]. simpl. split; [lia|done].
      * destruct (poll next rest) as [k q] eqn:Hp. intros [= <- <-].
        destruct (IH next k q Hp) as [Hk Hq]. simpl. split; [lia|].
        destruct q as [[?|?]|]; [done..|].
        destruct Hq as [-> _]. done.
Qed.

Lemma poll_skips pre : ∀ operation tail,
  done operation = false → Forall still_rendering pre →
  poll operation (pre ++ tail)
  = match tail with
    | [] => (length pre, None)
    | inl err :: _ => (S (length pre), Some (inl err))
    | inr next :: rest =>
        let (n, r) := poll next rest in (S (length pre + n), r)
    end.
Proof.
  induction pre as [|answer pre IH]; intros operation tail Hd Hpre.
  - change ([] ++ tail) with tail.
    destruct tail as [|[err|next] rest]; [simpl; by rewrite Hd|..];
      rewrite poll_pending by done; [done|].
    by destruct (poll next rest).
  - apply Forall_cons in Hpre as [(next & -> & Hnext) Hpre].
    change ((inr next :: pre) ++ tail) with (inr next :: (pre ++ tail)).
    rewrite poll_pending by done. rewrite IH by done.
    destruct tail as [|[err|final] rest]; [done..|].
    by destruct (poll final rest).
Qed.

(** X11. The polling loop asks [getVideosOperation] until the first
    answer that is done or that throws, and no further: if the operation
    is done to begin with no call is made; after [k] answers that are
    still rendering, a done answer ends the loop with that operation
    after [k + 1] calls, and a thrown one with that error.  Whenever the
    loop ends with an operation, that operation is done; while all
    answers so far are still rendering the loop has not ended. *)
Theorem polling_stops_at_first_done :
  (∀ operation answers,
     done operation = true →
     poll operation answers = (0, Some (inr operation))) ∧
  (∀ operation pre final post,
     done operation = false → Forall still_rendering pre →
     done final = true →
     poll operation (pre ++ inr final :: post)
     = (S (length pre), Some (inr final))) ∧
  (∀ operation pre err post,
     done operation = false → Forall still_rendering pre →
     poll operation (pre ++ inl err :: post)
     = (S (length pre), Some (inl err))) ∧
  (∀ operation answers n final,
     poll operation answers = (n, Some (inr final)) →
     done final = true ∧ n ≤ length answers) ∧
  (∀ operation answers,
     done operation = false → Forall still_rendering answers →
     poll operation answers = (length answers, None)).
Proof.
  split; [apply poll_done|]. split; [|split; [|split]].
  - intros operation pre final post Hd Hpre Hfinal.
    rewrite poll_skips by done. rewrite poll_done by done.
    by rewrite Nat.add_0_r.
  - intros operation pre err post Hd Hpre. by rewrite poll_skips.
  - intros operation answers n final Hp.
    destruct (poll_sound answers operation n _ Hp). done.
  - intros operation answers Hd Hall.
    rewrite <- (app_nil_r answers) at 1. by rewrite poll_skips.
Qed.

Lemma polling_stops_at_first_done_witness :
  poll rendering [inr rendering; inr rendered; inr rendering]
  = (2, Some (inr rendered)).
Proof.
  apply (proj1 (proj2 polling_stops_at_first_done) rendering
           [inr rendering] rendered [inr rendering]).
  - reflexivity.
  - repeat constructor. by exists rendering.
  - reflexivity.
Defined.

(** ** The download URL *)

Lemma includes_append_l (needle a b : string) :
  includes needle a = true → includes needle (a +:+ b) = true.
Proof.
  intros (pre & post & ->)%includes_spec. apply includes_spec.
  exists pre, (post +:+ b). by rewrite !append_assoc.
Qed.

Lemma includes_append_r (needle a b : string) :
  includes needle b = true → includes needle (a +:+ b) = true.
Proof.
  intros (pre & post & ->)%includes_spec. apply includes_spec.
  exists (a +:+ pre), post. by rewrite !append_assoc.
Qed.

(** X12. The URL the video is fetched from: without a usable key
    (undefined or empty) it is the video URI unchanged; with a key it is
    the URI followed by [?key=...], or by [&key=...] when the URI already
    has a question mark.  So with a key the URL always begins with the
    URI, contains a question mark and contains the key parameter. *)
Theorem video_url_carries_key (uri : string) (apiKey : option string) :
  (truthy apiKey = false → videoUrlWithKey uri apiKey = uri) ∧
  (∀ key, apiKey = Some key → key ≠ "" →
     videoUrlWithKey uri apiKey
     = uri +:+ (if includes "?" uri then "&" else "?") +:+ "key=" +:+ key ∧
     String.prefix uri (videoUrlWithKey uri apiKey) = true ∧
     includes "?" (videoUrlWithKey uri apiKey) = true ∧
     includes ("key=" +:+ key) (videoUrlWithKey uri apiKey) = true).
Proof.
  split.
  - intros Hk. unfold videoUrlWithKey. by rewrite Hk.
  - intros key -> Hne.
    assert (videoUrlWithKey uri (Some key)
            = uri +:+ (if includes "?" uri then "&" else "?")
                  +:+ "key=" +:+ key) as ->.
    { unfold videoUrlWithKey. by rewrite (truthy_Some key Hne). }
    split; [done|]. split; [apply prefix_spec; eauto|]. split.
    + destruct (includes "?" uri) eqn:Hq.
      * by apply includes_append_l.
      * apply includes_append_r, includes_spec. by exists "", ("key=" +:+ key).
    + apply includes_append_r, includes_append_r, includes_spec.
      exists "", "". by rewrite append_nil_r.
Qed.

Lemma video_url_carries_key_witness :
  videoUrlWithKey "https://host/video.mp4?alt=media" (Some "K")
  = "https://host/video.mp4?alt=media&key=K".
Proof.
  destruct (proj2 (video_url_carries_key "https://host/video.mp4?alt=media"
                     (Some "K")) "K" eq_refl)
    as (Hurl & _); [discriminate|].
  exact Hurl.
Defined.

(** ** The image payload *)

Lemma includes_comma_cons (c : Ascii.ascii) (s : string) :
  includes "," (String c s) = false →
  Ascii.eqb c comma = false ∧ includes "," s = false.
Proof.
  rewrite includes_cons. intros [Hp Hs]%orb_false_iff. split; [|done].
  apply Ascii.eqb_neq. intros ->.
  assert (String.prefix "," (String comma s) = true) as Hp'
    by (apply prefix_spec; by exists s).
  congruence.
Qed.

Lemma split_no_comma (s : string) :
  includes "," s = false → split comma s = [s].
Proof.
  induction s as [|c s IH]; [done|].
  intros [Hc Hs]%includes_comma_cons. simpl. by rewrite Hc, IH.
Qed.

Lemma split_first_comma (header rest : string) :
  includes "," header = false →
  split comma (header +:+ "," +:+ rest) = header :: split comma rest.
Proof.
  induction header as [|c header IH]; [done|].
  intros [Hc Hs]%includes_comma_cons.
  rewrite append_cons. simpl. by rewrite Hc, IH.
Qed.

(** X13. What is sent as image bytes is the part of the FileReader's
    data URL between its first comma and its second one, if it has
    one: for [data:<type>;base64,<payload>] with no comma in the type
    and none in the payload that is the payload itself; a result
    without any comma gives undefined, and a payload is cut at a comma
    inside it. *)
Theorem data_url_payload :
  (∀ header payload,
     includes "," header = false → includes "," payload = false →
     base64_of_data_url (header +:+ "," +:+ payload) = Some payload) ∧
  (∀ res, includes "," res = false → base64_of_data_url res = None) ∧
  (∀ header payload more,
     includes "," header = false → includes "," payload = false →
     base64_of_data_url (header +:+ "," +:+ payload +:+ "," +:+ more)
     = Some payload).
Proof.
  unfold base64_of_data_url. split; [|split].
  - intros header payload Hh Hp.
    by rewrite split_first_comma, split_no_comma.
  - intros res Hr. by rewrite split_no_comma.
  - intros header payload more Hh Hp.
    by rewrite !split_first_comma.
Qed.

Lemma data_url_payload_witness :
  base64_of_data_url ("data:image/png;base64" +:+ "," +:+ "iVBORw0KGgo=")
  = Some "iVBORw0KGgo=".
Proof.
  apply (proj1 data_url_payload "data:image/png;base64" "iVBORw0KGgo=");
    reflexivity.
Defined.

(** ** generateVideo *)

Lemma or_else_nonempty (m : option string) (fallback : string) :
  fallback ≠ "" → or_else m fallback ≠ "".
Proof.
  intros Hf. unfold or_else. destruct m as [x|]; [|done].
  by destruct (String.eqb_spec x "").
Qed.

(** Take a membership in a list of steps apart. *)
Ltac in_steps :=
  repeat match goal with
  | H : _ ∈ _ ++ _ |- _ => apply elem_of_app in H as [H|H]
  | H : _ ∈ _ <$> _ |- _ =>
      apply list_elem_of_fmap in H as (? & ? & ?); try discriminate
  | H : _ ∈ replicate _ _ |- _ =>
      apply elem_of_replicate in H as [? ?]; try discriminate; try done
  | H : _ ∈ _ :: _ |- _ => apply elem_of_cons in H as [H|H]; try discriminate
  | H : _ ∈ [] |- _ => by apply elem_of_nil in H
  end.

(** Settle a conjunct that follows from where a step can occur. *)
Ltac gate :=
  intros;
  repeat match goal with
         | H : _ ∨ _ |- _ => destruct H as [H|H]
         | H : ∃ _, _ |- _ => destruct H as [? H]
         end;
  subst; in_steps; try done; eauto.

Lemma deliver_inv i operation fetched shown progress :
  deliver i operation = (fetched, shown, progress) →
  progress ≠ Pending ∧
  (∀ step, step ∈ fetched →
     operationError operation = None ∧
     truthy (videoUri operation) = true ∧
     (step = ReadBlob ∨
      step = Fetch (videoUrlWithKey (default "" (videoUri operation))
                      (apiKey i)))) ∧
  (∀ url, progress = Completed url →
     operationError operation = None ∧
     truthy (videoUri operation) = true ∧
     (∃ status, download i = inr (true, status)) ∧
     blob i = inr url ∧
     Fetch (videoUrlWithKey (default "" (videoUri operation)) (apiKey i))
     ∈ fetched ∧
     last shown = Some "Complete!").
Proof.
  unfold deliver.
  destruct (operationError operation) as [msg|];
    [intros [= <- <- <-]; repeat split; try done; intros; in_steps|].
  destruct (truthy (videoUri operation));
    [|intros [= <- <- <-]; repeat split; try done; intros; in_steps].
  destruct (download i) as [err|[[|] status]];
    [|destruct (blob i) as [err|localVideoUrl]|];
    intros [= <- <- <-]; (split; [done|split]).
  all: try (intros step Hin; in_steps; subst; eauto).
  all: try done.
  injection Hin as ->. repeat split; eauto. apply elem_of_cons. by left.
Qed.

(** What each piece of the try block's result tells about the inputs. *)
Lemma attempt_inv i steps statuses progress :
  attempt i = (steps, statuses, progress) →
  (∀ c, RequestStep c ∈ steps →
     (checkApiKey (keys i)).2 = inr true ∧ ∃ res, fileRead i = inr res) ∧
  (GetVideosOperation ∈ steps →
     ∃ handle, (requestVideo (request i)).2 = inr handle ∧
               done (operationOf i handle) = false) ∧
  (∀ step, step = ReadBlob ∨ (∃ url, step = Fetch url) → step ∈ steps →
     ∃ handle final,
       (requestVideo (request i)).2 = inr handle ∧
       (poll (operationOf i handle) (answers i)).2 = Some (inr final) ∧
       done final = true ∧ operationError final = None ∧
       truthy (videoUri final) = true ∧
       (step = ReadBlob ∨
        step = Fetch (videoUrlWithKey (default "" (videoUri final))
                        (apiKey i)))) ∧
  (∀ url, progress = Completed url →
     (checkApiKey (keys i)).2 = inr true ∧
     (∃ res, fileRead i = inr res) ∧
     (∃ status, download i = inr (true, status)) ∧
     blob i = inr url ∧
     (∃ step, step ∈ steps ∧ ∃ fetched, step = Fetch fetched) ∧
     last statuses = Some "Complete!") ∧
  (progress = Pending →
     ∃ handle, (requestVideo (request i)).2 = inr handle ∧
               (poll (operationOf i handle) (answers i)).2 = None).
Proof.
  unfold attempt.
  destruct (checkApiKey (keys i)) as [keyCalls [err|[|]]].
  2: destruct (fileRead i) as [err|res].
  3: destruct (requestVideo (request i)) as [calls [err|handle]].
  4: destruct (poll (operationOf i handle) (answers i))
       as [polls [[err|final]|]] eqn:Hpoll.
  5: destruct (deliver i final) as [[fetched shown] delivered] eqn:Hdel.
  all: intros [= <- <- <-].
  all: try solve [repeat split; gate].
  - (* a poll threw *)
    assert (done (operationOf i handle) = true → polls = 0) as Hnone.
    { intros Hd. rewrite poll_done in Hpoll by done. by injection Hpoll. }
    split; [gate|]. split; [|split; [gate|split; gate]].
    intros Hin. exists handle. split; [done|].
    destruct (done (operationOf i handle)); [|done].
    rewrite Hnone in Hin by done. gate.
  - (* the loop ended with an operation *)
    assert (done (operationOf i handle) = true → polls = 0) as Hnone.
    { intros Hd. rewrite poll_done in Hpoll by done. by injection Hpoll. }
    destruct (poll_sound _ _ _ _ Hpoll) as [_ Hfinal].
    destruct (deliver_inv i final fetched shown delivered Hdel)
      as (Hnp & Hfetched & Hdone).
    split; [|split; [|split; [|split]]].
    + intros c Hin. split; [done|eauto].
    + intros Hin. exists handle. split; [done|].
      destruct (done (operationOf i handle)); [|done].
      rewrite Hnone in Hin by done. in_steps.
      destruct (Hfetched _ Hin) as (_ & _ & [?|?]); done.
    + intros step Hstep Hin.
      assert (step ∈ fetched) as Hf
        by (destruct Hstep as [->|[url ->]]; by in_steps).
      destruct (Hfetched _ Hf) as (He & Hu & Hs).
      exists handle, final. by rewrite Hpoll.
    + intros url ->.
      destruct (Hdone url eq_refl) as (_ & _ & Hdl & Hblob & Hin & Hlast).
      split; [done|]. split; [eauto|]. split; [done|]. split; [done|].
      split.
      { eexists. split; [|by eexists]. apply elem_of_app. by right. }
      apply last_Some in Hlast as [before ->].
      rewrite app_assoc. exact (last_snoc _ (_ :: _ :: _ :: _)).
    + by intros ->.
  - (* still polling *)
    assert (done (operationOf i handle) = true → polls = 0) as Hnone.
    { intros Hd. rewrite poll_done in Hpoll by done. by injection Hpoll. }
    split; [gate|]. split; [|split; [gate|split; [gate|]]].
    + intros Hin. exists handle. split; [done|].
      destruct (done (operationOf i handle)); [|done].
      rewrite Hnone in Hin by done. gate.
    + intros _. exists handle. by rewrite Hpoll.
Qed.

(** X14. How [generateVideo] leaves the component.  Without a selected
    image it calls nothing and only sets the error "Please select an
    image first."; the generating flag, the status line and an earlier
    result stay as they were.  With an image, once it has returned the
    generating flag is off and exactly one of error and video URL is
    set, the video URL only together with the status "Complete!", and an
    error shown is never the empty text; while it is still polling the
    flag is on and neither error nor video URL is set.  Prompt, aspect
    ratio, image and preview are never touched. *)
Theorem generateVideo_outcome (i : Inputs) (s : State) (steps : list Step)
    (returned : bool) (s' : State) :
  generateVideo i s = (steps, returned, s') →
  (prompt s' = prompt s ∧ aspectRatio s' = aspectRatio s ∧
   selectedFile s' = selectedFile s ∧ previewUrl s' = previewUrl s) ∧
  (selectedFile s = None →
     steps = [] ∧ returned = true ∧
     error s' = Some "Please select an image first." ∧
     isGenerating s' = isGenerating s ∧
     generatedVideoUrl s' = generatedVideoUrl s ∧
     statusMessage s' = statusMessage s) ∧
  (is_Some (selectedFile s) → returned = true →
     isGenerating s' = false ∧
     (error s' = None ↔ is_Some (generatedVideoUrl s')) ∧
     (is_Some (generatedVideoUrl s') → statusMessage s' = "Complete!") ∧
     (∀ msg, error s' = Some msg → msg ≠ "")) ∧
  (is_Some (selectedFile s) → returned = false →
     isGenerating s' = true ∧ error s' = None ∧
     generatedVideoUrl s' = None).
Proof.
  unfold generateVideo. destruct (selectedFile s) as [file|] eqn:Hfile.
  - destruct (attempt i) as [[tried statuses] progress] eqn:Hattempt.
    destruct (attempt_inv i tried statuses progress Hattempt)
      as (_ & _ & _ & Hcompleted & _).
    destruct progress as [err|localVideoUrl|]; intros [= <- <- <-];
      cbn [fst snd].
    + split; [done|]. split; [done|]. split; [|done]. intros _ _.
      split; [done|]. split; [split; [done|by intros [? ?]]|].
      split; [by intros [? ?]|].
      intros msg [= <-]. by apply or_else_nonempty.
    + destruct (Hcompleted _ eq_refl) as (_ & _ & _ & _ & _ & Hlast).
      split; [done|]. split; [done|]. split; [|done]. intros _ _.
      split; [done|]. split; [split; [by eexists|done]|].
      split; [|done]. intros _. simpl. by rewrite Hlast.
    + split; [done|]. split; [done|]. split; [done|]. by intros _ _.
  - intros [= <- <- <-].
    split; [done|]. split; [done|]. split; by intros [? ?].
Qed.

Lemma generateVideo_outcome_witness :
  let s' := (generateVideo smooth ready).2 in
  isGenerating s' = false ∧ generatedVideoUrl s' = Some "blob:video" ∧
  statusMessage s' = "Complete!" ∧ error s' = None.
Proof.
  intros s'.
  destruct (generateVideo_outcome smooth ready
              (generateVideo smooth ready).1.1 true s' eq_refl)
    as (_ & _ & Hdone & _).
  destruct Hdone as (Hg & Herr & Hstatus & _); [by eexists|done|].
  assert (generatedVideoUrl s' = Some "blob:video") as Hurl by reflexivity.
  split; [done|]. split; [done|].
  split; [apply Hstatus; by eexists|]. apply Herr. by eexists.
Defined.

(** X15. A video is shown only when every stage went through: the key
    check said yes, the image was read, a request (the first or the
    retried one) returned an operation, the polling ended with an
    operation that is done, carries no error and has a video URI, the
    download of that URI with the key appended answered ok, and the
    local URL shown is the one made from its body. *)
Theorem video_shown_only_after_every_stage (i : Inputs) (s : State)
    (steps : list Step) (s' : State) (url : string) :
  is_Some (selectedFile s) →
  generateVideo i s = (steps, true, s') →
  generatedVideoUrl s' = Some url →
  (checkApiKey (keys i)).2 = inr true ∧
  (∃ res, fileRead i = inr res) ∧
  (∃ handle final,
     (requestVideo (request i)).2 = inr handle ∧
     (poll (operationOf i handle) (answers i)).2 = Some (inr final) ∧
     done final = true ∧ operationError final = None ∧
     truthy (videoUri final) = true ∧
     Fetch (videoUrlWithKey (default "" (videoUri final)) (apiKey i))
     ∈ steps) ∧
  (∃ status, download i = inr (true, status)) ∧
  blob i = inr url.
Proof.
  intros [file Hfile] Hrun Hurl. unfold generateVideo in Hrun.
  rewrite Hfile in Hrun.
  destruct (attempt i) as [[tried statuses] progress] eqn:Hattempt.
  destruct (attempt_inv i tried statuses progress Hattempt)
    as (_ & _ & Hfetch & Hcompleted & _).
  destruct progress as [err|localVideoUrl|]; simplify_eq/=.
  destruct (Hcompleted _ eq_refl)
    as (Hkey & Hread & Hdl & Hblob & (step & Hin & fetched & ->) & _).
  destruct (Hfetch _ (or_intror (ex_intro _ fetched eq_refl)) Hin)
    as (handle & final & Hreq & Hpoll & Hd & He & Hu & [?|Hstep]); [done|].
  split; [done|]. split; [done|]. split; [|done].
  exists handle, final. rewrite <- Hstep. done.
Qed.

Lemma video_shown_only_after_every_stage_witness :
  (checkApiKey (keys smooth)).2 = inr true ∧ blob smooth = inr "blob:video".
Proof.
  destruct (video_shown_only_after_every_stage smooth ready
              (generateVideo smooth ready).1.1 (generateVideo smooth ready).2
              "blob:video")
    as (Hkey & _ & _ & _ & Hblob); [by eexists|reflexivity|reflexivity|].
  split; [exact Hkey|exact Hblob].
Defined.

(** X16. [generateVideo] never gets ahead of itself: a video request
    (or the key re-selection around it) is only made after the key check
    said yes and the image was read; [getVideosOperation] is only called
    for an operation that a request returned and that was not done
    already; the download is only started, and only from the URI with
    the key appended, after the polling ended with an operation that is
    done and free of error. *)
Theorem calls_are_gated (i : Inputs) (s : State) (steps : list Step)
    (returned : bool) (s' : State) :
  generateVideo i s = (steps, returned, s') →
  (∀ c, RequestStep c ∈ steps →
     (checkApiKey (keys i)).2 = inr true ∧ ∃ res, fileRead i = inr res) ∧
  (GetVideosOperation ∈ steps →
     ∃ handle, (requestVideo (request i)).2 = inr handle ∧
               done (operationOf i handle) = false) ∧
  (∀ url, Fetch url ∈ steps →
     ∃ handle final,
       (requestVideo (request i)).2 = inr handle ∧
       (poll (operationOf i handle) (answers i)).2 = Some (inr final) ∧
       done final = true ∧ operationError final = None ∧
       truthy (videoUri final) = true ∧
       url = videoUrlWithKey (default "" (videoUri final)) (apiKey i)).
Proof.
  unfold generateVideo. destruct (selectedFile s) as [file|].
  2: { intros [= <- <- <-]. repeat split; gate. }
  destruct (attempt i) as [[tried statuses] progress] eqn:Hattempt.
  destruct (attempt_inv i tried statuses progress Hattempt)
    as (Hreq & Hpoll & Hfetch & _ & _).
  intros Hrun.
  assert (∀ step, step ≠ ConsoleError → step ∈ steps → step ∈ tried) as Hin.
  { intros step Hne Hs. destruct progress; simplify_eq/=; [|done..].
    in_steps; done. }
  split; [|split].
  - intros c Hc. apply (Hreq c), Hin; done.
  - intros Hg. apply Hpoll, Hin; done.
  - intros url Hu.
    destruct (Hfetch (Fetch url)) as (handle & final & H1 & H2 & H3 & H4 & H5 & H6);
      [right; by eexists|by apply Hin|].
    exists handle, final. destruct H6 as [?|[= ->]]; done.
Qed.

Lemma calls_are_gated_witness :
  ∃ handle final,
    (requestVideo (request smooth)).2 = inr handle ∧
    (poll (operationOf smooth handle) (answers smooth)).2
    = Some (inr final) ∧
    done final = true ∧ operationError final = None ∧
    truthy (videoUri final) = true ∧
    "https://host/video.mp4?key=K"
    = videoUrlWithKey (default "" (videoUri final)) (apiKey smooth).
Proof.
  apply (proj2 (proj2 (calls_are_gated smooth ready
                         (generateVideo smooth ready).1.1 true
                         (generateVideo smooth ready).2 eq_refl))
           "https://host/video.mp4?key=K").
  vm_compute. repeat constructor.
Defined.

End StudioFlow.

